(** * Verification of the naming helpers and of [RawFields.IsValid]

    The development embeds, as executable Rocq definitions,

    - the three casing functions of
      [cmd/protoc-gen-go/internal_gengo/namefuncs.go]
      ([ToCamelCase], [ToPascalCase], [ToSnakeCase]) together with the
      parts of Go's [strings], [unicode] and [unicode/utf8] packages they
      call;
    - [RawFields.IsValid] of the reflection layer together with the wire
      scanner it calls.

    Go strings are byte sequences, runes are integers, and every mutable
    object the code allocates lives in an explicit heap. *)

From Stdlib Require Import ZArith List Lia Bool.
From Stdlib Require Import Strings.Byte.
From stdpp Require Import base option list strings.

Open Scope Z_scope.

(** ** Bytes, strings and runes *)

(** A Go [string] (and a [[]byte]) is a sequence of bytes. *)
Abbreviation gostring := (list byte).

(** A Go [rune] is an [int32]; the model keeps it as an integer. *)
Definition rune := Z.

Definition byte_val (b : byte) : Z := Z.of_N (Byte.to_N b).

(** Go's conversion [byte(x)]: keep the low eight bits. *)
Definition byte_of (z : Z) : byte :=
  default x00 (Byte.of_N (Z.to_N (z mod 256))).

(** A string literal as a Go string. *)
Definition str (s : string) : gostring := String.list_byte_of_string s.

(** ** Package [unicode/utf8] *)

Module utf8.

Definition RuneError : rune := 0xFFFD.
Definition RuneSelf : Z := 0x80.
Definition MaxRune : rune := 0x10FFFF.
Definition surrogateMin : rune := 0xD800.
Definition surrogateMax : rune := 0xDFFF.

Definition maskx : Z := 0x3F.
Definition mask2 : Z := 0x1F.
Definition mask3 : Z := 0x0F.
Definition mask4 : Z := 0x07.
Definition locb : Z := 0x80.
Definition hicb : Z := 0xBF.

(** The table [first] of the package, for a lead byte [s0 >= RuneSelf]:
    the length of the sequence and the accepted range of its second
    byte; [None] for the bytes the table marks invalid. *)
Definition first (s0 : Z) : option (nat * Z * Z) :=
  if s0 <? 0xC2 then None
  else if s0 <=? 0xDF then Some (2%nat, locb, hicb)
  else if s0 =? 0xE0 then Some (3%nat, 0xA0, hicb)
  else if s0 <=? 0xEC then Some (3%nat, locb, hicb)
  else if s0 =? 0xED then Some (3%nat, locb, 0x9F)
  else if s0 <=? 0xEF then Some (3%nat, locb, hicb)
  else if s0 =? 0xF0 then Some (4%nat, 0x90, hicb)
  else if s0 <=? 0xF3 then Some (4%nat, locb, hicb)
  else if s0 =? 0xF4 then Some (4%nat, locb, 0x8F)
  else None.

(** [DecodeRuneInString]: the first rune of [p] and its width in bytes.
    An empty input gives [(RuneError, 0)], an invalid or truncated
    sequence [(RuneError, 1)].  The package's test [n < sz] is the
    [nil] branch of each inner match. *)
Definition DecodeRune (p : gostring) : rune * nat :=
  match p with
  | [] => (RuneError, 0%nat)
  | b0 :: p1 =>
    let s0 := byte_val b0 in
    if s0 <? RuneSelf then (s0, 1%nat)
    else
      match first s0 with
      | None => (RuneError, 1%nat)
      | Some (sz, lo, hi) =>
        match p1 with
        | [] => (RuneError, 1%nat)
        | b1 :: p2 =>
          let s1 := byte_val b1 in
          if (s1 <? lo) || (hi <? s1) then (RuneError, 1%nat)
          else if (sz <=? 2)%nat then
            (Z.lor (Z.shiftl (Z.land s0 mask2) 6) (Z.land s1 maskx), 2%nat)
          else
            match p2 with
            | [] => (RuneError, 1%nat)
            | b2 :: p3 =>
              let s2 := byte_val b2 in
              if (s2 <? locb) || (hicb <? s2) then (RuneError, 1%nat)
              else if (sz <=? 3)%nat then
                (Z.lor (Z.lor (Z.shiftl (Z.land s0 mask3) 12)
                              (Z.shiftl (Z.land s1 maskx) 6))
                       (Z.land s2 maskx), 3%nat)
              else
                match p3 with
                | [] => (RuneError, 1%nat)
                | b3 :: _ =>
                  let s3 := byte_val b3 in
                  if (s3 <? locb) || (hicb <? s3) then (RuneError, 1%nat)
                  else
                    (Z.lor (Z.lor (Z.lor (Z.shiftl (Z.land s0 mask4) 18)
                                         (Z.shiftl (Z.land s1 maskx) 12))
                                  (Z.shiftl (Z.land s2 maskx) 6))
                           (Z.land s3 maskx), 4%nat)
                end
            end
        end
      end
  end.

(** [AppendRune] on an empty buffer: the UTF-8 encoding of [r]; a rune
    out of range or a surrogate is written as [RuneError]. *)
Definition EncodeRune (r : rune) : gostring :=
  if (0 <=? r) && (r <=? 0x7F) then [byte_of r]
  else if (0 <=? r) && (r <=? 0x7FF) then
    [byte_of (Z.lor 0xC0 (Z.shiftr r 6));
     byte_of (Z.lor 0x80 (Z.land r maskx))]
  else if (r <? 0) || (MaxRune <? r)
          || ((surrogateMin <=? r) && (r <=? surrogateMax)) then
    [xef; xbf; xbd]
  else if r <=? 0xFFFF then
    [byte_of (Z.lor 0xE0 (Z.shiftr r 12));
     byte_of (Z.lor 0x80 (Z.land (Z.shiftr r 6) maskx));
     byte_of (Z.lor 0x80 (Z.land r maskx))]
  else
    [byte_of (Z.lor 0xF0 (Z.shiftr r 18));
     byte_of (Z.lor 0x80 (Z.land (Z.shiftr r 12) maskx));
     byte_of (Z.lor 0x80 (Z.land (Z.shiftr r 6) maskx));
     byte_of (Z.lor 0x80 (Z.land r maskx))].

(** One step of a [range] loop over a string: the rune read and the
    bytes it was read from. *)
Definition chunk : Type := rune * gostring.

(** The runes of [s] in order, each with its source bytes; the fuel is
    the length of [s], since a step consumes at least one byte. *)
Fixpoint chunks_fuel (fuel : nat) (s : gostring) : list chunk :=
  match fuel with
  | O => []
  | S fuel' =>
    match s with
    | [] => []
    | _ :: _ =>
      let '(r, w) := DecodeRune s in
      (r, take w s) :: chunks_fuel fuel' (drop w s)
    end
  end.

Definition chunks (s : gostring) : list chunk := chunks_fuel (length s) s.

(** Attach to each rune the byte index it starts at. *)
Fixpoint index_from (i : nat) (cs : list chunk) : list (nat * rune) :=
  match cs with
  | [] => []
  | (r, bs) :: cs' => (i, r) :: index_from (i + length bs) cs'
  end.

(** [for i, c := range s]: the pairs (byte index, rune) the loop sees. *)
Definition range (s : gostring) : list (nat * rune) :=
  index_from 0 (chunks s).

(** A chunk read from an invalid byte: [RuneError] of width one. *)
Definition invalid (c : chunk) : bool :=
  (fst c =? RuneError) && (length (snd c) <=? 1)%nat.

End utf8.

(** ** Package [unicode] *)

Module unicode.

(** The character tables of Go's [unicode] package are data of the Go
    distribution; the functions below take them as a parameter. *)
Record Tables : Type := {
  IsLetter : rune -> bool;
  IsNumber : rune -> bool;
  IsDigit : rune -> bool;
  IsSpace : rune -> bool;
  IsUpper : rune -> bool;
  ToLower : rune -> rune;
  ToTitle : rune -> rune
}.

Definition between (lo hi r : Z) : bool := (lo <=? r) && (r <=? hi).

Definition ascii_upper (r : rune) : bool := between 65 90 r.
Definition ascii_lower (r : rune) : bool := between 97 122 r.
Definition ascii_digit (r : rune) : bool := between 48 57 r.
Definition ascii_letter (r : rune) : bool := ascii_upper r || ascii_lower r.

(** What the development assumes of the tables: on ASCII they are the
    usual classes and case maps, [RuneError] (a symbol) has no class and
    no case, a number is not a space, and the title-case form of a rune
    is a rune (not negative). *)
Record Laws (U : Tables) : Prop := {
  ascii_IsLetter : forall r, 0 <= r < 128 -> IsLetter U r = ascii_letter r;
  ascii_IsNumber : forall r, 0 <= r < 128 -> IsNumber U r = ascii_digit r;
  ascii_IsUpper : forall r, 0 <= r < 128 -> IsUpper U r = ascii_upper r;
  ascii_ToLower : forall r, 0 <= r < 128 ->
    ToLower U r = if ascii_upper r then r + 32 else r;
  ascii_ToTitle : forall r, 0 <= r < 128 ->
    ToTitle U r = if ascii_lower r then r - 32 else r;
  error_IsLetter : IsLetter U utf8.RuneError = false;
  error_IsNumber : IsNumber U utf8.RuneError = false;
  error_IsUpper : IsUpper U utf8.RuneError = false;
  error_ToLower : ToLower U utf8.RuneError = utf8.RuneError;
  number_not_space : forall r, IsNumber U r = true -> IsSpace U r = false;
  ToTitle_nonneg : forall r, 0 <= r -> 0 <= ToTitle U r
}.

(** The tables restricted to Latin-1: the values of Go's tables on the
    runes up to U+00FF; every other rune is given no class and no case.
    They serve to run the functions on ASCII and Latin-1 inputs. *)
Definition Latin1 : Tables := {|
  IsLetter r :=
    ascii_letter r || (r =? 0xAA) || (r =? 0xB5) || (r =? 0xBA)
    || between 0xC0 0xD6 r || between 0xD8 0xF6 r || between 0xF8 0xFF r;
  IsNumber r :=
    ascii_digit r || (r =? 0xB2) || (r =? 0xB3) || (r =? 0xB9)
    || between 0xBC 0xBE r;
  IsDigit r := ascii_digit r;
  IsSpace r := between 9 13 r || (r =? 32) || (r =? 0x85) || (r =? 0xA0);
  IsUpper r := ascii_upper r || between 0xC0 0xD6 r || between 0xD8 0xDE r;
  ToLower r :=
    if ascii_upper r || between 0xC0 0xD6 r || between 0xD8 0xDE r
    then r + 32 else r;
  ToTitle r :=
    if ascii_lower r || between 0xE0 0xF6 r || between 0xF8 0xFE r
    then r - 32
    else if r =? 0xB5 then 0x39C
    else if r =? 0xFF then 0x178
    else r
|}.

End unicode.

(** ** The heap of mutable objects *)

(** The objects the code allocates and mutates in place: the buffer of a
    [strings.Builder] or the backing array of a [[]byte], and the backing
    array of a [[]string]. *)
Inductive object : Type :=
| Bytes (bs : list byte)
| Strings (ws : list gostring).

Abbreviation heap := (list object).
Definition addr := nat.

(** The outcome of running a piece of Go code from a heap. *)
Inductive result (A : Type) : Type :=
| Done (a : A) (h : heap)
| Panic
| OutOfFuel.
Arguments Done {A} a h.
Arguments Panic {A}.
Arguments OutOfFuel {A}.

Definition M (A : Type) : Type := heap -> result A.

#[global] Instance M_ret : MRet M := fun A a h => Done a h.
#[global] Instance M_bind : MBind M := fun A B f m h =>
  match m h with
  | Done a h' => f a h'
  | Panic => Panic
  | OutOfFuel => OutOfFuel
  end.

Definition panic {A} : M A := fun _ => Panic.
Definition out_of_fuel {A} : M A := fun _ => OutOfFuel.

Definition alloc (o : object) : M addr :=
  fun h => Done (length h) (h ++ [o]).

Definition load (a : addr) : M object :=
  fun h => match h !! a with Some o => Done o h | None => Panic end.

Definition store (a : addr) (o : object) : M unit :=
  fun h => if (a <? length h)%nat then Done tt (<[a := o]> h) else Panic.

(** [for _, x := range l { body }] over values already read. *)
Fixpoint for_each {X} (l : list X) (body : X -> M unit) : M unit :=
  match l with
  | [] => mret tt
  | x :: l' => body x ;; for_each l' body
  end.

(** [for i := lo; i < hi; i++ { body }] with the bound read at entry;
    the bodies below never change the length they are bounded by. *)
Definition for_range (lo hi : nat) (body : nat -> M unit) : M unit :=
  for_each (seq lo (hi - lo)) body.

(** ** Package [strings] *)

Module strings.
Section WithTables.
Context (U : unicode.Tables).

(** The loop of [strings.Map] over the runes of its argument.  The
    mapping is a closure, so it carries a state [st]; [started] tells
    whether the output buffer has been set up.  Until a rune changes,
    the source bytes are kept as they are, except that an invalid byte
    always starts the buffer; from then on every mapped rune is written
    with [WriteRune], and a negative one is dropped. *)
Fixpoint Map_loop {S : Type} (mapping : S -> rune -> rune * S) (st : S)
    (started : bool) (cs : list utf8.chunk) : gostring :=
  match cs with
  | [] => []
  | (c, bs) :: cs' =>
    let '(r, st') := mapping st c in
    if negb started && (r =? c) && negb (utf8.invalid (c, bs)) then
      bs ++ Map_loop mapping st' false cs'
    else
      (if 0 <=? r then utf8.EncodeRune r else [])
        ++ Map_loop mapping st' true cs'
  end.

Definition Map (mapping : rune -> rune) (s : gostring) : gostring :=
  Map_loop (fun (_ : unit) c => (mapping c, tt)) tt false (utf8.chunks s).

(** [strings.ToLower]: bytes are handled one by one when the string is
    all ASCII, runes through [Map] otherwise. *)
Definition ToLower (s : gostring) : gostring :=
  if forallb (fun c => byte_val c <? utf8.RuneSelf) s then
    map (fun c => if unicode.between 65 90 (byte_val c)
                  then byte_of (byte_val c + 32) else c) s
  else Map (unicode.ToLower U) s.

(** [strings.isSeparator]. *)
Definition isSeparator (r : rune) : bool :=
  if r <=? 0x7F then
    if unicode.between 48 57 r then false
    else if unicode.between 97 122 r then false
    else if unicode.between 65 90 r then false
    else if r =? 95 then false
    else true
  else if unicode.IsLetter U r || unicode.IsDigit U r then false
  else unicode.IsSpace U r.

(** [strings.Title]: the closure given to [Map] remembers the previous
    rune in [prev], a space at first. *)
Definition Title (s : gostring) : gostring :=
  Map_loop (fun (prev : rune) r =>
              if isSeparator prev then (unicode.ToTitle U r, r) else (r, r))
           32 false (utf8.chunks s).

(** The loop of [strings.FieldsFunc]: [cur] holds the bytes of the field
    being read, empty when no field is open (a field is never empty). *)
Fixpoint fields_loop (f : rune -> bool) (cur : gostring)
    (cs : list utf8.chunk) : list gostring :=
  match cs with
  | [] => match cur with [] => [] | _ :: _ => [cur] end
  | (c, bs) :: cs' =>
    if f c then
      match cur with
      | [] => fields_loop f [] cs'
      | _ :: _ => cur :: fields_loop f [] cs'
      end
    else fields_loop f (cur ++ bs) cs'
  end.

(** The fields [strings.FieldsFunc] finds: the maximal runs of runes
    that do not satisfy [f]. *)
Definition fields (s : gostring) (f : rune -> bool) : list gostring :=
  fields_loop f [] (utf8.chunks s).

(** [strings.FieldsFunc] returns the fields in a new [[]string]. *)
Definition FieldsFunc (s : gostring) (f : rune -> bool) : M addr :=
  alloc (Strings (fields s f)).

(** [strings.Join] over values. *)
Fixpoint join (elems : list gostring) (sep : gostring) : gostring :=
  match elems with
  | [] => []
  | e :: es =>
    match es with
    | [] => e
    | _ :: _ => e ++ sep ++ join es sep
    end
  end.

(** Reading and writing a [[]string] held in the heap. *)
Definition len (words : addr) : M nat :=
  o ← load words;
  match o with Strings ws => mret (length ws) | Bytes _ => panic end.

Definition index (words : addr) (i : nat) : M gostring :=
  o ← load words;
  match o with
  | Strings ws => match ws !! i with Some w => mret w | None => panic end
  | Bytes _ => panic
  end.

Definition set_index (words : addr) (i : nat) (w : gostring) : M unit :=
  o ← load words;
  match o with
  | Strings ws =>
    if (i <? length ws)%nat then store words (Strings (<[i := w]> ws))
    else panic
  | Bytes _ => panic
  end.

Definition Join (words : addr) (sep : gostring) : M gostring :=
  o ← load words;
  match o with Strings ws => mret (join ws sep) | Bytes _ => panic end.

(** [strings.Builder]: a buffer in the heap. *)
Definition NewBuilder : M addr := alloc (Bytes []).

Definition WriteRune (b : addr) (r : rune) : M unit :=
  o ← load b;
  match o with
  | Bytes buf => store b (Bytes (buf ++ utf8.EncodeRune r))
  | Strings _ => panic
  end.

Definition String (b : addr) : M gostring :=
  o ← load b;
  match o with Bytes buf => mret buf | Strings _ => panic end.

End WithTables.
End strings.

(** ** [namefuncs.go] *)

Section NameFuncs.
Context (U : unicode.Tables).

(** The separator test both splitting functions pass to [FieldsFunc]. *)
Definition notLetterOrNumber (r : rune) : bool :=
  negb (unicode.IsLetter U r) && negb (unicode.IsNumber U r).

Definition ToCamelCase (s : gostring) : M gostring :=
  words ← strings.FieldsFunc s notLetterOrNumber;
  n ← strings.len words;
  if (n =? 0)%nat then mret []
  else
    w0 ← strings.index words 0;
    (if (0 <? length w0)%nat then
       strings.set_index words 0 (strings.ToLower U (take 1 w0) ++ drop 1 w0)
     else mret tt);;
    n ← strings.len words;
    for_range 1 n (fun i =>
      w ← strings.index words i;
      strings.set_index words i (strings.Title U w));;
    strings.Join words [].

Definition ToPascalCase (s : gostring) : M gostring :=
  words ← strings.FieldsFunc s notLetterOrNumber;
  n ← strings.len words;
  for_range 0 n (fun i =>
    word ← strings.index words i;
    strings.set_index words i (strings.Title U word));;
  strings.Join words [].

Definition ToSnakeCase (s : gostring) : M gostring :=
  builder ← strings.NewBuilder;
  for_each (utf8.range s) (fun '(i, char) =>
    if unicode.IsUpper U char then
      (if negb (i =? 0)%nat then strings.WriteRune builder 95 else mret tt);;
      strings.WriteRune builder (unicode.ToLower U char)
    else strings.WriteRune builder char);;
  strings.String builder.

End NameFuncs.

(** Running a call from the empty heap, for its value. *)
Definition run {A} (m : M A) : option A :=
  match m [] with Done a _ => Some a | _ => None end.

Example ToCamelCase_test1 :
  run (ToCamelCase unicode.Latin1 (str "my_variable_name")) = Some (str "myVariableName").
Proof. vm_compute. reflexivity. Qed.
Example ToCamelCase_test2 :
  run (ToCamelCase unicode.Latin1 (str "MyVariableName")) = Some (str "myVariableName").
Proof. vm_compute. reflexivity. Qed.
Example ToPascalCase_test1 :
  run (ToPascalCase unicode.Latin1 (str "my_variable_name")) = Some (str "MyVariableName").
Proof. vm_compute. reflexivity. Qed.
Example ToSnakeCase_test1 :
  run (ToSnakeCase unicode.Latin1 (str "myVariableName")) = Some (str "my_variable_name").
Proof. vm_compute. reflexivity. Qed.
Example ToSnakeCase_test2 :
  run (ToSnakeCase unicode.Latin1 (str "MyVariableName")) = Some (str "my_variable_name").
Proof. vm_compute. reflexivity. Qed.
Example ToCamelCase_test3 :
  run (ToCamelCase unicode.Latin1 [xc3; x89; x61]) = Some [xef; xbf; xbd; x89; x61].
Proof. vm_compute. reflexivity. Qed.
Example ToPascalCase_test3 :
  run (ToPascalCase unicode.Latin1 [x61; xc3; xa9; x20; xc3; xa9; x61]) = Some [x41; xc3; xa9; xc3; x89; x61].
Proof. vm_compute. reflexivity. Qed.

(** ** Package [wire] *)

(** Modelled from the spec: [wire.ConsumeField] and the consumers it
    calls (package [internal/encoding/wire]) are not among the sources.
    The spec describes a wire record as a self-describing unit, a tag
    that encodes the field number and the wire type of the payload,
    followed by that payload, and a consumption step that either
    determines the boundary of the record or fails.  The definitions
    below follow the protocol-buffer wire encoding the spec refers to:
    a tag is a base-128 varint holding [number << 3 | type]; the payload
    is a varint (type 0), eight bytes (type 1), a varint length and that
    many bytes (type 2), the fields up to the matching end-group tag
    (type 3), or four bytes (type 5).  A consumer returns the number of
    bytes it consumed, or a negative error code. *)
Module wire.

Definition VarintType : Z := 0.
Definition Fixed32Type : Z := 5.
Definition Fixed64Type : Z := 1.
Definition BytesType : Z := 2.
Definition StartGroupType : Z := 3.
Definition EndGroupType : Z := 4.

Definition errCodeTruncated : Z := -1.
Definition errCodeFieldNumber : Z := -2.
Definition errCodeOverflow : Z := -3.
Definition errCodeReserved : Z := -4.
Definition errCodeEndGroup : Z := -5.

Definition MinValidNumber : Z := 1.
Definition MaxInt32 : Z := 0x7FFFFFFF.

(** The loop of [ConsumeVarint], reading the byte of index [i]: seven
    bits per byte, least significant group first, at most ten bytes,
    the tenth holding one bit. *)
Fixpoint varint_at (i : nat) (v : Z) (b : list byte) : Z * Z :=
  match b with
  | [] => (0, errCodeTruncated)
  | c :: b' =>
    let y := byte_val c in
    if (i =? 9)%nat then
      if y <? 2 then (v + Z.shiftl y 63, 10) else (0, errCodeOverflow)
    else if y <? 0x80 then (v + Z.shiftl y (7 * Z.of_nat i), Z.of_nat i + 1)
    else varint_at (S i) (v + Z.shiftl (y - 0x80) (7 * Z.of_nat i)) b'
  end.

Definition ConsumeVarint (b : list byte) : Z * Z := varint_at 0 0 b.

Definition DecodeTag (x : Z) : Z * Z :=
  if MaxInt32 <? Z.shiftr x 3 then (-1, 0)
  else (Z.shiftr x 3, Z.land x 7).

Definition ConsumeTag (b : list byte) : Z * Z * Z :=
  let '(v, n) := ConsumeVarint b in
  if n <? 0 then (0, 0, n)
  else
    let '(num, typ) := DecodeTag v in
    if num <? MinValidNumber then (0, 0, errCodeFieldNumber)
    else (num, typ, n).

Definition ConsumeFixed32 (b : list byte) : Z :=
  if (length b <? 4)%nat then errCodeTruncated else 4.

Definition ConsumeFixed64 (b : list byte) : Z :=
  if (length b <? 8)%nat then errCodeTruncated else 8.

Definition ConsumeBytes (b : list byte) : Z :=
  let '(m, n) := ConsumeVarint b in
  if n <? 0 then n
  else if Z.of_nat (length (drop (Z.to_nat n) b)) <? m then errCodeTruncated
  else n + m.

(** [ConsumeFieldValue] and the loop of its group case.  Every turn of
    the loop consumes a tag, so the recursion is bounded by the length
    of the input; [fuel] counts the turns still allowed. *)
Fixpoint ConsumeFieldValue_fuel (fuel : nat) (num typ : Z) (b : list byte)
    {struct fuel} : Z :=
  if typ =? VarintType then snd (ConsumeVarint b)
  else if typ =? Fixed32Type then ConsumeFixed32 b
  else if typ =? Fixed64Type then ConsumeFixed64 b
  else if typ =? BytesType then ConsumeBytes b
  else if typ =? StartGroupType then
    match fuel with
    | O => errCodeTruncated
    | S fuel' => ConsumeGroup_fuel fuel' num b
    end
  else if typ =? EndGroupType then errCodeEndGroup
  else errCodeReserved
with ConsumeGroup_fuel (fuel : nat) (num : Z) (b : list byte)
    {struct fuel} : Z :=
  let '(num2, typ2, n) := ConsumeTag b in
  if n <? 0 then n
  else
    let b1 := drop (Z.to_nat n) b in
    if typ2 =? EndGroupType then
      if negb (num =? num2) then errCodeEndGroup else n
    else
      match fuel with
      | O => errCodeTruncated
      | S fuel' =>
        let m := ConsumeFieldValue_fuel fuel' num2 typ2 b1 in
        if m <? 0 then m
        else
          let k := ConsumeGroup_fuel fuel' num (drop (Z.to_nat m) b1) in
          if k <? 0 then k else n + m + k
      end.

Definition ConsumeFieldValue (num typ : Z) (b : list byte) : Z :=
  ConsumeFieldValue_fuel (S (length b)) num typ b.

(** [ConsumeField]: the field number, the wire type and the length of
    the first record of [b], the length negative on an error. *)
Definition ConsumeField (b : list byte) : Z * Z * Z :=
  let '(num, typ, n) := ConsumeTag b in
  if n <? 0 then (0, 0, n)
  else
    let m := ConsumeFieldValue num typ (drop (Z.to_nat n) b) in
    if m <? 0 then (0, 0, m)
    else (num, typ, n + m).

End wire.

(** ** [RawFields] *)

(** A [[]byte] value: a window on a byte array of the heap. *)
Record slice : Type := { array : addr; low : nat; high : nat }.

Definition RawFields := slice.

Definition slice_len (b : slice) : nat := high b - low b.

(** The bytes a slice shows. *)
Definition contents (b : slice) : M (list byte) :=
  o ← load (array b);
  match o with
  | Bytes arr =>
    if (high b <=? length arr)%nat then
      mret (take (slice_len b) (drop (low b) arr))
    else panic
  | Strings _ => panic
  end.

(** [b[n:]], which panics unless [0 <= n <= len(b)]. *)
Definition reslice (b : slice) (n : Z) : M slice :=
  if (0 <=? n) && (n <=? Z.of_nat (slice_len b)) then
    mret {| array := array b; low := low b + Z.to_nat n; high := high b |}
  else panic.

(** [RawFields.IsValid]; the loop of the source has no bound, [fuel] is
    the number of turns the model allows it. *)
Fixpoint IsValid (fuel : nat) (b : RawFields) : M bool :=
  match fuel with
  | O => out_of_fuel
  | S fuel' =>
    if (0 <? slice_len b)%nat then
      bs ← contents b;
      let '(_, _, n) := wire.ConsumeField bs in
      if n <? 0 then mret false
      else
        b' ← reslice b n;
        IsValid fuel' b'
    else mret true
  end.

(** * Properties *)

(** ** The heap monad *)

(** [returns m a]: from every heap the call [m] ends normally with value
    [a], and the heap it leaves is the one it started from followed by
    the objects it allocated. *)
Definition returns {A} (m : M A) (a : A) : Prop :=
  forall h, exists h', m h = Done a (h ++ h').

Lemma bind_Done {A B} (m : M A) (f : A -> M B) h a h' :
  m h = Done a h' -> (m ≫= f) h = f a h'.
Proof. intros E. unfold mbind, M_bind. now rewrite E. Qed.

Lemma mret_Done {A} (a : A) (h : heap) : (mret a : M A) h = Done a h.
Proof. reflexivity. Qed.

Lemma load_app_new (h : heap) (o : object) :
  load (length h) (h ++ [o]) = Done o (h ++ [o]).
Proof.
  unfold load. rewrite lookup_app_r by lia.
  now rewrite Nat.sub_diag.
Qed.

Lemma store_app_new (h : heap) (o o' : object) :
  store (length h) o' (h ++ [o]) = Done tt (h ++ [o']).
Proof.
  unfold store. rewrite length_app. simpl.
  destruct (Nat.ltb_spec (length h) (length h + 1)); [|lia].
  f_equal. rewrite insert_app_r_alt by lia.
  now rewrite Nat.sub_diag.
Qed.

Lemma returns_run {A} (m : M A) (a : A) : returns m a -> run m = Some a.
Proof.
  intros H. destruct (H []) as [h' E]. unfold run. now rewrite E.
Qed.

Lemma returns_bind {A B} (m : M A) (f : A -> M B) a b :
  returns m a -> returns (f a) b -> returns (m ≫= f) b.
Proof.
  intros Hm Hf h. destruct (Hm h) as [h1 E1].
  destruct (Hf (h ++ h1)) as [h2 E2].
  exists (h1 ++ h2). rewrite (bind_Done _ _ _ _ _ E1), E2.
  now rewrite app_assoc.
Qed.
Lemma byte_val_range (b : byte) : 0 <= byte_val b < 256.
Proof.
  unfold byte_val. pose proof (Byte.to_N_bounded b). lia.
Qed.

Lemma byte_of_val (b : byte) : byte_of (byte_val b) = b.
Proof.
  unfold byte_of. pose proof (byte_val_range b) as Hb.
  rewrite Z.mod_small by lia. unfold byte_val.
  rewrite N2Z.id, Byte.of_to_N. reflexivity.
Qed.

Lemma byte_val_of (z : Z) : 0 <= z < 256 -> byte_val (byte_of z) = z.
Proof.
  intros Hz. unfold byte_of, byte_val. rewrite Z.mod_small by lia.
  destruct (Byte.of_N (Z.to_N z)) as [b|] eqn:E.
  - simpl. apply Byte.to_of_N in E. lia.
  - apply Byte.of_N_None_iff in E. lia.
Qed.

Lemma byte_val_inj (a b : byte) : byte_val a = byte_val b -> a = b.
Proof.
  intros H. rewrite <- (byte_of_val a), <- (byte_of_val b). now rewrite H.
Qed.

(** ** UTF-8: decoding and encoding *)

Section Utf8Facts.
Import utf8.

Lemma lor_disjoint (k a b : Z) :
  0 <= k -> 0 <= b < 2 ^ k -> a mod 2 ^ k = 0 -> Z.lor a b = a + b.
Proof.
  intros Hk Hb Ha. symmetry. apply Z.add_nocarry_lor.
  apply Z.bits_inj'. intros n Hn.
  rewrite Z.land_spec, Z.bits_0.
  destruct (Z.lt_ge_cases n k) as [Hlt|Hge].
  - rewrite <- (Z.mod_pow2_bits_low a k n) by lia.
    rewrite Ha, Z.bits_0. reflexivity.
  - rewrite <- (Z.mod_small b (2 ^ k)) by lia.
    rewrite Z.mod_pow2_bits_high by lia. apply andb_false_r.
Qed.

Lemma land_maskx (x : Z) : Z.land x maskx = x mod 64.
Proof. change maskx with (Z.ones 6). now rewrite Z.land_ones by lia. Qed.

Lemma land_mask2 (x : Z) : Z.land x mask2 = x mod 32.
Proof. change mask2 with (Z.ones 5). now rewrite Z.land_ones by lia. Qed.

Lemma land_mask3 (x : Z) : Z.land x mask3 = x mod 16.
Proof. change mask3 with (Z.ones 4). now rewrite Z.land_ones by lia. Qed.

Lemma land_mask4 (x : Z) : Z.land x mask4 = x mod 8.
Proof. change mask4 with (Z.ones 3). now rewrite Z.land_ones by lia. Qed.

Ltac euclid := Z.to_euclidean_division_equations; lia.

Lemma decode2_value (s0 s1 : Z) :
  Z.lor (Z.shiftl (Z.land s0 mask2) 6) (Z.land s1 maskx)
  = (s0 mod 32) * 64 + s1 mod 64.
Proof.
  rewrite land_mask2, land_maskx, Z.shiftl_mul_pow2 by lia.
  change (2 ^ 6) with 64.
  apply (lor_disjoint 6); [lia | change (2 ^ 6) with 64; euclid ..].
Qed.

Lemma decode3_value (s0 s1 s2 : Z) :
  Z.lor (Z.lor (Z.shiftl (Z.land s0 mask3) 12)
               (Z.shiftl (Z.land s1 maskx) 6))
        (Z.land s2 maskx)
  = (s0 mod 16) * 4096 + (s1 mod 64) * 64 + s2 mod 64.
Proof.
  rewrite land_mask3, !land_maskx, !Z.shiftl_mul_pow2 by lia.
  change (2 ^ 6) with 64. change (2 ^ 12) with 4096.
  rewrite (lor_disjoint 12 (s0 mod 16 * 4096) (s1 mod 64 * 64));
    [| lia | change (2 ^ 12) with 4096; euclid ..].
  apply (lor_disjoint 6); [lia | change (2 ^ 6) with 64; euclid ..].
Qed.

Lemma decode4_value (s0 s1 s2 s3 : Z) :
  Z.lor (Z.lor (Z.lor (Z.shiftl (Z.land s0 mask4) 18)
                      (Z.shiftl (Z.land s1 maskx) 12))
               (Z.shiftl (Z.land s2 maskx) 6))
        (Z.land s3 maskx)
  = (s0 mod 8) * 262144 + (s1 mod 64) * 4096 + (s2 mod 64) * 64 + s3 mod 64.
Proof.
  rewrite land_mask4, !land_maskx, !Z.shiftl_mul_pow2 by lia.
  change (2 ^ 6) with 64. change (2 ^ 12) with 4096.
  change (2 ^ 18) with 262144.
  rewrite (lor_disjoint 18 (s0 mod 8 * 262144) (s1 mod 64 * 4096));
    [| lia | change (2 ^ 18) with 262144; euclid ..].
  rewrite (lor_disjoint 12 _ (s2 mod 64 * 64));
    [| lia | change (2 ^ 12) with 4096; euclid ..].
  apply (lor_disjoint 6); [lia | change (2 ^ 6) with 64; euclid ..].
Qed.

Lemma lor_cont (x : Z) : Z.lor 0x80 (Z.land x maskx) = 128 + x mod 64.
Proof.
  rewrite land_maskx.
  apply (lor_disjoint 6); [lia | change (2 ^ 6) with 64; euclid | reflexivity].
Qed.

Lemma lor_lead2 (x : Z) : 0 <= x < 32 -> Z.lor 0xC0 x = 192 + x.
Proof. intros. apply (lor_disjoint 5); [lia | simpl; lia | reflexivity]. Qed.

Lemma lor_lead3 (x : Z) : 0 <= x < 16 -> Z.lor 0xE0 x = 224 + x.
Proof. intros. apply (lor_disjoint 4); [lia | simpl; lia | reflexivity]. Qed.

Lemma lor_lead4 (x : Z) : 0 <= x < 8 -> Z.lor 0xF0 x = 240 + x.
Proof. intros. apply (lor_disjoint 3); [lia | simpl; lia | reflexivity]. Qed.


Lemma first_Some (s0 : Z) (sz : nat) (lo hi : Z) :
  first s0 = Some (sz, lo, hi) ->
  (sz = 2%nat /\ 0xC2 <= s0 <= 0xDF /\ lo = 0x80 /\ hi = 0xBF)
  \/ (sz = 3%nat /\ 0xE0 <= s0 <= 0xEF /\ 0x80 <= lo /\ hi <= 0xBF
      /\ (s0 = 0xE0 -> lo = 0xA0) /\ (s0 = 0xED -> hi = 0x9F))
  \/ (sz = 4%nat /\ 0xF0 <= s0 <= 0xF4 /\ 0x80 <= lo /\ hi <= 0xBF
      /\ (s0 = 0xF0 -> lo = 0x90) /\ (s0 = 0xF4 -> hi = 0x8F)).
Proof.
  unfold first, locb, hicb.
  repeat match goal with
  | |- context [if ?c then _ else _] => destruct c eqn:?
  end; intros [= <- <- <-]; lia.
Qed.

(** The shapes of a decoded rune. *)
Inductive decoded : gostring -> rune -> nat -> Prop :=
| dec_empty : decoded [] RuneError 0
| dec_ascii b0 p :
    byte_val b0 < 128 -> decoded (b0 :: p) (byte_val b0) 1
| dec_invalid b0 p :
    128 <= byte_val b0 -> decoded (b0 :: p) RuneError 1
| dec_two b0 b1 p :
    0xC2 <= byte_val b0 <= 0xDF -> 0x80 <= byte_val b1 <= 0xBF ->
    decoded (b0 :: b1 :: p)
            ((byte_val b0 mod 32) * 64 + byte_val b1 mod 64) 2
| dec_three b0 b1 b2 p :
    0xE0 <= byte_val b0 <= 0xEF -> 0x80 <= byte_val b1 <= 0xBF ->
    (byte_val b0 = 0xE0 -> 0xA0 <= byte_val b1) ->
    (byte_val b0 = 0xED -> byte_val b1 <= 0x9F) ->
    0x80 <= byte_val b2 <= 0xBF ->
    decoded (b0 :: b1 :: b2 :: p)
            ((byte_val b0 mod 16) * 4096 + (byte_val b1 mod 64) * 64
             + byte_val b2 mod 64) 3
| dec_four b0 b1 b2 b3 p :
    0xF0 <= byte_val b0 <= 0xF4 -> 0x80 <= byte_val b1 <= 0xBF ->
    (byte_val b0 = 0xF0 -> 0x90 <= byte_val b1) ->
    (byte_val b0 = 0xF4 -> byte_val b1 <= 0x8F) ->
    0x80 <= byte_val b2 <= 0xBF -> 0x80 <= byte_val b3 <= 0xBF ->
    decoded (b0 :: b1 :: b2 :: b3 :: p)
            ((byte_val b0 mod 8) * 262144 + (byte_val b1 mod 64) * 4096
             + (byte_val b2 mod 64) * 64 + byte_val b3 mod 64) 4.

Lemma DecodeRune_decoded (p : gostring) :
  decoded p (DecodeRune p).1 (DecodeRune p).2.
Proof.
  destruct p as [|b0 p]; [constructor|].
  unfold DecodeRune. pose proof (byte_val_range b0) as H0.
  unfold RuneSelf.
  destruct (Z.ltb_spec (byte_val b0) 128); [now constructor|].
  destruct (first (byte_val b0)) as [[[sz lo] hi]|] eqn:F;
    [|now constructor].
  apply first_Some in F.
  destruct p as [|b1 p]; [now constructor|].
  destruct (Z.ltb_spec (byte_val b1) lo); [now constructor|].
  destruct (Z.ltb_spec hi (byte_val b1)); [now constructor|]. cbn [orb].
  destruct F as [(-> & ? & -> & ->)|[(-> & ? & ? & ? & ? & ?)|(-> & ? & ? & ? & ? & ?)]].
  - change (2 <=? 2)%nat with true. cbn [fst snd].
    rewrite decode2_value. constructor; lia.
  - change (3 <=? 2)%nat with false.
    destruct p as [|b2 p]; [now constructor|]. unfold locb, hicb.
    destruct (Z.ltb_spec (byte_val b2) 128); [now constructor|].
    destruct (Z.ltb_spec 191 (byte_val b2)); [now constructor|]. cbn [orb].
    change (3 <=? 3)%nat with true. cbn [fst snd].
    rewrite decode3_value. constructor; lia.
  - change (4 <=? 2)%nat with false.
    destruct p as [|b2 p]; [now constructor|]. unfold locb, hicb.
    destruct (Z.ltb_spec (byte_val b2) 128); [now constructor|].
    destruct (Z.ltb_spec 191 (byte_val b2)); [now constructor|]. cbn [orb].
    change (4 <=? 3)%nat with false.
    destruct p as [|b3 p]; [now constructor|].
    destruct (Z.ltb_spec (byte_val b3) 128); [now constructor|].
    destruct (Z.ltb_spec 191 (byte_val b3)); [now constructor|]. cbn [orb].
    cbn [fst snd].
    rewrite decode4_value. constructor; lia.
Qed.


Lemma byte_of_eq (z : Z) (b : byte) : z = byte_val b -> byte_of z = b.
Proof. intros ->. apply byte_of_val. Qed.

Lemma DecodeRune_pair (p : gostring) :
  DecodeRune p = ((DecodeRune p).1, (DecodeRune p).2).
Proof. now destruct (DecodeRune p). Qed.

Lemma decoded_width (p : gostring) (r : rune) (w : nat) :
  decoded p r w -> p <> [] -> (1 <= w <= length p)%nat.
Proof. destruct 1; intros Hp; try congruence; cbn [length]; lia. Qed.

Lemma decoded_nonneg (p : gostring) (r : rune) (w : nat) :
  decoded p r w -> 0 <= r.
Proof.
  destruct 1; unfold RuneError; try lia.
  - pose proof (byte_val_range b0). lia.
  - euclid.
  - euclid.
  - euclid.
Qed.

Lemma DecodeRune_ascii (b0 : byte) (t : gostring) :
  byte_val b0 < 128 -> DecodeRune (b0 :: t) = (byte_val b0, 1%nat).
Proof.
  intros H. unfold DecodeRune, RuneSelf.
  now destruct (Z.ltb_spec (byte_val b0) 128); [|lia].
Qed.

Ltac decide_ifs :=
  repeat match goal with
  | |- context [if ?a <? ?b then _ else _] =>
      destruct (Z.ltb_spec a b); try lia
  | |- context [if ?a <=? ?b then _ else _] =>
      destruct (Z.leb_spec a b); try lia
  | |- context [if ?a =? ?b then _ else _] =>
      destruct (Z.eqb_spec a b); try lia
  | |- context [(?a <? ?b) || _] =>
      destruct (Z.ltb_spec a b); try lia; cbn [orb]
  end.

Lemma DecodeRune_two (b0 b1 : byte) (t : gostring) :
  0xC2 <= byte_val b0 <= 0xDF -> 0x80 <= byte_val b1 <= 0xBF ->
  DecodeRune (b0 :: b1 :: t)
  = ((byte_val b0 mod 32) * 64 + byte_val b1 mod 64, 2%nat).
Proof.
  intros H0 H1. unfold DecodeRune, RuneSelf, first, locb, hicb.
  decide_ifs. cbn. now rewrite decode2_value.
Qed.

Lemma DecodeRune_three (b0 b1 b2 : byte) (t : gostring) :
  0xE0 <= byte_val b0 <= 0xEF -> 0x80 <= byte_val b1 <= 0xBF ->
  (byte_val b0 = 0xE0 -> 0xA0 <= byte_val b1) ->
  (byte_val b0 = 0xED -> byte_val b1 <= 0x9F) ->
  0x80 <= byte_val b2 <= 0xBF ->
  DecodeRune (b0 :: b1 :: b2 :: t)
  = ((byte_val b0 mod 16) * 4096 + (byte_val b1 mod 64) * 64
     + byte_val b2 mod 64, 3%nat).
Proof.
  intros H0 H1 Ha Hb H2. unfold DecodeRune, RuneSelf, first, locb, hicb.
  decide_ifs; cbn; decide_ifs; now rewrite decode3_value.
Qed.

Lemma DecodeRune_four (b0 b1 b2 b3 : byte) (t : gostring) :
  0xF0 <= byte_val b0 <= 0xF4 -> 0x80 <= byte_val b1 <= 0xBF ->
  (byte_val b0 = 0xF0 -> 0x90 <= byte_val b1) ->
  (byte_val b0 = 0xF4 -> byte_val b1 <= 0x8F) ->
  0x80 <= byte_val b2 <= 0xBF -> 0x80 <= byte_val b3 <= 0xBF ->
  DecodeRune (b0 :: b1 :: b2 :: b3 :: t)
  = ((byte_val b0 mod 8) * 262144 + (byte_val b1 mod 64) * 4096
     + (byte_val b2 mod 64) * 64 + byte_val b3 mod 64, 4%nat).
Proof.
  intros H0 H1 Ha Hb H2 H3. unfold DecodeRune, RuneSelf, first, locb, hicb.
  decide_ifs; cbn; decide_ifs; now rewrite decode4_value.
Qed.

(** A rune read from a well-formed sequence is read again from those
    bytes whatever follows them. *)
Lemma decoded_local (p : gostring) (r : rune) (w : nat) (t : gostring) :
  decoded p r w -> invalid (r, take w p) = false ->
  DecodeRune (take w p ++ t) = (r, w).
Proof.
  destruct 1; cbn [take app]; intros Hv.
  - discriminate Hv.
  - now apply DecodeRune_ascii.
  - discriminate Hv.
  - now apply DecodeRune_two.
  - now apply DecodeRune_three.
  - now apply DecodeRune_four.
Qed.


Lemma shiftr_div (x n : Z) : 0 <= n -> Z.shiftr x n = x / 2 ^ n.
Proof. intros. now apply Z.shiftr_div_pow2. Qed.

(** Writing back a rune read from a well-formed sequence gives the
    bytes it was read from. *)
Lemma decoded_encode (p : gostring) (r : rune) (w : nat) :
  decoded p r w -> invalid (r, take w p) = false ->
  EncodeRune r = take w p.
Proof.
  destruct 1; cbn [take]; intros Hv; try discriminate Hv; clear Hv;
    repeat match goal with
    | b : byte |- _ =>
        lazymatch goal with
        | _ : 0 <= byte_val b < 256 |- _ => fail
        | _ => pose proof (byte_val_range b)
        end
    end.
  - unfold EncodeRune.
    destruct (Z.leb_spec 0 (byte_val b0)); [|lia].
    destruct (Z.leb_spec (byte_val b0) 127); [|lia].
    cbn. now rewrite byte_of_val.
  - set (r := byte_val b0 mod 32 * 64 + byte_val b1 mod 64).
    assert (Hr : 128 <= r <= 2047) by (subst r; euclid).
    unfold EncodeRune.
    destruct (Z.leb_spec 0 r); [|lia].
    destruct (Z.leb_spec r 127); [lia|].
    destruct (Z.leb_spec r 2047); [|lia]. cbn [andb].
    rewrite lor_cont, shiftr_div by lia. change (2 ^ 6) with 64.
    rewrite lor_lead2 by euclid.
    f_equal; [|f_equal]; apply byte_of_eq; subst r; euclid.
  - set (r := byte_val b0 mod 16 * 4096 + byte_val b1 mod 64 * 64
              + byte_val b2 mod 64).
    assert (Hr : 2048 <= r <= 65535
                 /\ ~ (55296 <= r <= 57343)) by (subst r; euclid).
    unfold EncodeRune, MaxRune, surrogateMin, surrogateMax.
    destruct (Z.leb_spec 0 r); [|lia].
    destruct (Z.leb_spec r 127); [lia|].
    destruct (Z.leb_spec r 2047); [lia|]. cbn [andb].
    destruct (Z.ltb_spec r 0); [lia|].
    destruct (Z.ltb_spec 1114111 r); [lia|]. cbn [orb].
    destruct (Z.leb_spec r 65535); [|lia].
    assert (Hs : (55296 <=? r) && (r <=? 57343) = false).
    { destruct (Z.leb_spec 55296 r), (Z.leb_spec r 57343);
        cbn; try reflexivity; lia. }
    rewrite Hs. rewrite !lor_cont, !shiftr_div by lia.
    change (2 ^ 6) with 64. change (2 ^ 12) with 4096.
    rewrite lor_lead3 by euclid.
    f_equal; [|f_equal; [|f_equal]]; apply byte_of_eq; subst r; euclid.
  - set (r := byte_val b0 mod 8 * 262144 + byte_val b1 mod 64 * 4096
              + byte_val b2 mod 64 * 64 + byte_val b3 mod 64).
    assert (Hr : 65536 <= r <= 1114111) by (subst r; euclid).
    unfold EncodeRune, MaxRune, surrogateMin, surrogateMax.
    destruct (Z.leb_spec 0 r); [|lia].
    destruct (Z.leb_spec r 127); [lia|].
    destruct (Z.leb_spec r 2047); [lia|]. cbn [andb].
    destruct (Z.ltb_spec r 0); [lia|].
    destruct (Z.ltb_spec 1114111 r); [lia|]. cbn [orb].
    destruct (Z.leb_spec r 65535); [lia|].
    assert (Hs : (55296 <=? r) && (r <=? 57343) = false).
    { destruct (Z.leb_spec 55296 r), (Z.leb_spec r 57343);
        cbn; try reflexivity; lia. }
    rewrite Hs. rewrite !lor_cont, !shiftr_div by lia.
    change (2 ^ 6) with 64. change (2 ^ 12) with 4096.
    change (2 ^ 18) with 262144.
    rewrite lor_lead4 by euclid.
    f_equal; [|f_equal; [|f_equal; [|f_equal]]];
      apply byte_of_eq; subst r; euclid.
Qed.


Lemma DecodeRune_width (s : gostring) :
  s <> [] -> (1 <= (DecodeRune s).2 <= length s)%nat.
Proof. intros. eapply decoded_width; [apply DecodeRune_decoded | done]. Qed.

Lemma chunks_fuel_enough (n : nat) (s : gostring) :
  (length s <= n)%nat -> chunks_fuel n s = chunks s.
Proof.
  unfold chunks. revert s.
  induction n as [n IH] using lt_wf_ind. intros s Hn.
  destruct s as [|b s]; [now destruct n|].
  destruct n as [|n]; [cbn in Hn; lia|].
  cbn [chunks_fuel length].
  pose proof (DecodeRune_width (b :: s) ltac:(done)) as Hw.
  destruct (DecodeRune (b :: s)) as [r w]. cbn [snd] in Hw.
  f_equal.
  assert (Hd : (length (drop w (b :: s)) <= length s)%nat).
  { rewrite length_drop. cbn [length]. lia. }
  cbn [length] in Hn.
  rewrite (IH n) by lia.
  symmetry. apply IH; [lia | done].
Qed.

Lemma chunks_nil : chunks [] = [].
Proof. reflexivity. Qed.

Lemma chunks_step (s : gostring) :
  s <> [] ->
  chunks s = ((DecodeRune s).1, take (DecodeRune s).2 s)
               :: chunks (drop (DecodeRune s).2 s).
Proof.
  intros Hs. destruct s as [|b s]; [done|].
  unfold chunks at 1. cbn [length chunks_fuel].
  pose proof (DecodeRune_width (b :: s) ltac:(done)) as Hw.
  destruct (DecodeRune (b :: s)) as [r w]. cbn [fst snd] in *.
  f_equal. apply chunks_fuel_enough.
  rewrite length_drop. cbn [length]. lia.
Qed.

(** Induction on a string, one rune at a time. *)
Lemma rune_ind (P : gostring -> Prop) :
  P [] ->
  (forall s, s <> [] -> P (drop (DecodeRune s).2 s) -> P s) ->
  forall s, P s.
Proof.
  intros Hnil Hstep s.
  induction s as [s IH] using (induction_ltof1 _ (@length byte)).
  destruct (decide (s = [])) as [->|Hs]; [done|].
  apply Hstep; [done|]. apply IH. unfold ltof.
  pose proof (DecodeRune_width s Hs). rewrite length_drop. lia.
Qed.

(** A chunk read from a well-formed sequence of bytes. *)
Definition wf_chunk (c : chunk) : Prop :=
  decoded c.2 c.1 (length c.2) /\ c.2 <> [] /\ invalid c = false.

Lemma wf_chunk_decode (c : chunk) (t : gostring) :
  wf_chunk c -> DecodeRune (c.2 ++ t) = (c.1, length c.2).
Proof.
  destruct c as [r bs]. intros (Hd & Hne & Hv). cbn [fst snd] in *.
  rewrite <- (firstn_all bs) at 1.
  apply decoded_local; [done|]. now rewrite firstn_all.
Qed.

Lemma chunks_app_wf (c : chunk) (t : gostring) :
  wf_chunk c -> chunks (c.2 ++ t) = c :: chunks t.
Proof.
  intros Hc. pose proof Hc as (_ & Hne & _).
  rewrite chunks_step by (destruct (c.2); [done | discriminate]).
  rewrite (wf_chunk_decode c t Hc). cbn [fst snd].
  rewrite take_app_length, drop_app_length. now destruct c.
Qed.

Lemma chunks_concat_wf (cs : list chunk) (t : gostring) :
  Forall wf_chunk cs ->
  chunks (concat (map snd cs) ++ t) = cs ++ chunks t.
Proof.
  induction 1 as [|c cs Hc _ IH]; [done|].
  cbn [map concat]. rewrite <- app_assoc.
  rewrite chunks_app_wf by done. now rewrite IH.
Qed.

(** Every chunk of a string is well formed or is one invalid byte. *)
Lemma chunks_wf_or_invalid (s : gostring) :
  Forall (fun c => wf_chunk c \/ (c.1 = RuneError /\ length c.2 = 1%nat))
         (chunks s).
Proof.
  induction s as [|s Hs IH] using rune_ind; [constructor|].
  rewrite chunks_step by done. constructor; [|done]. cbn [fst snd].
  pose proof (DecodeRune_decoded s) as Hd.
  pose proof (DecodeRune_width s Hs) as Hw.
  destruct (DecodeRune s) as [r w]. cbn [fst snd] in *.
  assert (Hl : length (take w s) = w) by (rewrite length_take; lia).
  destruct (invalid (r, take w s)) eqn:Hv.
  - right. unfold invalid in Hv. cbn [fst snd] in Hv.
    apply andb_true_iff in Hv as [H1 H2].
    apply Z.eqb_eq in H1. apply Nat.leb_le in H2. split; [done|lia].
  - left. split; [|split]; cbn [fst snd]; [| |done].
    + rewrite Hl. inversion Hd; subst; cbn [take];
        try (econstructor; eassumption); discriminate Hv.
    + intros E. rewrite E in Hl. cbn in Hl. lia.
Qed.

Lemma chunks_bytes (s : gostring) : concat (map snd (chunks s)) = s.
Proof.
  induction s as [|s Hs IH] using rune_ind; [done|].
  rewrite chunks_step by done. cbn [map concat snd].
  rewrite IH. apply take_drop.
Qed.

Lemma chunks_nonempty (s : gostring) :
  Forall (fun c : chunk => c.2 <> []) (chunks s).
Proof.
  induction s as [|s Hs IH] using rune_ind; [constructor|].
  rewrite chunks_step by done. constructor; [|done]. cbn [snd].
  pose proof (DecodeRune_width s Hs) as Hw.
  intros E. apply (f_equal length) in E. rewrite length_take in E.
  cbn in E. lia.
Qed.

End Utf8Facts.

(** ** Strings as sequences of runes *)

(** The runes a [range] loop reads from [s]; an invalid byte is read as
    [RuneError]. *)
Definition runes (s : gostring) : list rune := map fst (utf8.chunks s).

(** Go's conversion [string(rs)] of a rune slice. *)
Definition string_of_runes (rs : list rune) : gostring :=
  concat (map utf8.EncodeRune rs).

Lemma string_of_runes_app (rs1 rs2 : list rune) :
  string_of_runes (rs1 ++ rs2) = string_of_runes rs1 ++ string_of_runes rs2.
Proof. unfold string_of_runes. now rewrite map_app, concat_app. Qed.

Lemma range_runes (s : gostring) : map snd (utf8.range s) = runes s.
Proof.
  unfold utf8.range, runes. generalize 0%nat.
  induction (utf8.chunks s) as [|[r bs] cs IH]; intros i; [done|].
  cbn. now rewrite IH.
Qed.

(** ** [strings.Builder] *)

Lemma WriteRune_last (h : heap) (buf : gostring) (r : rune) :
  strings.WriteRune (length h) r (h ++ [Bytes buf])
  = Done tt (h ++ [Bytes (buf ++ utf8.EncodeRune r)]).
Proof.
  unfold strings.WriteRune.
  rewrite (bind_Done _ _ _ _ _ (load_app_new h (Bytes buf))).
  apply store_app_new.
Qed.

(** A loop whose body appends [f x] to the builder appends them all. *)
Lemma for_each_builder {X} (f : X -> gostring) (body : X -> M unit)
    (l : list X) (h : heap) (buf : gostring) :
  (forall x buf', body x (h ++ [Bytes buf'])
                  = Done tt (h ++ [Bytes (buf' ++ f x)])) ->
  for_each l body (h ++ [Bytes buf])
  = Done tt (h ++ [Bytes (buf ++ concat (map f l))]).
Proof.
  intros Hbody. revert buf.
  induction l as [|x l IH]; intros buf; cbn [for_each map concat].
  - now rewrite app_nil_r.
  - rewrite (bind_Done _ _ _ _ _ (Hbody x buf)), IH.
    now rewrite <- app_assoc.
Qed.

(** ** [ToSnakeCase] *)

Section SnakeCase.
Context (U : unicode.Tables).

(** What one turn of the loop of [ToSnakeCase] writes. *)
Definition snake_step (ic : nat * rune) : gostring :=
  let '(i, char) := ic in
  if unicode.IsUpper U char then
    (if negb (i =? 0)%nat then utf8.EncodeRune 95 else [])
      ++ utf8.EncodeRune (unicode.ToLower U char)
  else utf8.EncodeRune char.

Lemma ToSnakeCase_run (s : gostring) (h : heap) :
  ToSnakeCase U s h
  = Done (concat (map snake_step (utf8.range s)))
         (h ++ [Bytes (concat (map snake_step (utf8.range s)))]).
Proof.
  unfold ToSnakeCase, strings.NewBuilder.
  rewrite (bind_Done _ _ _ _ _ (eq_refl : alloc (Bytes []) h = Done _ _)).
  erewrite bind_Done; cycle 1.
  { apply (for_each_builder snake_step). intros [i c] buf. cbn [snake_step].
    destruct (unicode.IsUpper U c); [|apply WriteRune_last].
    destruct (negb (i =? 0)%nat).
    - rewrite (bind_Done _ _ _ _ _ (WriteRune_last h buf 95)).
      rewrite WriteRune_last. now rewrite <- !app_assoc.
    - rewrite (bind_Done _ _ _ _ _ (mret_Done tt _)).
      apply WriteRune_last. }
  cbn [app]. unfold strings.String.
  rewrite (bind_Done _ _ _ _ _ (load_app_new h _)). reflexivity.
Qed.

(** The reading of the spec: every upper-case letter becomes ['_'] and
    its lower-case form. *)
Definition snake_every_upper (rs : list rune) : list rune :=
  flat_map (fun c => if unicode.IsUpper U c
                     then [95; unicode.ToLower U c] else [c]) rs.

(** What the code does: as above, except that an upper-case letter at
    the start of the string gets no ['_']. *)
Definition snake_runes (rs : list rune) : list rune :=
  match rs with
  | [] => []
  | c :: rs' =>
    (if unicode.IsUpper U c then [unicode.ToLower U c] else [c])
      ++ snake_every_upper rs'
  end.

Lemma snake_steps_inner (cs : list utf8.chunk) (i : nat) :
  (0 < i)%nat ->
  concat (map snake_step (utf8.index_from i cs))
  = string_of_runes (snake_every_upper (map fst cs)).
Proof.
  revert i. induction cs as [|[c bs] cs IH]; intros i Hi; [done|].
  cbn [utf8.index_from map concat fst snake_every_upper flat_map].
  rewrite string_of_runes_app, IH by lia. f_equal.
  unfold snake_step. destruct (Nat.eqb_spec i 0); [lia|]. cbn [negb].
  destruct (unicode.IsUpper U c); cbn; now rewrite ?app_nil_r.
Qed.

Lemma snake_steps (s : gostring) :
  concat (map snake_step (utf8.range s))
  = string_of_runes (snake_runes (runes s)).
Proof.
  unfold utf8.range, runes.
  pose proof (chunks_nonempty s) as Hne.
  destruct (utf8.chunks s) as [|[c bs] cs]; [done|].
  apply Forall_cons in Hne as [Hbs _]. cbn [snd] in Hbs.
  cbn [utf8.index_from map concat fst snake_runes].
  rewrite string_of_runes_app, snake_steps_inner
    by (destruct bs; [done | cbn; lia]).
  f_equal. unfold snake_step. cbn.
  destruct (unicode.IsUpper U c); cbn; now rewrite ?app_nil_r.
Qed.

End SnakeCase.

(** C2, amended.  For every input string, [ToSnakeCase] replaces every
    upper-case letter that is not at the start of the string by ['_']
    followed by the letter's lower-case form, replaces an upper-case
    letter at the start of the string by its lower-case form alone, and
    copies every other character unchanged.  Characters are the runes a
    [range] loop reads, and the result is their UTF-8 encoding. *)
Theorem ToSnakeCase_spec (U : unicode.Tables) (s : gostring) :
  returns (ToSnakeCase U s) (string_of_runes (snake_runes U (runes s))).
Proof.
  intros h. eexists. rewrite ToSnakeCase_run, snake_steps. reflexivity.
Qed.

(** C2 as stated fails: on ["A"] the upper-case letter is at byte index
    zero, the test [i != 0] of the source writes no ['_'], and the
    result is ["a"], not ["_a"]. *)
Lemma ToSnakeCase_leading_upper :
  ~ returns (ToSnakeCase unicode.Latin1 (str "A"))
            (string_of_runes
               (snake_every_upper unicode.Latin1 (runes (str "A")))).
Proof.
  intros H. apply returns_run in H. vm_compute in H. discriminate H.
Qed.

(** ** [[]string] values in the heap *)

Lemma len_last (h : heap) (ws : list gostring) :
  strings.len (length h) (h ++ [Strings ws])
  = Done (length ws) (h ++ [Strings ws]).
Proof.
  unfold strings.len. now rewrite (bind_Done _ _ _ _ _ (load_app_new h _)).
Qed.

Lemma index_last (h : heap) (ws : list gostring) (i : nat) (w : gostring) :
  ws !! i = Some w ->
  strings.index (length h) i (h ++ [Strings ws]) = Done w (h ++ [Strings ws]).
Proof.
  intros Hi. unfold strings.index.
  rewrite (bind_Done _ _ _ _ _ (load_app_new h _)). now rewrite Hi.
Qed.

Lemma set_index_last (h : heap) (ws : list gostring) (i : nat) (w : gostring) :
  (i < length ws)%nat ->
  strings.set_index (length h) i w (h ++ [Strings ws])
  = Done tt (h ++ [Strings (<[i := w]> ws)]).
Proof.
  intros Hi. unfold strings.set_index.
  rewrite (bind_Done _ _ _ _ _ (load_app_new h _)).
  destruct (Nat.ltb_spec i (length ws)); [|lia]. apply store_app_new.
Qed.

Lemma Join_last (h : heap) (ws : list gostring) (sep : gostring) :
  strings.Join (length h) sep (h ++ [Strings ws])
  = Done (strings.join ws sep) (h ++ [Strings ws]).
Proof.
  unfold strings.Join. now rewrite (bind_Done _ _ _ _ _ (load_app_new h _)).
Qed.

(** The loop [words[i] = f(words[i])] over the indices from [lo] on. *)
Lemma for_each_update (f : gostring -> gostring) (h : heap) (k : nat) :
  forall (lo : nat) (ws : list gostring),
  (lo + k = length ws)%nat ->
  for_each (seq lo k)
    (fun i => w ← strings.index (length h) i;
              strings.set_index (length h) i (f w))
    (h ++ [Strings ws])
  = Done tt (h ++ [Strings (take lo ws ++ map f (drop lo ws))]).
Proof.
  induction k as [|k IH]; intros lo ws Hk; cbn [seq for_each].
  - rewrite drop_ge, app_nil_r, take_ge by lia. reflexivity.
  - destruct (lookup_lt_is_Some_2 ws lo ltac:(lia)) as [w Hw].
    erewrite bind_Done; cycle 1.
    { rewrite (bind_Done _ _ _ _ _ (index_last h ws lo w Hw)).
      apply set_index_last. lia. }
    rewrite IH by (rewrite length_insert; lia).
    do 3 f_equal.
    rewrite (drop_S ws w lo Hw). cbn [map].
    rewrite drop_insert_lt by lia.
    rewrite (take_S_r (<[lo:=f w]> ws) lo (f w)).
    + rewrite take_insert_ge by lia. now rewrite <- app_assoc.
    + apply list_lookup_insert_eq. lia.
Qed.

(** ** [ToPascalCase] and [ToCamelCase]: what a call computes *)

Section Casing.
Context (U : unicode.Tables).

(** The words both functions work on. *)
Definition words (s : gostring) : list gostring :=
  strings.fields s (notLetterOrNumber U).

Lemma ToPascalCase_run (s : gostring) (h : heap) :
  ToPascalCase U s h
  = Done (strings.join (map (strings.Title U) (words s)) [])
         (h ++ [Strings (map (strings.Title U) (words s))]).
Proof.
  unfold ToPascalCase, strings.FieldsFunc. fold (words s).
  rewrite (bind_Done _ _ _ _ _ (eq_refl : alloc _ h = Done _ _)).
  rewrite (bind_Done _ _ _ _ _ (len_last h _)).
  unfold for_range. rewrite Nat.sub_0_r.
  erewrite bind_Done; cycle 1.
  { apply (for_each_update (strings.Title U)). lia. }
  cbn [take app drop]. apply Join_last.
Qed.

(** The words of [ToCamelCase] after its two updates: the first byte of
    the first word lower-cased, the other words title-cased. *)
Definition camel_words (ws : list gostring) : list gostring :=
  match ws with
  | [] => []
  | w0 :: ws' =>
    (match w0 with
     | [] => w0
     | _ :: _ => strings.ToLower U (take 1 w0) ++ drop 1 w0
     end) :: map (strings.Title U) ws'
  end.

Lemma ToCamelCase_run (s : gostring) (h : heap) :
  ToCamelCase U s h
  = Done (strings.join (camel_words (words s)) [])
         (h ++ [Strings (camel_words (words s))]).
Proof.
  unfold ToCamelCase, strings.FieldsFunc. fold (words s).
  rewrite (bind_Done _ _ _ _ _ (eq_refl : alloc _ h = Done _ _)).
  rewrite (bind_Done _ _ _ _ _ (len_last h _)).
  destruct (words s) as [|w0 ws]; [reflexivity|].
  cbn [length Nat.eqb].
  rewrite (bind_Done _ _ _ _ _ (index_last h (w0 :: ws) 0 w0 eq_refl)).
  set (w0' := match w0 with
              | [] => w0
              | _ :: _ => strings.ToLower U (take 1 w0) ++ drop 1 w0
              end).
  erewrite (bind_Done _ _ (h ++ [Strings (w0 :: ws)]) tt
              (h ++ [Strings (w0' :: ws)])); cycle 1.
  { subst w0'. destruct w0 as [|b w0]; [reflexivity|].
    cbn [length Nat.ltb Nat.leb].
    rewrite set_index_last by (cbn; lia). reflexivity. }
  rewrite (bind_Done _ _ _ _ _ (len_last h _)).
  unfold for_range. cbn [length]. rewrite Nat.sub_succ, Nat.sub_0_r.
  erewrite bind_Done; cycle 1.
  { apply (for_each_update (strings.Title U)). cbn [length]. lia. }
  cbn [take app drop]. apply Join_last.
Qed.

End Casing.

(** C8.  Each of the three functions is pure: two calls on the same
    string, from any two heaps, end normally with the same value, and
    each leaves the heap it started from unchanged, only followed by the
    objects the call allocated for itself. *)
Theorem casing_pure (U : unicode.Tables) (s : gostring) (h1 h2 : heap) :
  (exists r h1' h2',
     ToCamelCase U s h1 = Done r (h1 ++ h1')
     /\ ToCamelCase U s h2 = Done r (h2 ++ h2'))
  /\ (exists r h1' h2',
        ToPascalCase U s h1 = Done r (h1 ++ h1')
        /\ ToPascalCase U s h2 = Done r (h2 ++ h2'))
  /\ (exists r h1' h2',
        ToSnakeCase U s h1 = Done r (h1 ++ h1')
        /\ ToSnakeCase U s h2 = Done r (h2 ++ h2')).
Proof.
  split; [|split]; do 3 eexists.
  - rewrite !ToCamelCase_run. split; reflexivity.
  - rewrite !ToPascalCase_run. split; reflexivity.
  - rewrite !ToSnakeCase_run. split; reflexivity.
Qed.

(** ** Strings without a word *)

Lemma fields_loop_all_sep (f : rune -> bool) (cs : list utf8.chunk) :
  forallb f (map fst cs) = true -> strings.fields_loop f [] cs = [].
Proof.
  induction cs as [|[c bs] cs IH]; [done|]. cbn [map forallb fst].
  intros [Hc Hcs]%andb_true_iff. cbn [strings.fields_loop].
  rewrite Hc. now apply IH.
Qed.

(** C10, amended.  On a string that holds no letter and no number, that
    is, one whose every rune passes the separator test of the source
    (neither [unicode.IsLetter] nor [unicode.IsNumber]), [ToCamelCase] and
    [ToPascalCase] both return the empty string. *)
Theorem casing_no_word (U : unicode.Tables) (s : gostring) :
  forallb (notLetterOrNumber U) (runes s) = true ->
  returns (ToCamelCase U s) [] /\ returns (ToPascalCase U s) [].
Proof.
  intros Hs.
  assert (Hw : words U s = []) by now apply fields_loop_all_sep.
  split; intros h; eexists.
  - rewrite ToCamelCase_run, Hw. reflexivity.
  - rewrite ToPascalCase_run, Hw. reflexivity.
Qed.

Lemma casing_no_word_witness :
  returns (ToCamelCase unicode.Latin1 (str "__ -.")) []
  /\ returns (ToPascalCase unicode.Latin1 (str "__ -.")) [].
Proof.
  apply (casing_no_word unicode.Latin1 (str "__ -.")).
  vm_compute. reflexivity.
Defined.

(** The test the claims word: a rune that is no letter and no digit.  A
    number that is no decimal digit, such as U+00BD, passes it and fails
    the test of the source. *)
Definition notLetterOrDigit (U : unicode.Tables) (r : rune) : bool :=
  negb (unicode.IsLetter U r) && negb (unicode.IsDigit U r).

(** C10 as stated fails: the string "½" (bytes C2 BD) holds no letter and
    no digit, yet U+00BD is a number and so a word of its own:
    [ToPascalCase] returns C2 BD and [ToCamelCase] EF BF BD BD, not the
    empty string. *)
Lemma casing_number_is_word :
  forallb (notLetterOrDigit unicode.Latin1) (runes [xc2; xbd]) = true
  /\ ~ returns (ToPascalCase unicode.Latin1 [xc2; xbd]) []
  /\ ~ returns (ToCamelCase unicode.Latin1 [xc2; xbd]) [].
Proof.
  split; [reflexivity|].
  split; intros H; apply returns_run in H; vm_compute in H; discriminate H.
Qed.

Example ToPascalCase_half :
  run (ToPascalCase unicode.Latin1 [xc2; xbd]) = Some [xc2; xbd].
Proof. vm_compute. reflexivity. Qed.

Example ToCamelCase_half :
  run (ToCamelCase unicode.Latin1 [xc2; xbd]) = Some [xef; xbf; xbd; xbd].
Proof. vm_compute. reflexivity. Qed.


(** ** The Latin-1 tables satisfy the laws *)

Lemma Latin1_laws : unicode.Laws unicode.Latin1.
Proof.
  split; cbn [unicode.IsLetter unicode.IsNumber unicode.IsUpper
              unicode.IsSpace unicode.ToLower unicode.ToTitle unicode.Latin1];
    unfold unicode.ascii_letter, unicode.ascii_upper, unicode.ascii_lower,
           unicode.ascii_digit, unicode.between, utf8.RuneError;
    try reflexivity; intros r;
    repeat match goal with
    | |- context [?a <=? ?b] => destruct (Z.leb_spec a b)
    | |- context [?a =? ?b] => destruct (Z.eqb_spec a b)
    end; cbn; intros; try reflexivity; try discriminate; try lia.
Qed.


(** ** [strings.FieldsFunc]: the fields are the maximal runs *)

Section Fields.
Context (f : rune -> bool).

(** The bytes of a run of chunks. *)
Definition bytes_of (w : list utf8.chunk) : gostring := concat (map snd w).

(** [runs cs ws]: [ws] are the maximal runs of chunks of [cs] whose rune
    does not satisfy [f], in order.  A run is followed by a chunk that
    satisfies [f] or by the end, and only such a chunk, or the start,
    comes before it. *)
Inductive runs : list utf8.chunk -> list (list utf8.chunk) -> Prop :=
| runs_nil : runs [] []
| runs_sep c cs ws :
    f c.1 = true -> runs cs ws -> runs (c :: cs) ws
| runs_word w cs ws :
    w <> [] -> Forall (fun c : utf8.chunk => f c.1 = false) w ->
    (cs = [] \/ exists c cs', cs = c :: cs' /\ f c.1 = true) ->
    runs cs ws -> runs (w ++ cs) (w :: ws).

(** The loop of [FieldsFunc] on chunks instead of bytes. *)
Fixpoint groups (cur : list utf8.chunk) (cs : list utf8.chunk)
    : list (list utf8.chunk) :=
  match cs with
  | [] => match cur with [] => [] | _ :: _ => [cur] end
  | c :: cs' =>
    if f c.1 then
      match cur with
      | [] => groups [] cs'
      | _ :: _ => cur :: groups [] cs'
      end
    else groups (cur ++ [c]) cs'
  end.

Lemma bytes_of_app (w1 w2 : list utf8.chunk) :
  bytes_of (w1 ++ w2) = bytes_of w1 ++ bytes_of w2.
Proof. unfold bytes_of. now rewrite map_app, concat_app. Qed.

Lemma bytes_of_nil_inv (w : list utf8.chunk) :
  Forall (fun c : utf8.chunk => c.2 <> []) w -> bytes_of w = [] -> w = [].
Proof.
  destruct 1 as [|[c bs] w Hc _]; [reflexivity|].
  unfold bytes_of. cbn. intros E. apply app_eq_nil in E as [E _].
  now destruct Hc.
Qed.

Lemma fields_loop_groups (cur cs : list utf8.chunk) :
  Forall (fun c : utf8.chunk => c.2 <> []) cur ->
  Forall (fun c : utf8.chunk => c.2 <> []) cs ->
  strings.fields_loop f (bytes_of cur) cs = map bytes_of (groups cur cs).
Proof.
  intros Hcur Hcs. revert cur Hcur.
  induction Hcs as [|[c bs] cs Hc Hcs IH]; intros cur Hcur.
  - cbn [strings.fields_loop groups].
    destruct cur as [|c0 cur]; [reflexivity|]. cbn [map].
    destruct (bytes_of (c0 :: cur)) eqn:E; [|reflexivity].
    now apply bytes_of_nil_inv in E.
  - cbn [strings.fields_loop groups fst]. destruct (f c).
    + destruct cur as [|c0 cur]; [apply (IH [] ltac:(constructor))|].
      destruct (bytes_of (c0 :: cur)) eqn:E.
      { now apply bytes_of_nil_inv in E. }
      cbn [map]. rewrite E. f_equal. apply (IH [] ltac:(constructor)).
    + replace (bytes_of cur ++ bs) with (bytes_of (cur ++ [(c, bs)])).
      * apply IH. apply Forall_app. split; [done|].
        constructor; [done|constructor].
      * rewrite bytes_of_app. cbn. now rewrite app_nil_r.
Qed.

Lemma groups_runs_gen (cur cs : list utf8.chunk) :
  Forall (fun c : utf8.chunk => f c.1 = false) cur ->
  match cur with
  | [] => runs cs (groups [] cs)
  | _ :: _ => exists w cs' ws,
      cs = w ++ cs' /\ groups cur cs = (cur ++ w) :: ws
      /\ Forall (fun c : utf8.chunk => f c.1 = false) w
      /\ (cs' = [] \/ exists c cs'', cs' = c :: cs'' /\ f c.1 = true)
      /\ runs cs' ws
  end.
Proof.
  revert cur. induction cs as [|c cs IH]; intros cur Hcur.
  - destruct cur as [|c0 cur]; [constructor|].
    exists [], [], []. cbn. rewrite !app_nil_r.
    repeat split; [constructor | now left | constructor].
  - destruct (f c.1) eqn:Hc.
    + pose proof (IH [] ltac:(constructor)) as Hr. cbn in Hr.
      destruct cur as [|c0 cur].
      * cbn [groups]. rewrite Hc. now constructor.
      * exists [], (c :: cs), (groups [] cs).
        cbn [groups app]. rewrite Hc, !app_nil_r.
        repeat split; [constructor | right; eauto | now constructor].
    + assert (Hcur' : Forall (fun c : utf8.chunk => f c.1 = false)
                             (cur ++ [c])).
      { apply Forall_app. split; [done|]. now repeat constructor. }
      pose proof (IH (cur ++ [c]) Hcur') as Hr.
      destruct (cur ++ [c]) as [|c1 cur1] eqn:E.
      { now destruct cur. }
      destruct Hr as (w & cs' & ws & -> & Hg & Hw & Hend & Hr).
      destruct cur as [|c0 cur].
      * cbn [groups]. rewrite Hc. cbn [app] in E |- *. rewrite E, Hg.
        injection E as <- <-. cbn [app].
        apply (runs_word (c :: w)); [done | now constructor | done | done].
      * exists (c :: w), cs', ws. cbn [groups]. rewrite Hc, E, Hg.
        rewrite <- E, <- app_assoc. cbn [app].
        repeat split; [now constructor | done | done].
Qed.

Lemma groups_runs (cs : list utf8.chunk) : runs cs (groups [] cs).
Proof. apply (groups_runs_gen [] cs). constructor. Qed.

Lemma runs_words (cs : list utf8.chunk) (ws : list (list utf8.chunk)) :
  runs cs ws ->
  Forall (fun w => w <> [] /\ Forall (fun c : utf8.chunk => f c.1 = false) w
                   /\ Forall (fun c => c ∈ cs) w) ws.
Proof.
  induction 1 as [|c cs ws Hc _ IH|w cs ws Hne Hw Hend _ IH].
  - constructor.
  - eapply Forall_impl; [exact IH|]. intros w (? & ? & Hin).
    repeat split; [done..|].
    eapply Forall_impl; [exact Hin|]. intros x Hx. now right.
  - constructor.
    + repeat split; [done..|]. apply Forall_forall. intros x Hx.
      apply elem_of_app. now left.
    + eapply Forall_impl; [exact IH|]. intros w' (? & ? & Hin).
      repeat split; [done..|].
      eapply Forall_impl; [exact Hin|]. intros x Hx.
      apply elem_of_app. now right.
Qed.

End Fields.

(** ** [strings.Title] on a word *)

Lemma join_empty_sep (ws : list gostring) : strings.join ws [] = concat ws.
Proof.
  induction ws as [|w ws IH]; [done|]. cbn [strings.join concat].
  destruct ws as [|w' ws]; [now rewrite app_nil_r|].
  now rewrite <- IH.
Qed.

Lemma wf_chunk_encode (c : utf8.chunk) :
  wf_chunk c -> utf8.EncodeRune c.1 = c.2.
Proof.
  intros (Hd & _ & Hv). destruct c as [r bs]. cbn [fst snd] in *.
  rewrite <- (firstn_all bs) in Hv.
  rewrite (decoded_encode bs r (length bs) Hd Hv). apply firstn_all.
Qed.

Section Title.
Context (U : unicode.Tables) (HU : unicode.Laws U).

(** A rune of a word: a letter or a number. *)
Definition word_rune (r : rune) : Prop :=
  0 <= r /\ notLetterOrNumber U r = false.

Lemma isSeparator_word_rune (r : rune) :
  word_rune r -> strings.isSeparator U r = false.
Proof.
  intros [Hr Hw]. unfold notLetterOrNumber in Hw. unfold strings.isSeparator.
  destruct (Z.leb_spec r 127).
  - rewrite (unicode.ascii_IsLetter U HU r), (unicode.ascii_IsNumber U HU r)
      in Hw by lia.
    unfold unicode.ascii_letter, unicode.ascii_upper, unicode.ascii_lower,
      unicode.ascii_digit in Hw.
    destruct (unicode.between 48 57 r); [done|].
    destruct (unicode.between 97 122 r); [done|].
    destruct (unicode.between 65 90 r); [done|]. discriminate Hw.
  - destruct (unicode.IsLetter U r); [done|]. cbn [negb andb orb] in Hw |- *.
    destruct (unicode.IsDigit U r); [done|].
    apply (unicode.number_not_space U HU). now destruct (unicode.IsNumber U r).
Qed.

(** The chunks of a word: well formed, with runes of a word. *)
Definition word_chunk (c : utf8.chunk) : Prop :=
  wf_chunk c /\ notLetterOrNumber U c.1 = false.

Lemma word_chunk_rune (c : utf8.chunk) : word_chunk c -> word_rune c.1.
Proof.
  intros [(Hd & _) Hw]. split; [|done]. eapply decoded_nonneg, Hd.
Qed.

Abbreviation title_mapping :=
  (fun (prev : rune) (r : rune) =>
     if strings.isSeparator U prev
     then (unicode.ToTitle U r, r) else (r, r)).

Lemma Title_rest (w : list utf8.chunk) (prev : rune) (started : bool) :
  word_rune prev -> Forall word_chunk w ->
  strings.Map_loop title_mapping prev started w = bytes_of w.
Proof.
  intros Hprev Hw. revert prev started Hprev.
  induction Hw as [|[c bs] w Hc _ IH]; intros prev started Hprev; [done|].
  cbn [strings.Map_loop]. rewrite (isSeparator_word_rune prev Hprev).
  pose proof (word_chunk_rune _ Hc) as Hr. cbn [fst] in Hr.
  pose proof (wf_chunk_encode _ (proj1 Hc)) as He. cbn [fst snd] in He.
  destruct Hc as [(Hd & Hne & Hv) _]. cbn [fst snd] in Hd, Hv.
  rewrite Z.eqb_refl, Hv. cbn [negb andb].
  unfold bytes_of. cbn [map concat snd]. fold (bytes_of w).
  destruct started; cbn [negb].
  - rewrite (IH c true Hr). destruct Hr as [Hr _].
    destruct (Z.leb_spec 0 c); [|lia].
    now f_equal.
  - now rewrite (IH c false Hr).
Qed.

(** A word with its first rune in title case. *)
Definition capitalize (w : list utf8.chunk) : gostring :=
  match w with
  | [] => []
  | (c, _) :: w' => utf8.EncodeRune (unicode.ToTitle U c) ++ bytes_of w'
  end.

Lemma isSeparator_space : strings.isSeparator U 32 = true.
Proof. reflexivity. Qed.

Lemma Title_word (w : list utf8.chunk) :
  Forall word_chunk w -> strings.Title U (bytes_of w) = capitalize w.
Proof.
  intros Hw. unfold strings.Title.
  assert (Hwf : Forall wf_chunk w).
  { eapply Forall_impl; [exact Hw|]. now intros c [? _]. }
  pose proof (chunks_concat_wf w [] Hwf) as Hc.
  rewrite !app_nil_r in Hc. unfold bytes_of. rewrite Hc. clear Hc Hwf.
  destruct Hw as [|[c bs] w Hc Hw]; [done|].
  cbn [strings.Map_loop capitalize]. rewrite isSeparator_space.
  pose proof (word_chunk_rune _ Hc) as Hr. cbn [fst] in Hr.
  pose proof (wf_chunk_encode _ (proj1 Hc)) as He. cbn [fst snd] in He.
  pose proof Hc as [(Hd & Hne & Hv) _]. cbn [fst snd] in Hd, Hv.
  rewrite Hv. cbn [negb andb].
  rewrite !Title_rest by done.
  destruct (Z.eqb_spec (unicode.ToTitle U c) c) as [E|E].
  - rewrite E. cbn [andb]. now f_equal.
  - cbn [andb]. destruct Hr as [Hr _].
    pose proof (unicode.ToTitle_nonneg U HU c Hr).
    now destruct (Z.leb_spec 0 (unicode.ToTitle U c)); [|lia].
Qed.

(** The words of [s] as runs of chunks. *)
Definition word_runs (s : gostring) : list (list utf8.chunk) :=
  groups (notLetterOrNumber U) [] (utf8.chunks s).

Lemma words_word_runs (s : gostring) :
  words U s = map bytes_of (word_runs s).
Proof.
  unfold words, strings.fields, word_runs.
  apply (fields_loop_groups (notLetterOrNumber U) []);
    [constructor | apply chunks_nonempty].
Qed.

Lemma word_runs_chunks (s : gostring) :
  Forall (fun w => w <> [] /\ Forall word_chunk w) (word_runs s).
Proof.
  pose proof (runs_words _ _ _ (groups_runs (notLetterOrNumber U)
                                  (utf8.chunks s))) as Hr.
  eapply Forall_impl; [exact Hr|]. intros w (Hne & Hw & Hin).
  split; [done|]. apply Forall_forall. intros c Hc.
  rewrite Forall_forall in Hw, Hin.
  pose proof (chunks_wf_or_invalid s) as Hs. rewrite Forall_forall in Hs.
  split; [|now apply Hw].
  destruct (Hs c (Hin c Hc)) as [?|[He _]]; [done|].
  specialize (Hw c Hc). unfold notLetterOrNumber in Hw. rewrite He in Hw.
  rewrite (unicode.error_IsLetter U HU), (unicode.error_IsNumber U HU) in Hw.
  discriminate Hw.
Qed.

Lemma Title_words (s : gostring) :
  map (strings.Title U) (words U s) = map capitalize (word_runs s).
Proof.
  rewrite words_word_runs, map_map.
  pose proof (word_runs_chunks s) as Hw.
  induction Hw as [|w ws [_ Hw] _ IH]; [done|].
  cbn [map]. now rewrite IH, Title_word.
Qed.

End Title.

(** C4, amended.  [ToPascalCase] splits its input into the maximal runs
    of letters and numbers (the runes that fail the separator test of the
    source: [unicode.IsLetter] or [unicode.IsNumber]) and joins them with
    the first rune of each run mapped to title case ([unicode.ToTitle]),
    which on ASCII is upper case, and every other byte of the run
    unchanged. *)
Theorem ToPascalCase_spec (U : unicode.Tables) (s : gostring) :
  unicode.Laws U ->
  runs (notLetterOrNumber U) (utf8.chunks s) (word_runs U s)
  /\ returns (ToPascalCase U s) (concat (map (capitalize U) (word_runs U s))).
Proof.
  intros HU. split; [apply groups_runs|].
  intros h. eexists. rewrite ToPascalCase_run, join_empty_sep.
  rewrite (Title_words U HU). reflexivity.
Qed.

Lemma ToPascalCase_spec_witness :
  runs (notLetterOrNumber unicode.Latin1)
       (utf8.chunks (str "my_variable name"))
       (word_runs unicode.Latin1 (str "my_variable name"))
  /\ returns (ToPascalCase unicode.Latin1 (str "my_variable name"))
             (str "MyVariableName").
Proof.
  exact (ToPascalCase_spec unicode.Latin1 (str "my_variable name")
           Latin1_laws).
Defined.

(** C4 as the claim words it: the maximal runs of letters and digits,
    each with its first rune capitalized, joined. *)
Definition pascal_letters_digits (U : unicode.Tables) (s : gostring)
    : gostring :=
  concat (map (capitalize U)
              (groups (notLetterOrDigit U) [] (utf8.chunks s))).

(** C4 as stated fails: in "a½b" (bytes 61 C2 BD 62) the rune U+00BD is
    a number and no digit.  Split on letters and digits the string has the
    two words "a" and "b", which gives "AB"; the source tests
    [unicode.IsNumber], finds the one word "a½b" and returns "A½b". *)
Lemma ToPascalCase_number_in_word :
  ~ returns (ToPascalCase unicode.Latin1 [x61; xc2; xbd; x62])
            (pascal_letters_digits unicode.Latin1 [x61; xc2; xbd; x62]).
Proof.
  intros H. apply returns_run in H. vm_compute in H. discriminate H.
Qed.

Example ToPascalCase_a_half_b :
  run (ToPascalCase unicode.Latin1 [x61; xc2; xbd; x62])
  = Some [x41; xc2; xbd; x62].
Proof. vm_compute. reflexivity. Qed.

Example pascal_letters_digits_a_half_b :
  pascal_letters_digits unicode.Latin1 [x61; xc2; xbd; x62] = [x41; x42].
Proof. vm_compute. reflexivity. Qed.

(** ** ASCII strings *)

(** The chunks of a string of ASCII bytes: one per byte. *)
Definition achunks (s : gostring) : list utf8.chunk :=
  map (fun b => (byte_val b, [b])) s.

Definition is_ascii (s : gostring) : Prop := Forall (fun b => byte_val b < 128) s.

Lemma bytes_of_achunks (s : gostring) : bytes_of (achunks s) = s.
Proof.
  induction s as [|b s IH]; [done|]. unfold bytes_of, achunks in *. cbn.
  now rewrite IH.
Qed.

Lemma achunk_wf (b : byte) : byte_val b < 128 -> wf_chunk (byte_val b, [b]).
Proof.
  intros Hb. split; [|split]; cbn [fst snd].
  - now constructor.
  - done.
  - unfold utf8.invalid, utf8.RuneError. cbn [fst].
    now destruct (Z.eqb_spec (byte_val b) 65533); [lia|].
Qed.

Lemma chunks_ascii (s : gostring) : is_ascii s -> utf8.chunks s = achunks s.
Proof.
  intros Hs.
  assert (Hwf : Forall wf_chunk (achunks s)).
  { unfold achunks. apply Forall_map. eapply Forall_impl; [exact Hs|].
    intros b Hb. now apply achunk_wf. }
  pose proof (chunks_concat_wf (achunks s) [] Hwf) as Hc.
  fold (bytes_of (achunks s)) in Hc.
  now rewrite bytes_of_achunks, !app_nil_r in Hc.
Qed.

Lemma runes_ascii (s : gostring) : is_ascii s -> runes s = map byte_val s.
Proof.
  intros Hs. unfold runes. rewrite chunks_ascii by done.
  unfold achunks. rewrite map_map. done.
Qed.

Lemma EncodeRune_ascii (b : byte) :
  byte_val b < 128 -> utf8.EncodeRune (byte_val b) = [b].
Proof.
  intros Hb. pose proof (byte_val_range b). unfold utf8.EncodeRune.
  destruct (Z.leb_spec 0 (byte_val b)); [|lia].
  destruct (Z.leb_spec (byte_val b) 127); [|lia].
  cbn. now rewrite byte_of_val.
Qed.

Lemma string_of_runes_ascii (s : gostring) :
  is_ascii s -> string_of_runes (map byte_val s) = s.
Proof.
  induction 1 as [|b s Hb _ IH]; [done|].
  unfold string_of_runes in *. cbn [map concat].
  now rewrite IH, EncodeRune_ascii.
Qed.

(** ** From snake case to camel case and back *)

Section RoundTrip.
Context (U : unicode.Tables) (HU : unicode.Laws U).

Definition lower_byte (b : byte) : bool := unicode.between 97 122 (byte_val b).

(** A non-empty word of lower-case ASCII letters. *)
Definition lower_word (w : gostring) : bool :=
  match w with [] => false | _ :: _ => forallb lower_byte w end.

Lemma lower_byte_range (b : byte) : lower_byte b = true -> 97 <= byte_val b <= 122.
Proof. unfold lower_byte, unicode.between. lia. Qed.

Lemma lower_bytes_ascii (w : gostring) : forallb lower_byte w = true -> is_ascii w.
Proof.
  intros Hw. apply Forall_forall. intros b Hb.
  rewrite forallb_forall in Hw.
  apply list_elem_of_In in Hb. apply Hw, lower_byte_range in Hb. lia.
Qed.

Lemma lower_byte_word (b : byte) :
  lower_byte b = true -> notLetterOrNumber U (byte_val b) = false.
Proof.
  intros Hb%lower_byte_range. unfold notLetterOrNumber.
  rewrite (unicode.ascii_IsLetter U HU) by lia.
  unfold unicode.ascii_letter, unicode.ascii_upper, unicode.ascii_lower,
    unicode.between.
  destruct (Z.leb_spec 97 (byte_val b)); [|lia].
  destruct (Z.leb_spec (byte_val b) 122); [|lia].
  now rewrite orb_true_r.
Qed.

Lemma underscore_sep : notLetterOrNumber U 95 = true.
Proof.
  unfold notLetterOrNumber.
  rewrite (unicode.ascii_IsLetter U HU), (unicode.ascii_IsNumber U HU) by lia.
  reflexivity.
Qed.

Lemma fields_loop_lower (w cur : gostring) (rest : list utf8.chunk) :
  forallb lower_byte w = true ->
  strings.fields_loop (notLetterOrNumber U) cur (achunks w ++ rest)
  = strings.fields_loop (notLetterOrNumber U) (cur ++ w) rest.
Proof.
  revert cur. induction w as [|b w IH]; intros cur Hw.
  - now rewrite app_nil_r.
  - cbn [forallb] in Hw. apply andb_true_iff in Hw as [Hb Hw].
    cbn [achunks map app strings.fields_loop].
    rewrite (lower_byte_word b Hb). fold (achunks w).
    rewrite IH by done. now rewrite <- app_assoc.
Qed.

(** The words of a snake-case name are the words it was joined from. *)
Lemma words_join (ws : list gostring) :
  forallb lower_word ws = true ->
  strings.fields_loop (notLetterOrNumber U) []
    (achunks (strings.join ws [x5f])) = ws.
Proof.
  induction ws as [|w ws IH]; [done|].
  cbn [forallb]. intros [Hw Hws]%andb_true_iff.
  specialize (IH Hws).
  assert (Hl : forallb lower_byte w = true /\ w <> []).
  { destruct w; [discriminate Hw | split; [exact Hw | done]]. }
  destruct Hl as [Hl Hne].
  cbn [strings.join]. destruct ws as [|w' ws].
  - rewrite <- (app_nil_r (achunks w)), fields_loop_lower by done.
    cbn. now destruct w.
  - unfold achunks. rewrite map_app. fold (achunks w).
    rewrite fields_loop_lower by done. cbn [app map strings.fields_loop].
    change (byte_val x5f) with 95. rewrite underscore_sep.
    destruct w; [done|]. f_equal. exact IH.
Qed.

Lemma join_ascii (ws : list gostring) :
  forallb lower_word ws = true -> is_ascii (strings.join ws [x5f]).
Proof.
  induction ws as [|w ws IH]; [constructor|].
  cbn [forallb]. intros [Hw Hws]%andb_true_iff. specialize (IH Hws).
  assert (Hl : is_ascii w).
  { apply lower_bytes_ascii. now destruct w. }
  cbn [strings.join]. destruct ws as [|w' ws]; [done|].
  apply Forall_app. split; [done|]. constructor; [|done].
  vm_compute. reflexivity.
Qed.

Lemma words_snake (ws : list gostring) :
  forallb lower_word ws = true -> words U (strings.join ws [x5f]) = ws.
Proof.
  intros Hws. unfold words, strings.fields.
  rewrite chunks_ascii by now apply join_ascii. now apply words_join.
Qed.

(** The first byte of a lower-case word in upper case. *)
Definition upper_first (w : gostring) : gostring :=
  match w with
  | [] => []
  | b :: w' => byte_of (byte_val b - 32) :: w'
  end.

Lemma achunk_word (b : byte) :
  lower_byte b = true -> word_chunk U (byte_val b, [b]).
Proof.
  intros Hb. split; [|now apply lower_byte_word].
  apply achunk_wf. apply lower_byte_range in Hb. lia.
Qed.

Lemma Title_lower (w : gostring) :
  forallb lower_byte w = true -> strings.Title U w = upper_first w.
Proof.
  intros Hw. rewrite <- (bytes_of_achunks w) at 1.
  rewrite (Title_word U HU).
  - destruct w as [|b w]; [done|]. cbn [achunks map capitalize upper_first].
    fold (achunks w). rewrite bytes_of_achunks.
    cbn [forallb] in Hw. apply andb_true_iff in Hw as [Hb%lower_byte_range _].
    rewrite (unicode.ascii_ToTitle U HU) by lia.
    unfold unicode.ascii_lower, unicode.between.
    destruct (Z.leb_spec 97 (byte_val b)); [|lia].
    destruct (Z.leb_spec (byte_val b) 122); [|lia]. cbn [andb].
    rewrite <- (byte_val_of (byte_val b - 32)) at 1 by lia.
    rewrite EncodeRune_ascii; [done|]. rewrite byte_val_of; lia.
  - unfold achunks. apply Forall_map. apply Forall_forall. intros b Hb.
    apply achunk_word. rewrite forallb_forall in Hw. apply Hw.
    now apply list_elem_of_In.
Qed.

Lemma ToLower_lower (b : byte) :
  lower_byte b = true -> strings.ToLower U [b] = [b].
Proof.
  intros Hb%lower_byte_range. unfold strings.ToLower, utf8.RuneSelf.
  cbn [forallb map]. destruct (Z.ltb_spec (byte_val b) 128); [|lia].
  cbn [andb]. unfold unicode.between.
  destruct (Z.leb_spec (byte_val b) 90); [lia|]. now rewrite andb_false_r.
Qed.

(** The camel-case form of the name joined from [ws]. *)
Definition camel_of (ws : list gostring) : gostring :=
  match ws with
  | [] => []
  | w :: ws' => w ++ concat (map upper_first ws')
  end.

Lemma camel_words_lower (ws : list gostring) :
  forallb lower_word ws = true ->
  strings.join (camel_words U ws) [] = camel_of ws.
Proof.
  intros Hws. rewrite join_empty_sep.
  destruct ws as [|w ws]; [done|]. cbn [camel_words camel_of concat].
  cbn [forallb] in Hws. apply andb_true_iff in Hws as [Hw Hws].
  f_equal.
  - destruct w as [|b w]; [done|]. cbn [take drop].
    cbn [lower_word forallb] in Hw. apply andb_true_iff in Hw as [Hb _].
    now rewrite ToLower_lower.
  - f_equal. induction ws as [|w' ws IH]; [done|].
    cbn [forallb] in Hws. apply andb_true_iff in Hws as [Hw' Hws].
    cbn [map]. rewrite IH by done. f_equal.
    apply Title_lower. now destruct w'.
Qed.

End RoundTrip.

Section RoundTripSnake.
Context (U : unicode.Tables) (HU : unicode.Laws U).

Lemma snake_every_upper_app (rs1 rs2 : list rune) :
  snake_every_upper U (rs1 ++ rs2)
  = snake_every_upper U rs1 ++ snake_every_upper U rs2.
Proof. unfold snake_every_upper. now rewrite flat_map_app. Qed.

Lemma lower_not_upper (b : byte) :
  lower_byte b = true -> unicode.IsUpper U (byte_val b) = false.
Proof.
  intros Hb%lower_byte_range. rewrite (unicode.ascii_IsUpper U HU) by lia.
  unfold unicode.ascii_upper, unicode.between.
  destruct (Z.leb_spec (byte_val b) 90); [lia|]. apply andb_false_r.
Qed.

Lemma snake_lower (w : gostring) :
  forallb lower_byte w = true ->
  snake_every_upper U (map byte_val w) = map byte_val w.
Proof.
  induction w as [|b w IH]; [done|]. cbn [forallb].
  intros [Hb Hw]%andb_true_iff.
  cbn [map snake_every_upper flat_map]. rewrite (lower_not_upper b Hb).
  cbn [app]. f_equal. now apply IH.
Qed.

Lemma snake_upper_first (w : gostring) :
  lower_word w = true ->
  snake_every_upper U (map byte_val (upper_first w)) = 95 :: map byte_val w.
Proof.
  destruct w as [|b w]; [discriminate|]. cbn [lower_word forallb].
  intros [Hb Hw]%andb_true_iff. pose proof (lower_byte_range b Hb) as Hr.
  cbn [upper_first map snake_every_upper flat_map].
  rewrite byte_val_of by lia.
  rewrite (unicode.ascii_IsUpper U HU), (unicode.ascii_ToLower U HU) by lia.
  unfold unicode.ascii_upper, unicode.between.
  destruct (Z.leb_spec 65 (byte_val b - 32)); [|lia].
  destruct (Z.leb_spec (byte_val b - 32) 90); [|lia]. cbn [andb app].
  do 2 f_equal; [lia|]. now apply snake_lower.
Qed.

Lemma join_cons (w : gostring) (ws : list gostring) (sep : gostring) :
  strings.join (w :: ws) sep = w ++ concat (map (fun w' => sep ++ w') ws).
Proof.
  revert w. induction ws as [|w' ws IH]; intros w.
  - cbn. now rewrite app_nil_r.
  - cbn [strings.join] in *. rewrite IH. cbn [map concat].
    now rewrite <- app_assoc.
Qed.

Lemma snake_tail (ws : list gostring) :
  forallb lower_word ws = true ->
  snake_every_upper U (map byte_val (concat (map upper_first ws)))
  = map byte_val (concat (map (fun w => [x5f] ++ w) ws)).
Proof.
  induction ws as [|w ws IH]; [done|]. cbn [forallb].
  intros [Hw Hws]%andb_true_iff. cbn [map concat].
  rewrite !map_app, snake_every_upper_app, IH, snake_upper_first by done.
  reflexivity.
Qed.

Lemma snake_camel_runes (ws : list gostring) :
  forallb lower_word ws = true ->
  snake_runes U (map byte_val (camel_of ws))
  = map byte_val (strings.join ws [x5f]).
Proof.
  destruct ws as [|w ws]; [done|]. cbn [forallb].
  intros [Hw Hws]%andb_true_iff. rewrite join_cons. cbn [camel_of].
  destruct w as [|b w]; [discriminate|]. cbn [lower_word forallb] in Hw.
  apply andb_true_iff in Hw as [Hb Hw].
  cbn [app map snake_runes]. rewrite (lower_not_upper b Hb). cbn [app].
  f_equal. rewrite !map_app, snake_every_upper_app.
  now rewrite snake_lower, snake_tail.
Qed.

Lemma upper_first_ascii (w : gostring) :
  lower_word w = true -> is_ascii (upper_first w).
Proof.
  destruct w as [|b w]; [discriminate|]. cbn [lower_word forallb].
  intros [Hb%lower_byte_range Hw%lower_bytes_ascii]%andb_true_iff.
  constructor; [|done]. rewrite byte_val_of; lia.
Qed.

Lemma camel_of_ascii (ws : list gostring) :
  forallb lower_word ws = true -> is_ascii (camel_of ws).
Proof.
  destruct ws as [|w ws]; [constructor|]. cbn [forallb camel_of].
  intros [Hw Hws]%andb_true_iff. apply Forall_app. split.
  - apply lower_bytes_ascii. now destruct w.
  - induction ws as [|w' ws IH]; [constructor|].
    cbn [forallb] in Hws. apply andb_true_iff in Hws as [Hw' Hws].
    cbn [map concat]. apply Forall_app. split; [|now apply IH].
    now apply upper_first_ascii.
Qed.

Lemma ToCamelCase_snake (ws : list gostring) :
  forallb lower_word ws = true ->
  returns (ToCamelCase U (strings.join ws [x5f])) (camel_of ws).
Proof.
  intros Hws h. eexists. rewrite ToCamelCase_run.
  rewrite (words_snake U HU), (camel_words_lower U HU) by done.
  reflexivity.
Qed.

Lemma ToSnakeCase_camel (ws : list gostring) :
  forallb lower_word ws = true ->
  returns (ToSnakeCase U (camel_of ws)) (strings.join ws [x5f]).
Proof.
  intros Hws h. eexists. rewrite ToSnakeCase_run, snake_steps.
  rewrite runes_ascii by now apply camel_of_ascii.
  rewrite snake_camel_runes by done.
  rewrite string_of_runes_ascii by now apply join_ascii.
  reflexivity.
Qed.

End RoundTripSnake.

(** C9.  On a name made of one or more non-empty words of lower-case
    ASCII letters joined by single ['_'], converting to camel case and
    back to snake case gives the name again. *)
Theorem snake_camel_roundtrip (U : unicode.Tables) (ws : list gostring) :
  unicode.Laws U ->
  (0 < length ws)%nat ->
  forallb lower_word ws = true ->
  returns (r ← ToCamelCase U (strings.join ws [x5f]); ToSnakeCase U r)
          (strings.join ws [x5f]).
Proof.
  intros HU _ Hws. eapply returns_bind.
  - now apply ToCamelCase_snake.
  - now apply ToSnakeCase_camel.
Qed.

Lemma snake_camel_roundtrip_witness :
  returns (r ← ToCamelCase unicode.Latin1 (str "my_variable_name");
           ToSnakeCase unicode.Latin1 r)
          (str "my_variable_name").
Proof.
  apply (snake_camel_roundtrip unicode.Latin1
           [str "my"; str "variable"; str "name"] Latin1_laws).
  - cbn. lia.
  - reflexivity.
Defined.

(** C5: the code departs from the claim on a first word that starts
    with a letter of more than one byte.  [ToCamelCase] lower-cases
    [words[0][:1]], the first byte of the word, not its first letter.
    On "Éa" (bytes C3 89 61) that byte alone is invalid UTF-8, so
    [strings.ToLower] turns it into U+FFFD and the second byte of the
    letter is left behind: the result is EF BF BD 89 61, not "éa"
    (C3 A9 61). *)
Lemma ToCamelCase_first_byte :
  run (ToCamelCase unicode.Latin1 [xc3; x89; x61])
  = Some [xef; xbf; xbd; x89; x61].
Proof. vm_compute. reflexivity. Qed.

(** The sibling [ToPascalCase] works on runes: it maps "éa" to "Éa". *)
Lemma ToPascalCase_first_rune :
  run (ToPascalCase unicode.Latin1 [xc3; xa9; x61]) = Some [xc3; x89; x61].
Proof. vm_compute. reflexivity. Qed.

Lemma chunks_high_byte (b : byte) :
  128 <= byte_val b -> utf8.chunks [b] = [(utf8.RuneError, [b])].
Proof.
  destruct b; intros H; try (vm_compute in H; exfalso; apply H; reflexivity);
    vm_compute; reflexivity.
Qed.

Lemma ToLower_first_byte (U : unicode.Tables) (b : byte) :
  unicode.Laws U ->
  strings.ToLower U [b]
  = if byte_val b <? 128 then
      [if unicode.between 65 90 (byte_val b)
       then byte_of (byte_val b + 32) else b]
    else [xef; xbf; xbd].
Proof.
  intros HU. unfold strings.ToLower, utf8.RuneSelf. cbn [forallb map].
  destruct (Z.ltb_spec (byte_val b) 128) as [Hb|Hb]; [reflexivity|].
  cbn [andb]. unfold strings.Map. rewrite chunks_high_byte by done.
  cbn [strings.Map_loop]. rewrite (unicode.error_ToLower U HU).
  cbn [negb andb]. rewrite Z.eqb_refl.
  assert (Hi : utf8.invalid (utf8.RuneError, [b]) = true) by reflexivity.
  rewrite Hi. reflexivity.
Qed.

(** X1.  The result of [ToCamelCase] on a string whose first word starts
    with the byte [b]: an ASCII [b] is lower-cased; any other [b] is the first
    byte of a longer letter and is replaced by the encoding of U+FFFD, the
    rest of the letter staying where it was.  Every later word is
    title-cased. *)
Lemma ToCamelCase_first_word (U : unicode.Tables) (s : gostring) (b : byte)
    (w0 : gostring) (ws : list gostring) :
  unicode.Laws U ->
  words U s = (b :: w0) :: ws ->
  returns (ToCamelCase U s)
    ((if byte_val b <? 128 then
        [if unicode.between 65 90 (byte_val b)
         then byte_of (byte_val b + 32) else b]
      else [xef; xbf; xbd])
     ++ w0 ++ concat (map (strings.Title U) ws)).
Proof.
  intros HU Hw h. eexists. rewrite ToCamelCase_run, Hw, join_empty_sep.
  cbn [camel_words concat]. change (take 1 (b :: w0)) with [b].
  change (drop 1 (b :: w0)) with w0. rewrite (ToLower_first_byte U b HU).
  now rewrite <- app_assoc.
Qed.

Lemma ToCamelCase_first_word_witness :
  returns (ToCamelCase unicode.Latin1 (str "My_variable name"))
          (str "myVariableName").
Proof.
  exact (ToCamelCase_first_word unicode.Latin1 (str "My_variable name")
           x4d [x79] [str "variable"; str "name"] Latin1_laws eq_refl).
Defined.

(** ** The wire consumers read a prefix *)

Section WireFacts.
Import wire.

(** Two inputs that agree on their first [n] bytes. *)
Definition agree (n : Z) (b b' : list byte) : Prop :=
  take (Z.to_nat n) b' = take (Z.to_nat n) b.

Lemma agree_split (a c : Z) (b b' : list byte) :
  0 <= a -> 0 <= c -> agree (a + c) b b' ->
  agree a b b' /\ agree c (drop (Z.to_nat a) b) (drop (Z.to_nat a) b').
Proof.
  unfold agree. intros Ha Hc H. rewrite Z2Nat.inj_add in H by lia. split.
  - apply (f_equal (take (Z.to_nat a))) in H.
    now rewrite !take_take, !Nat.min_l in H by lia.
  - apply (f_equal (drop (Z.to_nat a))) in H.
    rewrite !skipn_firstn_comm in H.
    now replace (Z.to_nat a + Z.to_nat c - Z.to_nat a)%nat
      with (Z.to_nat c) in H by lia.
Qed.

Lemma agree_le (n m : Z) (b b' : list byte) :
  m <= n -> agree n b b' -> agree m b b'.
Proof.
  unfold agree. intros Hm H.
  apply (f_equal (take (Z.to_nat m))) in H.
  now rewrite !take_take, !Nat.min_l in H by lia.
Qed.

Lemma agree_length (n : Z) (b b' : list byte) :
  0 <= n <= Z.of_nat (length b) -> agree n b b' ->
  n <= Z.of_nat (length b').
Proof.
  unfold agree. intros Hn H. apply (f_equal length) in H.
  rewrite !length_take in H. lia.
Qed.

Lemma agree_cons (n : Z) (c c' : byte) (b b' : list byte) :
  1 <= n -> agree n (c :: b) (c' :: b') -> c' = c /\ agree (n - 1) b b'.
Proof.
  unfold agree. intros Hn H.
  replace (Z.to_nat n) with (S (Z.to_nat (n - 1))) in H by lia.
  cbn [take] in H. now injection H.
Qed.

Lemma agree_nil (n : Z) (b : list byte) :
  1 <= n <= Z.of_nat (length b) -> ~ agree n b [].
Proof.
  unfold agree. intros Hn H. apply (f_equal length) in H.
  rewrite !length_take in H. cbn in H. lia.
Qed.

Lemma varint_at_prefix (b : list byte) :
  forall (i : nat) (v x n : Z),
  varint_at i v b = (x, n) -> 0 <= n ->
  Z.of_nat i + 1 <= n <= Z.of_nat i + Z.of_nat (length b)
  /\ forall b', agree (n - Z.of_nat i) b b' -> varint_at i v b' = (x, n).
Proof.
  induction b as [|c b IH]; intros i v x n H Hn.
  - cbn in H. injection H as <- <-. unfold errCodeTruncated in Hn. lia.
  - cbn [varint_at] in H. cbn [length].
    destruct (Nat.eqb_spec i 9) as [->|Hi].
    + destruct (Z.ltb_spec (byte_val c) 2).
      * injection H as <- <-. split; [lia|]. intros [|c' b'] Hb'.
        { exfalso. revert Hb'. apply agree_nil. cbn [length]. lia. }
        apply agree_cons in Hb' as [-> _]; [|lia]. cbn [varint_at Nat.eqb].
        now destruct (Z.ltb_spec (byte_val c) 2); [|lia].
      * injection H as <- <-. unfold errCodeOverflow in Hn. lia.
    + destruct (Z.ltb_spec (byte_val c) 128).
      * injection H as <- <-. split; [lia|]. intros [|c' b'] Hb'.
        { exfalso. revert Hb'. apply agree_nil. cbn [length]. lia. }
        apply agree_cons in Hb' as [-> _]; [|lia]. cbn [varint_at].
        destruct (Nat.eqb_spec i 9); [done|].
        now destruct (Z.ltb_spec (byte_val c) 128); [|lia].
      * apply IH in H as [Hr Hp]; [|done]. split; [lia|].
        intros [|c' b'] Hb'.
        { exfalso. revert Hb'. apply agree_nil. cbn [length]. lia. }
        apply agree_cons in Hb' as [-> Hb']; [|lia]. cbn [varint_at].
        destruct (Nat.eqb_spec i 9); [done|].
        destruct (Z.ltb_spec (byte_val c) 128); [lia|].
        apply Hp. now replace (n - Z.of_nat (S i)) with (n - Z.of_nat i - 1) by lia.
Qed.

Lemma ConsumeVarint_prefix (b : list byte) (x n : Z) :
  ConsumeVarint b = (x, n) -> 0 <= n ->
  1 <= n <= Z.of_nat (length b)
  /\ forall b', agree n b b' -> ConsumeVarint b' = (x, n).
Proof.
  intros H Hn. apply varint_at_prefix in H as [Hr Hp]; [|done].
  split; [lia|]. intros b' Hb'. apply Hp.
  now replace (n - Z.of_nat 0) with n by lia.
Qed.

Lemma ConsumeTag_prefix (b : list byte) (num typ n : Z) :
  ConsumeTag b = (num, typ, n) -> 0 <= n ->
  1 <= n <= Z.of_nat (length b)
  /\ forall b', agree n b b' -> ConsumeTag b' = (num, typ, n).
Proof.
  unfold ConsumeTag. destruct (ConsumeVarint b) as [v k] eqn:Ev.
  destruct (Z.ltb_spec k 0).
  { intros [= <- <- <-] Hn. lia. }
  destruct (DecodeTag v) as [num' typ'] eqn:Ed.
  destruct (Z.ltb_spec num' MinValidNumber).
  { intros [= <- <- <-] Hn. unfold errCodeFieldNumber in Hn. lia. }
  intros [= <- <- <-] Hn.
  apply ConsumeVarint_prefix in Ev as [Hr Hp]; [|done]. split; [done|].
  intros b' Hb'. rewrite (Hp b' Hb').
  destruct (Z.ltb_spec k 0); [lia|]. rewrite Ed.
  now destruct (Z.ltb_spec num' MinValidNumber); [lia|].
Qed.

Lemma ConsumeFixed32_prefix (b : list byte) (n : Z) :
  ConsumeFixed32 b = n -> 0 <= n ->
  1 <= n <= Z.of_nat (length b)
  /\ forall b', agree n b b' -> ConsumeFixed32 b' = n.
Proof.
  unfold ConsumeFixed32. destruct (Nat.ltb_spec (length b) 4).
  { unfold errCodeTruncated. lia. }
  intros <- _. split; [lia|]. intros b' Hb'.
  apply agree_length in Hb'; [|lia].
  now destruct (Nat.ltb_spec (length b') 4); [lia|].
Qed.

Lemma ConsumeFixed64_prefix (b : list byte) (n : Z) :
  ConsumeFixed64 b = n -> 0 <= n ->
  1 <= n <= Z.of_nat (length b)
  /\ forall b', agree n b b' -> ConsumeFixed64 b' = n.
Proof.
  unfold ConsumeFixed64. destruct (Nat.ltb_spec (length b) 8).
  { unfold errCodeTruncated. lia. }
  intros <- _. split; [lia|]. intros b' Hb'.
  apply agree_length in Hb'; [|lia].
  now destruct (Nat.ltb_spec (length b') 8); [lia|].
Qed.

Lemma varint_at_value (b : list byte) :
  forall (i : nat) (v x n : Z),
  varint_at i v b = (x, n) -> 0 <= v -> 0 <= x.
Proof.
  induction b as [|c b IH]; intros i v x n H Hv.
  - cbn in H. injection H as <- <-. lia.
  - cbn [varint_at] in H. pose proof (byte_val_range c).
    destruct (i =? 9)%nat.
    + destruct (byte_val c <? 2); injection H as <- <-; [|lia].
      pose proof (Z.shiftl_nonneg (byte_val c) 63). lia.
    + destruct (Z.ltb_spec (byte_val c) 128).
      * injection H as <- <-.
        pose proof (Z.shiftl_nonneg (byte_val c) (7 * Z.of_nat i)). lia.
      * eapply IH; [exact H|].
        pose proof (Z.shiftl_nonneg (byte_val c - 128) (7 * Z.of_nat i)). lia.
Qed.

Lemma ConsumeBytes_prefix (b : list byte) (n : Z) :
  ConsumeBytes b = n -> 0 <= n ->
  1 <= n <= Z.of_nat (length b)
  /\ forall b', agree n b b' -> ConsumeBytes b' = n.
Proof.
  unfold ConsumeBytes. destruct (ConsumeVarint b) as [m k] eqn:Ev.
  destruct (Z.ltb_spec k 0); [intros <- ?; lia|].
  destruct (Z.ltb_spec (Z.of_nat (length (drop (Z.to_nat k) b))) m).
  { unfold errCodeTruncated. intros <- ?. lia. }
  intros <- _.
  pose proof (varint_at_value _ _ _ _ _ Ev ltac:(lia)) as Hm.
  apply ConsumeVarint_prefix in Ev as [Hr Hp]; [|done].
  rewrite length_drop in *. split; [lia|]. intros b' Hb'.
  pose proof (agree_length (k + m) b b' ltac:(lia) Hb') as Hl.
  rewrite (Hp b' (agree_le (k + m) k b b' ltac:(lia) Hb')).
  destruct (Z.ltb_spec k 0); [lia|]. rewrite length_drop.
  now destruct (Z.ltb_spec (Z.of_nat (length b' - Z.to_nat k)) m); [lia|].
Qed.

End WireFacts.

Section WireValue.
Import wire.

Lemma ConsumeFieldValue_fuel_eq (fuel : nat) (num typ : Z) (b : list byte) :
  ConsumeFieldValue_fuel fuel num typ b =
  if typ =? VarintType then snd (ConsumeVarint b)
  else if typ =? Fixed32Type then ConsumeFixed32 b
  else if typ =? Fixed64Type then ConsumeFixed64 b
  else if typ =? BytesType then ConsumeBytes b
  else if typ =? StartGroupType then
    match fuel with
    | O => errCodeTruncated
    | S fuel' => ConsumeGroup_fuel fuel' num b
    end
  else if typ =? EndGroupType then errCodeEndGroup
  else errCodeReserved.
Proof. destruct fuel; reflexivity. Qed.

Lemma ConsumeGroup_fuel_eq (fuel : nat) (num : Z) (b : list byte) :
  ConsumeGroup_fuel fuel num b =
  let '(num2, typ2, n) := ConsumeTag b in
  if n <? 0 then n
  else
    let b1 := drop (Z.to_nat n) b in
    if typ2 =? EndGroupType then
      if negb (num =? num2) then errCodeEndGroup else n
    else
      match fuel with
      | O => errCodeTruncated
      | S fuel' =>
        let m := ConsumeFieldValue_fuel fuel' num2 typ2 b1 in
        if m <? 0 then m
        else
          let k := ConsumeGroup_fuel fuel' num (drop (Z.to_nat m) b1) in
          if k <? 0 then k else n + m + k
      end.
Proof. destruct fuel; reflexivity. Qed.

(** A successful consumer reads a non-empty prefix of its input, and
    reads the same from every input that starts with that prefix, with
    any fuel that covers the prefix. *)
Definition value_reads (fuel : nat) : Prop :=
  forall num typ b n,
  ConsumeFieldValue_fuel fuel num typ b = n -> 0 <= n ->
  1 <= n <= Z.of_nat (length b)
  /\ forall fuel' b', n < Z.of_nat fuel' -> agree n b b' ->
       ConsumeFieldValue_fuel fuel' num typ b' = n.

Definition group_reads (fuel : nat) : Prop :=
  forall num b k,
  ConsumeGroup_fuel fuel num b = k -> 0 <= k ->
  1 <= k <= Z.of_nat (length b)
  /\ forall fuel' b', k <= Z.of_nat fuel' -> agree k b b' ->
       ConsumeGroup_fuel fuel' num b' = k.

Lemma value_reads_step (fuel : nat) :
  (forall f, fuel = S f -> group_reads f) -> value_reads fuel.
Proof.
  intros IH num typ b n H Hn. rewrite ConsumeFieldValue_fuel_eq in H.
  destruct (Z.eqb_spec typ VarintType) as [Ht|Ht0].
  { destruct (ConsumeVarint b) as [x k] eqn:Ev. cbn [snd] in H. subst k.
    apply ConsumeVarint_prefix in Ev as [Hr Hp]; [|done]. split; [done|].
    intros fuel' b' _ Hb'. rewrite ConsumeFieldValue_fuel_eq.
    destruct (Z.eqb_spec typ VarintType); [|done]. now rewrite (Hp b' Hb'). }
  destruct (Z.eqb_spec typ Fixed32Type) as [Ht|Ht1].
  { apply ConsumeFixed32_prefix in H as [Hr Hp]; [|done]. split; [done|].
    intros fuel' b' _ Hb'. rewrite ConsumeFieldValue_fuel_eq.
    destruct (Z.eqb_spec typ VarintType); [done|].
    destruct (Z.eqb_spec typ Fixed32Type); [|done]. now apply Hp. }
  destruct (Z.eqb_spec typ Fixed64Type) as [Ht|Ht2].
  { apply ConsumeFixed64_prefix in H as [Hr Hp]; [|done]. split; [done|].
    intros fuel' b' _ Hb'. rewrite ConsumeFieldValue_fuel_eq.
    destruct (Z.eqb_spec typ VarintType); [done|].
    destruct (Z.eqb_spec typ Fixed32Type); [done|].
    destruct (Z.eqb_spec typ Fixed64Type); [|done]. now apply Hp. }
  destruct (Z.eqb_spec typ BytesType) as [Ht|Ht3].
  { apply ConsumeBytes_prefix in H as [Hr Hp]; [|done]. split; [done|].
    intros fuel' b' _ Hb'. rewrite ConsumeFieldValue_fuel_eq.
    destruct (Z.eqb_spec typ VarintType); [done|].
    destruct (Z.eqb_spec typ Fixed32Type); [done|].
    destruct (Z.eqb_spec typ Fixed64Type); [done|].
    destruct (Z.eqb_spec typ BytesType); [|done]. now apply Hp. }
  destruct (Z.eqb_spec typ StartGroupType) as [Ht|Ht4].
  { destruct fuel as [|f]; [unfold errCodeTruncated in H; lia|].
    destruct (IH f eq_refl num b n H Hn) as [Hr Hp]. split; [done|].
    intros fuel' b' Hf Hb'. rewrite ConsumeFieldValue_fuel_eq.
    destruct (Z.eqb_spec typ VarintType); [done|].
    destruct (Z.eqb_spec typ Fixed32Type); [done|].
    destruct (Z.eqb_spec typ Fixed64Type); [done|].
    destruct (Z.eqb_spec typ BytesType); [done|].
    destruct (Z.eqb_spec typ StartGroupType); [|done].
    destruct fuel' as [|f']; [lia|]. apply Hp; [lia | done]. }
  destruct (Z.eqb_spec typ EndGroupType);
    unfold errCodeEndGroup, errCodeReserved in H; lia.
Qed.

Lemma group_reads_step (fuel : nat) :
  (forall f, fuel = S f -> value_reads f /\ group_reads f) ->
  group_reads fuel.
Proof.
  intros IH num b k H Hk. rewrite ConsumeGroup_fuel_eq in H.
  destruct (ConsumeTag b) as [[num2 typ2] n] eqn:Et.
  destruct (Z.ltb_spec n 0); [lia|].
  apply ConsumeTag_prefix in Et as [Hrt Hpt]; [|done].
  destruct (Z.eqb_spec typ2 EndGroupType) as [He|He].
  - destruct (Z.eqb_spec num num2) as [Hnum|Hnum]; cbn [negb] in H;
      [|unfold errCodeEndGroup in H; lia].
    subst k. split; [done|]. intros fuel' b' _ Hb'.
    rewrite ConsumeGroup_fuel_eq, (Hpt b' Hb').
    destruct (Z.ltb_spec n 0); [lia|].
    destruct (Z.eqb_spec typ2 EndGroupType); [|done].
    now destruct (Z.eqb_spec num num2).
  - destruct fuel as [|f]; [unfold errCodeTruncated in H; lia|].
    destruct (IH f eq_refl) as [IHv IHg].
    cbv zeta in H.
    set (b1 := drop (Z.to_nat n) b) in *.
    set (m := ConsumeFieldValue_fuel f num2 typ2 b1) in *.
    destruct (Z.ltb_spec m 0); [lia|].
    set (r := ConsumeGroup_fuel f num (drop (Z.to_nat m) b1)) in *.
    destruct (Z.ltb_spec r 0); [lia|]. subst k.
    destruct (IHv num2 typ2 b1 m eq_refl ltac:(lia)) as [Hrm Hpm].
    destruct (IHg num (drop (Z.to_nat m) b1) r eq_refl ltac:(lia))
      as [Hrr Hpr].
    subst b1. rewrite !length_drop in *. split; [lia|].
    intros fuel' b' Hf Hb'.
    replace (n + m + r) with (n + (m + r)) in Hb' by lia.
    apply agree_split in Hb' as [Hb0 Hb1]; [|lia..].
    apply agree_split in Hb1 as [Hb1 Hb2]; [|lia..].
    rewrite ConsumeGroup_fuel_eq, (Hpt b' Hb0).
    destruct (Z.ltb_spec n 0); [lia|].
    destruct (Z.eqb_spec typ2 EndGroupType); [done|].
    destruct fuel' as [|f']; [lia|]. cbv zeta.
    rewrite (Hpm f' (drop (Z.to_nat n) b') ltac:(lia) Hb1).
    destruct (Z.ltb_spec m 0); [lia|].
    rewrite (Hpr f' _ ltac:(lia) Hb2).
    now destruct (Z.ltb_spec r 0); [lia|].
Qed.

Lemma consumers_read (fuel : nat) : value_reads fuel /\ group_reads fuel.
Proof.
  induction fuel as [|f [IHv IHg]].
  - split; [apply value_reads_step | apply group_reads_step]; discriminate.
  - assert (Hg : group_reads (S f)).
    { apply group_reads_step. now intros ? [= <-]. }
    split; [|done]. apply value_reads_step. now intros ? [= <-].
Qed.

Lemma ConsumeFieldValue_prefix (num typ : Z) (b : list byte) (n : Z) :
  ConsumeFieldValue num typ b = n -> 0 <= n ->
  1 <= n <= Z.of_nat (length b)
  /\ forall b', agree n b b' -> ConsumeFieldValue num typ b' = n.
Proof.
  unfold ConsumeFieldValue. intros H Hn.
  destruct (proj1 (consumers_read _) _ _ _ _ H Hn) as [Hr Hp].
  split; [done|]. intros b' Hb'. apply Hp; [|done].
  pose proof (agree_length n b b' ltac:(lia) Hb'). lia.
Qed.

(** [ConsumeField] reads a prefix of at least two bytes, and reads the
    same record from every input that starts with that prefix. *)
Lemma ConsumeField_prefix (b : list byte) (num typ n : Z) :
  ConsumeField b = (num, typ, n) -> 0 <= n ->
  2 <= n <= Z.of_nat (length b)
  /\ forall b', agree n b b' -> ConsumeField b' = (num, typ, n).
Proof.
  unfold ConsumeField.
  destruct (ConsumeTag b) as [[num1 typ1] k] eqn:Et.
  destruct (Z.ltb_spec k 0); [intros [= <- <- <-] ?; lia|].
  set (m := ConsumeFieldValue num1 typ1 (drop (Z.to_nat k) b)).
  destruct (Z.ltb_spec m 0); [intros [= <- <- <-] ?; lia|].
  intros [= <- <- <-] _.
  apply ConsumeTag_prefix in Et as [Hrt Hpt]; [|done].
  destruct (ConsumeFieldValue_prefix num1 typ1 _ m eq_refl ltac:(lia))
    as [Hrm Hpm].
  rewrite length_drop in Hrm. split; [lia|]. intros b' Hb'.
  apply agree_split in Hb' as [Hb0 Hb1]; [|lia..].
  rewrite (Hpt b' Hb0). destruct (Z.ltb_spec k 0); [lia|].
  rewrite (Hpm _ Hb1). now destruct (Z.ltb_spec m 0); [lia|].
Qed.

End WireValue.

(** ** [RawFields.IsValid] *)

(** [shows h b bs]: in heap [h] the slice [b] is in bounds and shows the
    bytes [bs]. *)
Definition shows (h : heap) (b : slice) (bs : list byte) : Prop :=
  contents b h = Done bs h.

(** The length of the first record of [bs], negative on an error. *)
Definition consumed (bs : list byte) : Z :=
  let '(_, _, n) := wire.ConsumeField bs in n.

(** A well-formed wire record: a run of bytes that [ConsumeField]
    accepts and consumes whole. *)
Definition record (r : list byte) : bool :=
  consumed r =? Z.of_nat (length r).

(** [IsValid] returns [r] on [b], whatever fuel covers the run. *)
Definition IsValid_returns (h : heap) (b : slice) (r : bool) : Prop :=
  forall fuel, (slice_len b < fuel)%nat -> IsValid fuel b h = Done r h.

Lemma consumed_prefix (bs : list byte) :
  0 <= consumed bs ->
  2 <= consumed bs <= Z.of_nat (length bs)
  /\ forall bs', agree (consumed bs) bs bs' -> consumed bs' = consumed bs.
Proof.
  unfold consumed. destruct (wire.ConsumeField bs) as [[num typ] n] eqn:E.
  intros Hn. destruct (ConsumeField_prefix bs num typ n E Hn) as [Hr Hp].
  split; [done|]. intros bs' Hb. now rewrite (Hp bs' Hb).
Qed.

Lemma shows_len (h : heap) (b : slice) (bs : list byte) :
  shows h b bs -> slice_len b = length bs.
Proof.
  unfold shows, contents, load. unfold mbind, M_bind.
  destruct (h !! array b) as [[arr|]|]; try discriminate.
  destruct (Nat.leb_spec (high b) (length arr)); [|discriminate].
  intros [= <-]. rewrite length_take, length_drop. unfold slice_len. lia.
Qed.

(** The slice [b[n:]]. *)
Definition advance (b : slice) (n : Z) : slice :=
  {| array := array b; low := low b + Z.to_nat n; high := high b |}.

Lemma shows_reslice (h : heap) (b : slice) (bs : list byte) (n : Z) :
  shows h b bs -> 0 <= n <= Z.of_nat (length bs) ->
  reslice b n h = Done (advance b n) h
  /\ shows h (advance b n) (drop (Z.to_nat n) bs).
Proof.
  intros Hs Hn. pose proof (shows_len h b bs Hs) as Hl.
  unfold reslice. rewrite Hl.
  destruct (Z.leb_spec 0 n); [|lia].
  destruct (Z.leb_spec n (Z.of_nat (length bs))); [|lia]. cbn [andb].
  split; [reflexivity|].
  revert Hs. unfold advance. unfold shows, contents, load, mbind, M_bind. cbn [array high low].
  destruct (h !! array b) as [[arr|]|]; try discriminate.
  destruct (Nat.leb_spec (high b) (length arr)); [|discriminate].
  intros [= <-]. unfold mret, M_ret. f_equal.
  unfold slice_len in *. cbn [high low].
  rewrite skipn_firstn_comm, drop_drop. f_equal; lia.
Qed.

Lemma IsValid_nil (h : heap) (b : slice) (fuel : nat) :
  shows h b [] -> IsValid (S fuel) b h = Done true h.
Proof.
  intros Hs. apply shows_len in Hs. cbn [IsValid]. rewrite Hs. reflexivity.
Qed.

Lemma IsValid_error (h : heap) (b : slice) (bs : list byte) (fuel : nat) :
  shows h b bs -> bs <> [] -> consumed bs < 0 ->
  IsValid (S fuel) b h = Done false h.
Proof.
  intros Hs Hne Hc. pose proof (shows_len h b bs Hs) as Hl.
  cbn [IsValid]. rewrite Hl.
  destruct (Nat.ltb_spec 0 (length bs)); [|destruct bs; [done|cbn in *; lia]].
  rewrite (bind_Done _ _ _ _ _ Hs). unfold consumed in Hc.
  destruct (wire.ConsumeField bs) as [[num typ] n].
  now destruct (Z.ltb_spec n 0); [|lia].
Qed.

Lemma IsValid_step (h : heap) (b : slice) (bs : list byte) (fuel : nat) :
  shows h b bs -> bs <> [] -> 0 <= consumed bs ->
  shows h (advance b (consumed bs)) (drop (Z.to_nat (consumed bs)) bs)
  /\ IsValid (S fuel) b h = IsValid fuel (advance b (consumed bs)) h.
Proof.
  intros Hs Hne Hc. pose proof (shows_len h b bs Hs) as Hl.
  destruct (consumed_prefix bs Hc) as [Hr _].
  destruct (shows_reslice h b bs (consumed bs) Hs ltac:(lia))
    as (Hb' & Hs').
  split; [done|].
  cbn [IsValid]. rewrite Hl.
  destruct (Nat.ltb_spec 0 (length bs)); [|lia].
  rewrite (bind_Done _ _ _ _ _ Hs). unfold consumed in *.
  destruct (wire.ConsumeField bs) as [[num typ] n].
  destruct (Z.ltb_spec n 0); [lia|].
  now rewrite (bind_Done _ _ _ _ _ Hb').
Qed.

Lemma IsValid_total (n : nat) :
  forall (h : heap) (b : slice) (bs : list byte),
  (length bs <= n)%nat -> shows h b bs ->
  exists r, IsValid_returns h b r.
Proof.
  unfold IsValid_returns.
  induction n as [|n IH]; intros h b bs Hn Hs;
    pose proof (shows_len h b bs Hs) as Hl; rewrite Hl.
  - destruct bs; [|cbn in Hn; lia]. exists true.
    intros [|fuel] Hf; [cbn in Hf; lia|]. now apply IsValid_nil.
  - destruct (decide (bs = [])) as [->|Hne].
    { exists true. intros [|fuel] Hf; [cbn in Hf; lia|]. now apply IsValid_nil. }
    destruct (Z.lt_ge_cases (consumed bs) 0) as [Hc|Hc].
    { exists false. intros [|fuel] Hf; [lia|]. now apply (IsValid_error h b bs). }
    destruct (consumed_prefix bs Hc) as [Hr _].
    destruct (IsValid_step h b bs 0 Hs Hne Hc) as (Hs' & _).
    assert (Hd : (length (drop (Z.to_nat (consumed bs)) bs) <= n)%nat)
      by (rewrite length_drop; lia).
    destruct (IH h _ _ Hd Hs') as [r Hr'].
    rewrite (shows_len _ _ _ Hs'), length_drop in Hr'.
    exists r. intros [|fuel] Hf; [lia|].
    destruct (IsValid_step h b bs fuel Hs Hne Hc) as (_ & ->).
    apply Hr'. lia.
Qed.

Lemma IsValid_returns_unique (h : heap) (b : slice) (r1 r2 : bool) :
  IsValid_returns h b r1 -> IsValid_returns h b r2 -> r1 = r2.
Proof.
  intros H1 H2. specialize (H1 (S (slice_len b)) ltac:(lia)).
  specialize (H2 (S (slice_len b)) ltac:(lia)). congruence.
Qed.

Lemma IsValid_returns_step (h : heap) (b : slice) (bs : list byte) (r : bool) :
  shows h b bs -> bs <> [] -> 0 <= consumed bs ->
  (IsValid_returns h b r <-> IsValid_returns h (advance b (consumed bs)) r).
Proof.
  intros Hs Hne Hc. destruct (consumed_prefix bs Hc) as [Hr _].
  pose proof (shows_len _ _ _ Hs) as Hl.
  pose proof (proj1 (IsValid_step h b bs 0 Hs Hne Hc)) as Hs'.
  pose proof (shows_len _ _ _ Hs') as Hl'. rewrite length_drop in Hl'.
  split; intros H.
  - destruct (IsValid_total _ h _ _ (Nat.le_refl _) Hs') as [r' Hr'].
    replace r with r'; [done|].
    specialize (H (S (S (slice_len b))) ltac:(lia)).
    rewrite (proj2 (IsValid_step h b bs _ Hs Hne Hc)) in H.
    rewrite Hr' in H by lia. congruence.
  - intros [|fuel] Hf; [lia|].
    rewrite (proj2 (IsValid_step h b bs fuel Hs Hne Hc)). apply H. lia.
Qed.

Lemma record_consumed (r : list byte) :
  record r = true ->
  consumed r = Z.of_nat (length r) /\ (2 <= length r)%nat.
Proof.
  unfold record. intros H%Z.eqb_eq. split; [done|].
  destruct (consumed_prefix r ltac:(lia)) as [Hr _]. lia.
Qed.

Lemma consumed_app (r t : list byte) :
  record r = true -> consumed (r ++ t) = Z.of_nat (length r).
Proof.
  intros [Hc Hl]%record_consumed.
  destruct (consumed_prefix r ltac:(lia)) as [_ Hp].
  rewrite <- Hc. apply Hp. unfold agree. rewrite Hc, Nat2Z.id.
  now rewrite take_app_length, firstn_all.
Qed.

Lemma records_nonempty (recs : list (list byte)) :
  forallb record recs = true -> recs <> [] -> concat recs <> [].
Proof.
  destruct recs as [|r recs]; [done|]. cbn [forallb concat].
  intros [Hr%record_consumed _]%andb_true_iff _.
  destruct r; [cbn in Hr; lia | done].
Qed.

(** A run of well-formed records is valid. *)
Lemma IsValid_concat (h : heap) (recs : list (list byte)) :
  forall b, shows h b (concat recs) -> forallb record recs = true ->
  IsValid_returns h b true.
Proof.
  induction recs as [|r recs IH]; intros b Hs Hrecs.
  - intros [|fuel] Hf; [lia|]. now apply IsValid_nil.
  - cbn [forallb] in Hrecs. apply andb_true_iff in Hrecs as [Hr Hrecs].
    cbn [concat] in Hs. pose proof (record_consumed r Hr) as [Hc Hl].
    pose proof (consumed_app r (concat recs) Hr) as Hc'.
    assert (Hne : r ++ concat recs <> []) by (destruct r; [cbn in Hl; lia|done]).
    apply (IsValid_returns_step h b _ true Hs Hne); [lia|].
    apply IH; [|done].
    pose proof (proj1 (IsValid_step h b _ 0 Hs Hne ltac:(lia))) as Hs'.
    rewrite Hc' in Hs' |- *.
    now rewrite Nat2Z.id, drop_app_length in Hs'.
Qed.

(** A valid run is a run of well-formed records. *)
Lemma IsValid_inv (n : nat) :
  forall (h : heap) (b : slice) (bs : list byte),
  (length bs <= n)%nat -> shows h b bs -> IsValid_returns h b true ->
  exists recs, forallb record recs = true /\ bs = concat recs.
Proof.
  induction n as [|n IH]; intros h b bs Hn Hs Hv.
  - destruct bs; [|cbn in Hn; lia]. now exists [].
  - destruct (decide (bs = [])) as [->|Hne]; [now exists []|].
    pose proof (shows_len _ _ _ Hs) as Hl.
    destruct (Z.lt_ge_cases (consumed bs) 0) as [Hc|Hc].
    { specialize (Hv (S (slice_len b)) ltac:(lia)).
      rewrite (IsValid_error h b bs _ Hs Hne Hc) in Hv. discriminate Hv. }
    destruct (consumed_prefix bs Hc) as [Hr Hp].
    pose proof (proj1 (IsValid_step h b bs 0 Hs Hne Hc)) as Hs'.
    apply (IsValid_returns_step h b bs true Hs Hne Hc) in Hv.
    assert (Hdl : (length (drop (Z.to_nat (consumed bs)) bs) <= n)%nat)
      by (rewrite length_drop; lia).
    destruct (IH h _ _ Hdl Hs' Hv) as (recs & Hrecs & Hd).
    exists (take (Z.to_nat (consumed bs)) bs :: recs). split.
    + cbn [forallb]. rewrite Hrecs, andb_true_r. unfold record.
      rewrite (Hp (take (Z.to_nat (consumed bs)) bs)).
      * rewrite length_take. apply Z.eqb_eq. lia.
      * unfold agree. now rewrite take_take, Nat.min_id.
    + cbn [concat]. rewrite <- Hd. now rewrite take_drop.
Qed.

(** A run of well-formed records without its last byte is not valid. *)
Lemma IsValid_truncated (h : heap) (recs : list (list byte)) :
  forall b, recs <> [] -> forallb record recs = true ->
  shows h b (removelast (concat recs)) -> IsValid_returns h b false.
Proof.
  induction recs as [|r recs IH]; intros b Hne Hrecs Hs; [done|].
  cbn [forallb] in Hrecs. apply andb_true_iff in Hrecs as [Hr Hrecs].
  pose proof (record_consumed r Hr) as [Hc Hl].
  cbn [concat] in Hs. destruct recs as [|r' recs].
  - cbn [concat] in Hs. rewrite app_nil_r in Hs.
    assert (Hlen : length (removelast r) = (length r - 1)%nat).
    { destruct r as [|x r] using rev_ind; [done|].
      rewrite removelast_last, length_app. cbn. lia. }
    assert (Hne' : removelast r <> []) by (intros E; rewrite E in Hlen; cbn in Hlen; lia).
    intros [|fuel] Hf; [lia|].
    apply (IsValid_error h b _ fuel Hs Hne').
    destruct (Z.lt_ge_cases (consumed (removelast r)) 0) as [|Hge]; [done|].
    exfalso. destruct (consumed_prefix _ Hge) as [Hb Hp].
    assert (Ha : agree (consumed (removelast r)) (removelast r) r).
    { unfold agree. destruct r as [|x r _] using rev_ind; [done|].
      rewrite removelast_last in *. rewrite take_app_le; [done|lia]. }
    rewrite (Hp r Ha) in Hc. lia.
  - assert (Hrest : concat (r' :: recs) <> []) by now apply records_nonempty.
    rewrite removelast_app in Hs by done.
    pose proof (consumed_app r (removelast (concat (r' :: recs))) Hr) as Hc'.
    assert (Hne' : r ++ removelast (concat (r' :: recs)) <> [])
      by (destruct r; [cbn in Hl; lia|done]).
    apply (IsValid_returns_step h b _ false Hs Hne'); [lia|].
    apply IH; [done | done |].
    pose proof (proj1 (IsValid_step h b _ 0 Hs Hne' ltac:(lia))) as Hs'.
    rewrite Hc' in Hs' |- *.
    now rewrite Nat2Z.id, drop_app_length in Hs'.
Qed.

(** C3.  On every byte run [IsValid] terminates with a boolean: each
    turn of its loop either fails or consumes at least two bytes, so
    any fuel above the length of the run is enough, and the call never
    panics on the slice expression [b[n:]]. *)
Theorem IsValid_terminates (h : heap) (b : RawFields) (bs : list byte) :
  shows h b bs ->
  exists r, forall fuel, (length bs < fuel)%nat -> IsValid fuel b h = Done r h.
Proof.
  intros Hs. destruct (IsValid_total _ h b bs (Nat.le_refl _) Hs) as [r Hr].
  exists r. intros fuel Hf. apply Hr. now rewrite (shows_len _ _ _ Hs).
Qed.

Definition sample : list byte :=
  [x08; x96; x01; x12; x02; x68; x69; x1b; x08; x01; x1c; x0d;
   x00; x00; x00; x00].

Lemma IsValid_terminates_witness :
  exists r, forall fuel, (length sample < fuel)%nat ->
    IsValid fuel {| array := 0%nat; low := 0%nat; high := 16%nat |} [Bytes sample]
    = Done r [Bytes sample].
Proof.
  apply (IsValid_terminates [Bytes sample]
           {| array := 0%nat; low := 0%nat; high := 16%nat |} sample).
  reflexivity.
Defined.

Lemma bind_unfold {A B} (m : M A) (f : A -> M B) (h : heap) :
  (m ≫= f) h = match m h with
               | Done a h' => f a h'
               | Panic => Panic
               | OutOfFuel => OutOfFuel
               end.
Proof. reflexivity. Qed.

Lemma contents_frame (b : slice) (h h' : heap) (bs : list byte) :
  contents b h = Done bs h' -> h' = h.
Proof.
  unfold contents. rewrite bind_unfold. unfold load.
  destruct (h !! array b) as [[arr|ws]|]; try discriminate.
  destruct (high b <=? length arr)%nat; [|discriminate].
  now intros [= _ <-].
Qed.

(** C7.  [IsValid] never mutates: whenever a call completes, the heap,
    and with it every byte of the array behind the receiver, is the one
    the call started from. *)
Theorem IsValid_frame (fuel : nat) (b : RawFields) (h : heap) :
  match IsValid fuel b h with
  | Done _ h' => h' = h
  | Panic | OutOfFuel => True
  end.
Proof.
  revert b. induction fuel as [|fuel IH]; intros b; [exact I|].
  cbn [IsValid]. destruct (0 <? slice_len b)%nat; [|reflexivity].
  rewrite bind_unfold.
  destruct (contents b h) as [bs h'| |] eqn:E; [|exact I..].
  apply contents_frame in E as ->.
  destruct (wire.ConsumeField bs) as [[num typ] n].
  destruct (n <? 0); [reflexivity|]. rewrite bind_unfold. unfold reslice.
  destruct ((0 <=? n) && (n <=? Z.of_nat (slice_len b))); [|exact I].
  apply IH.
Qed.

(** C1.  [IsValid] returns true exactly on the runs that are a
    concatenation of zero or more well-formed wire records, and it
    returns false on such a run, if not empty, with its last byte
    removed. *)
Theorem IsValid_records (h : heap) (b : RawFields) (bs : list byte) :
  shows h b bs ->
  (IsValid_returns h b true
   <-> exists recs, forallb record recs = true /\ bs = concat recs)
  /\ (forall recs, recs <> [] -> forallb record recs = true ->
      bs = removelast (concat recs) -> IsValid_returns h b false).
Proof.
  intros Hs. split; [split|].
  - now apply (IsValid_inv (length bs)).
  - intros (recs & Hrecs & ->). now apply (IsValid_concat h recs).
  - intros recs Hne Hrecs ->. now apply (IsValid_truncated h recs).
Qed.

Lemma IsValid_records_witness :
  (IsValid_returns [Bytes sample] {| array := 0%nat; low := 0%nat; high := 16%nat |} true
   <-> exists recs, forallb record recs = true /\ sample = concat recs)
  /\ (forall recs, recs <> [] -> forallb record recs = true ->
      sample = removelast (concat recs) ->
      IsValid_returns [Bytes sample]
        {| array := 0%nat; low := 0%nat; high := 16%nat |} false).
Proof.
  apply (IsValid_records [Bytes sample]
           {| array := 0%nat; low := 0%nat; high := 16%nat |} sample).
  reflexivity.
Defined.

(** The sample run is four records: a varint field, a bytes field, a
    group holding a varint field, and a fixed32 field. *)
Example sample_records :
  sample = concat [[x08; x96; x01]; [x12; x02; x68; x69];
                   [x1b; x08; x01; x1c]; [x0d; x00; x00; x00; x00]]
  /\ forallb record [[x08; x96; x01]; [x12; x02; x68; x69];
                     [x1b; x08; x01; x1c]; [x0d; x00; x00; x00; x00]] = true.
Proof. split; vm_compute; reflexivity. Qed.

Example IsValid_sample :
  IsValid 17 {| array := 0%nat; low := 0%nat; high := 16%nat |} [Bytes sample]
  = Done true [Bytes sample]
  /\ IsValid 17 {| array := 0%nat; low := 0%nat; high := 15%nat |} [Bytes sample]
     = Done false [Bytes sample].
Proof. split; vm_compute; reflexivity. Qed.

(** * Further properties of the naming helpers and of [IsValid] *)

(** ** Writing a rune and reading it back *)

Section Utf8Encode.
Import utf8.

Ltac euclid := Z.to_euclidean_division_equations; lia.

(** The rune [WriteRune] puts in the buffer: [r] itself, or U+FFFD for
    a value that is no Unicode scalar. *)
Definition written (r : rune) : rune :=
  if (r <? 0) || (MaxRune <? r)
     || ((surrogateMin <=? r) && (r <=? surrogateMax))
  then RuneError else r.

Lemma EncodeRune_error : EncodeRune RuneError = [xef; xbf; xbd].
Proof. reflexivity. Qed.

Lemma error_decoded : decoded [xef; xbf; xbd] RuneError 3.
Proof.
  change RuneError
    with ((byte_val xef mod 16) * 4096 + (byte_val xbf mod 64) * 64
          + byte_val xbd mod 64).
  constructor; vm_compute; try split; congruence.
Qed.

Lemma EncodeRune_decoded (r : rune) :
  decoded (EncodeRune r) (written r) (length (EncodeRune r)).
Proof.
  unfold EncodeRune, written, MaxRune, surrogateMin, surrogateMax.
  destruct (Z.leb_spec 0 r); cycle 1.
  { destruct (Z.ltb_spec r 0); [|lia]. cbn. apply error_decoded. }
  destruct (Z.ltb_spec r 0); [lia|]. cbn [andb orb].
  destruct (Z.leb_spec r 127).
  { destruct (Z.ltb_spec 1114111 r); [lia|].
    destruct (Z.leb_spec 55296 r); [lia|]. cbn.
    rewrite <- (byte_val_of r) at 2 by lia. constructor.
    rewrite byte_val_of; lia. }
  destruct (Z.leb_spec r 2047).
  { destruct (Z.ltb_spec 1114111 r); [lia|].
    destruct (Z.leb_spec 55296 r); [lia|]. cbn [andb orb length].
    rewrite lor_cont, shiftr_div by lia. change (2 ^ 6) with 64.
    rewrite lor_lead2 by euclid.
    set (b0 := byte_of (192 + r / 64)). set (b1 := byte_of (128 + r mod 64)).
    assert (E0 : byte_val b0 = 192 + r / 64)
      by (subst b0; apply byte_val_of; euclid).
    assert (E1 : byte_val b1 = 128 + r mod 64)
      by (subst b1; apply byte_val_of; euclid).
    assert (Er : r = ((byte_val b0 mod 32) * 64 + byte_val b1 mod 64))
      by (rewrite E0, E1; euclid).
    rewrite Er at 1.
    constructor; rewrite ?E0, ?E1; euclid. }
  destruct (Z.ltb_spec 1114111 r); [apply error_decoded|]. cbn [orb].
  destruct ((55296 <=? r) && (r <=? 57343)) eqn:Hs; [apply error_decoded|].
  assert (Hns : ~ (55296 <= r <= 57343)).
  { intros [? ?]. apply andb_false_iff in Hs as [?%Z.leb_gt|?%Z.leb_gt]; lia. }
  clear Hs. destruct (Z.leb_spec r 65535).
  - cbn [length]. rewrite !lor_cont, !shiftr_div by lia.
    change (2 ^ 6) with 64. change (2 ^ 12) with 4096.
    rewrite lor_lead3 by euclid.
    set (b0 := byte_of (224 + r / 4096)).
    set (b1 := byte_of (128 + (r / 64) mod 64)).
    set (b2 := byte_of (128 + r mod 64)).
    assert (E0 : byte_val b0 = 224 + r / 4096)
      by (subst b0; apply byte_val_of; euclid).
    assert (E1 : byte_val b1 = 128 + (r / 64) mod 64)
      by (subst b1; apply byte_val_of; euclid).
    assert (E2 : byte_val b2 = 128 + r mod 64)
      by (subst b2; apply byte_val_of; euclid).
    assert (Er : r = ((byte_val b0 mod 16) * 4096 + (byte_val b1 mod 64) * 64
                    + byte_val b2 mod 64))
      by (rewrite E0, E1, E2; euclid).
    rewrite Er at 1.
    constructor; rewrite ?E0, ?E1, ?E2; euclid.
  - cbn [length]. rewrite !lor_cont, !shiftr_div by lia.
    change (2 ^ 6) with 64. change (2 ^ 12) with 4096.
    change (2 ^ 18) with 262144.
    rewrite lor_lead4 by euclid.
    set (b0 := byte_of (240 + r / 262144)).
    set (b1 := byte_of (128 + (r / 4096) mod 64)).
    set (b2 := byte_of (128 + (r / 64) mod 64)).
    set (b3 := byte_of (128 + r mod 64)).
    assert (E0 : byte_val b0 = 240 + r / 262144)
      by (subst b0; apply byte_val_of; euclid).
    assert (E1 : byte_val b1 = 128 + (r / 4096) mod 64)
      by (subst b1; apply byte_val_of; euclid).
    assert (E2 : byte_val b2 = 128 + (r / 64) mod 64)
      by (subst b2; apply byte_val_of; euclid).
    assert (E3 : byte_val b3 = 128 + r mod 64)
      by (subst b3; apply byte_val_of; euclid).
    assert (Er : r = ((byte_val b0 mod 8) * 262144
                    + (byte_val b1 mod 64) * 4096
                    + (byte_val b2 mod 64) * 64 + byte_val b3 mod 64))
      by (rewrite E0, E1, E2, E3; euclid).
    rewrite Er at 1.
    constructor; rewrite ?E0, ?E1, ?E2, ?E3; euclid.
Qed.

End Utf8Encode.

Lemma EncodeRune_wf (r : rune) : wf_chunk (written r, utf8.EncodeRune r).
Proof.
  pose proof (EncodeRune_decoded r) as Hd.
  split; [exact Hd|]. cbn [fst snd].
  assert (Hne : utf8.EncodeRune r <> []).
  { unfold utf8.EncodeRune.
    repeat match goal with
    | |- context [if ?c then _ else _] => destruct c
    end; discriminate. }
  split; [exact Hne|].
  unfold utf8.invalid. cbn [fst snd].
  destruct (Z.eqb_spec (written r) utf8.RuneError) as [He|]; [|reflexivity].
  cbn [andb]. apply Nat.leb_gt.
  revert He. unfold written, utf8.EncodeRune, utf8.RuneError, utf8.MaxRune,
    utf8.surrogateMin, utf8.surrogateMax.
  repeat match goal with
  | |- context [?a <=? ?b] => destruct (Z.leb_spec a b)
  | |- context [?a <? ?b] => destruct (Z.ltb_spec a b)
  end; cbn; lia.
Qed.

(** Reading back what [WriteRune] wrote: one rune for each rune written,
    none of them an invalid byte. *)
Lemma chunks_string_of_runes (rs : list rune) :
  utf8.chunks (string_of_runes rs)
  = map (fun r => (written r, utf8.EncodeRune r)) rs.
Proof.
  pose proof (chunks_concat_wf
                (map (fun r => (written r, utf8.EncodeRune r)) rs) []) as H.
  rewrite map_map, !app_nil_r in H. cbn [snd] in H. apply H.
  apply Forall_map, Forall_forall. intros r _. apply EncodeRune_wf.
Qed.

(** A string is well-formed UTF-8 when no step of a [range] loop over it
    reads an invalid byte. *)
Definition well_formed (s : gostring) : bool :=
  forallb (fun c => negb (utf8.invalid c)) (utf8.chunks s).

Lemma well_formed_chunks (s : gostring) :
  well_formed s = true -> Forall wf_chunk (utf8.chunks s).
Proof.
  unfold well_formed. rewrite forallb_forall. intros Hs.
  pose proof (chunks_wf_or_invalid s) as Hc.
  rewrite Forall_forall in Hc |- *. intros c Hin.
  destruct (Hc c Hin) as [?|[He Hl]]; [done|].
  apply list_elem_of_In, Hs in Hin. unfold utf8.invalid in Hin.
  rewrite He, Hl in Hin. discriminate Hin.
Qed.

Lemma string_of_runes_read (s : gostring) :
  well_formed s = true -> string_of_runes (runes s) = s.
Proof.
  intros Hs%well_formed_chunks. rewrite <- (chunks_bytes s) at 2.
  unfold string_of_runes, runes.
  induction Hs as [|c cs Hc _ IH]; [done|].
  cbn [map concat]. now rewrite IH, wf_chunk_encode.
Qed.

Lemma string_of_runes_well_formed (rs : list rune) :
  well_formed (string_of_runes rs) = true.
Proof.
  unfold well_formed. rewrite chunks_string_of_runes.
  apply forallb_forall. intros c [r [<- _]]%in_map_iff.
  now destruct (EncodeRune_wf r) as (_ & _ & ->).
Qed.

Section SnakeFacts.
Context (U : unicode.Tables).

Lemma snake_every_upper_none (rs : list rune) :
  forallb (fun r => negb (unicode.IsUpper U r)) rs = true ->
  snake_every_upper U rs = rs.
Proof.
  induction rs as [|r rs IH]; [done|]. cbn [forallb].
  intros [Hr Hrs]%andb_true_iff. cbn [snake_every_upper flat_map].
  apply negb_true_iff in Hr. rewrite Hr. cbn [app]. f_equal. now apply IH.
Qed.

Lemma snake_runes_none (rs : list rune) :
  forallb (fun r => negb (unicode.IsUpper U r)) rs = true ->
  snake_runes U rs = rs.
Proof.
  destruct rs as [|r rs]; [done|]. cbn [forallb].
  intros [Hr Hrs]%andb_true_iff. cbn [snake_runes].
  apply negb_true_iff in Hr. rewrite Hr. cbn [app]. f_equal.
  now apply snake_every_upper_none.
Qed.

Lemma ToSnakeCase_returns (s : gostring) :
  returns (ToSnakeCase U s) (string_of_runes (snake_runes U (runes s))).
Proof. intros h. eexists. rewrite ToSnakeCase_run, snake_steps. reflexivity. Qed.

End SnakeFacts.

(** X3.  [ToSnakeCase] returns its argument unchanged when the argument is
    well-formed UTF-8 and holds no upper-case letter; this includes the
    empty string. *)
Theorem ToSnakeCase_unchanged (U : unicode.Tables) (s : gostring) :
  well_formed s = true ->
  forallb (fun r => negb (unicode.IsUpper U r)) (runes s) = true ->
  returns (ToSnakeCase U s) s.
Proof.
  intros Hwf Hup. pose proof (ToSnakeCase_returns U s) as H.
  now rewrite snake_runes_none, string_of_runes_read in H.
Qed.

Lemma ToSnakeCase_unchanged_witness :
  returns (ToSnakeCase unicode.Latin1 (str "my_variable_name"))
          (str "my_variable_name").
Proof.
  apply (ToSnakeCase_unchanged unicode.Latin1 (str "my_variable_name"));
    reflexivity.
Defined.

(** X4.  The result of [ToSnakeCase] is well-formed UTF-8 whatever the
    argument: each invalid byte of the argument, and each value that is
    no Unicode scalar, is written as U+FFFD. *)
Theorem ToSnakeCase_well_formed (U : unicode.Tables) (s : gostring) :
  exists r, returns (ToSnakeCase U s) r /\ well_formed r = true.
Proof.
  eexists. split; [apply ToSnakeCase_returns|].
  apply string_of_runes_well_formed.
Qed.

(** ** The functions on ASCII strings *)

Definition upper_byte (b : byte) : bool := unicode.between 65 90 (byte_val b).
Definition digit_byte (b : byte) : bool := unicode.between 48 57 (byte_val b).

(** An ASCII letter or digit. *)
Definition alnum_byte (b : byte) : bool :=
  upper_byte b || lower_byte b || digit_byte b.

Definition to_lower (b : byte) : byte :=
  if upper_byte b then byte_of (byte_val b + 32) else b.

Definition to_upper (b : byte) : byte :=
  if lower_byte b then byte_of (byte_val b - 32) else b.

Ltac byte_cases :=
  unfold alnum_byte, upper_byte, lower_byte, digit_byte, to_lower, to_upper,
    unicode.ascii_letter, unicode.ascii_upper, unicode.ascii_lower,
    unicode.ascii_digit, unicode.between in *;
  repeat match goal with
  | |- context [?a <=? ?b] => destruct (Z.leb_spec a b)
  | H : context [?a <=? ?b] |- _ => destruct (Z.leb_spec a b)
  end; cbn [andb orb negb] in *.

Lemma upper_byte_range (b : byte) : upper_byte b = true -> 65 <= byte_val b <= 90.
Proof. unfold upper_byte, unicode.between. lia. Qed.

Lemma alnum_byte_ascii (b : byte) : alnum_byte b = true -> byte_val b < 128.
Proof. byte_cases; intros; try discriminate; lia. Qed.

Lemma to_lower_val (b : byte) :
  byte_val (to_lower b) = if upper_byte b then byte_val b + 32 else byte_val b.
Proof.
  unfold to_lower. destruct (upper_byte b) eqn:E; [|done].
  apply upper_byte_range in E. rewrite byte_val_of; lia.
Qed.

Lemma to_upper_val (b : byte) :
  byte_val (to_upper b) = if lower_byte b then byte_val b - 32 else byte_val b.
Proof.
  unfold to_upper. destruct (lower_byte b) eqn:E; [|done].
  apply lower_byte_range in E. rewrite byte_val_of; lia.
Qed.

Lemma to_lower_ascii (b : byte) : byte_val b < 128 -> byte_val (to_lower b) < 128.
Proof.
  intros Hb. rewrite to_lower_val. destruct (upper_byte b) eqn:E; [|done].
  apply upper_byte_range in E. lia.
Qed.

Lemma to_upper_ascii (b : byte) : byte_val b < 128 -> byte_val (to_upper b) < 128.
Proof.
  intros Hb. rewrite to_upper_val. destruct (lower_byte b) eqn:E; [|done].
  apply lower_byte_range in E. lia.
Qed.

Lemma to_lower_not_upper (b : byte) : upper_byte (to_lower b) = false.
Proof.
  unfold upper_byte at 1. rewrite to_lower_val.
  destruct (upper_byte b) eqn:E.
  - apply upper_byte_range in E. unfold unicode.between.
    destruct (Z.leb_spec (byte_val b + 32) 90); [lia|]. apply andb_false_r.
  - exact E.
Qed.

Lemma to_upper_lower (b : byte) : to_upper (to_lower b) = to_upper b.
Proof.
  apply byte_val_inj. rewrite !to_upper_val.
  unfold lower_byte. rewrite to_lower_val.
  pose proof (byte_val_range b).
  destruct (upper_byte b) eqn:E.
  - apply upper_byte_range in E. unfold unicode.between.
    destruct (Z.leb_spec 97 (byte_val b + 32)); [|lia].
    destruct (Z.leb_spec (byte_val b + 32) 122); [|lia].
    destruct (Z.leb_spec 97 (byte_val b)); [lia|]. cbn. lia.
  - reflexivity.
Qed.

Lemma to_lower_upper (b : byte) : to_lower (to_upper b) = to_lower b.
Proof.
  apply byte_val_inj. rewrite !to_lower_val.
  unfold upper_byte. rewrite to_upper_val.
  pose proof (byte_val_range b).
  destruct (lower_byte b) eqn:E.
  - apply lower_byte_range in E. unfold unicode.between.
    destruct (Z.leb_spec 65 (byte_val b - 32)); [|lia].
    destruct (Z.leb_spec (byte_val b - 32) 90); [|lia].
    destruct (Z.leb_spec (byte_val b) 90); [lia|].
    rewrite andb_false_r. cbn. lia.
  - reflexivity.
Qed.

Lemma to_upper_idem (b : byte) : to_upper (to_upper b) = to_upper b.
Proof.
  unfold to_upper at 1. destruct (lower_byte (to_upper b)) eqn:E; [|done].
  apply lower_byte_range in E. rewrite to_upper_val in E.
  destruct (lower_byte b) eqn:E'.
  - apply lower_byte_range in E'. lia.
  - unfold to_upper in *. rewrite E' in *. unfold lower_byte in E'.
    unfold unicode.between in E'.
    destruct (Z.leb_spec 97 (byte_val b)), (Z.leb_spec (byte_val b) 122);
      cbn in E'; try discriminate; lia.
Qed.

Lemma to_lower_idem (b : byte) : to_lower (to_lower b) = to_lower b.
Proof. unfold to_lower at 1. now rewrite to_lower_not_upper. Qed.

Lemma alnum_to_upper (b : byte) : alnum_byte (to_upper b) = alnum_byte b.
Proof.
  unfold alnum_byte, upper_byte, lower_byte, digit_byte.
  rewrite to_upper_val. pose proof (byte_val_range b).
  destruct (lower_byte b) eqn:E; [|reflexivity].
  apply lower_byte_range in E. unfold unicode.between.
  repeat match goal with
  | |- context [?a <=? ?b] => destruct (Z.leb_spec a b)
  end; cbn; try reflexivity; lia.
Qed.

Lemma alnum_to_lower (b : byte) : alnum_byte (to_lower b) = alnum_byte b.
Proof.
  unfold alnum_byte, lower_byte, digit_byte. unfold upper_byte at 1.
  rewrite to_lower_val. pose proof (byte_val_range b).
  destruct (upper_byte b) eqn:E; [|now rewrite <- E].
  apply upper_byte_range in E. unfold unicode.between.
  repeat match goal with
  | |- context [?a <=? ?b] => destruct (Z.leb_spec a b)
  end; cbn; try reflexivity; lia.
Qed.

Section AsciiTables.
Context (U : unicode.Tables) (HU : unicode.Laws U).

Lemma ascii_sep (b : byte) :
  byte_val b < 128 -> notLetterOrNumber U (byte_val b) = negb (alnum_byte b).
Proof.
  intros Hb. pose proof (byte_val_range b). unfold notLetterOrNumber.
  rewrite (unicode.ascii_IsLetter U HU), (unicode.ascii_IsNumber U HU) by lia.
  unfold alnum_byte, upper_byte, lower_byte, digit_byte,
    unicode.ascii_letter, unicode.ascii_upper, unicode.ascii_lower,
    unicode.ascii_digit.
  symmetry. apply negb_orb.
Qed.

Lemma ascii_upper_byte (b : byte) :
  byte_val b < 128 -> unicode.IsUpper U (byte_val b) = upper_byte b.
Proof.
  intros Hb. pose proof (byte_val_range b).
  now rewrite (unicode.ascii_IsUpper U HU) by lia.
Qed.

Lemma ascii_to_lower (b : byte) :
  byte_val b < 128 -> unicode.ToLower U (byte_val b) = byte_val (to_lower b).
Proof.
  intros Hb. pose proof (byte_val_range b).
  rewrite (unicode.ascii_ToLower U HU), to_lower_val by lia. reflexivity.
Qed.

Lemma ascii_to_title (b : byte) :
  byte_val b < 128 -> unicode.ToTitle U (byte_val b) = byte_val (to_upper b).
Proof.
  intros Hb. pose proof (byte_val_range b).
  rewrite (unicode.ascii_ToTitle U HU), to_upper_val by lia. reflexivity.
Qed.

End AsciiTables.

(** [ToSnakeCase] byte by byte, for an ASCII argument. *)
Definition asnake_rest (s : gostring) : gostring :=
  flat_map (fun b => if upper_byte b then [x5f; to_lower b] else [b]) s.

Definition asnake (s : gostring) : gostring :=
  match s with
  | [] => []
  | b :: s' => to_lower b :: asnake_rest s'
  end.

Lemma asnake_rest_ascii (s : gostring) : is_ascii s -> is_ascii (asnake_rest s).
Proof.
  induction 1 as [|b s Hb _ IH]; [constructor|].
  cbn [asnake_rest flat_map]. destruct (upper_byte b); cbn [app].
  - constructor; [vm_compute; reflexivity|].
    constructor; [now apply to_lower_ascii | exact IH].
  - now constructor.
Qed.

Lemma asnake_ascii (s : gostring) : is_ascii s -> is_ascii (asnake s).
Proof.
  destruct 1 as [|b s Hb Hs]; [constructor|]. cbn [asnake].
  constructor; [now apply to_lower_ascii | now apply asnake_rest_ascii].
Qed.

Lemma asnake_rest_no_upper (s : gostring) :
  forallb (fun b => negb (upper_byte b)) (asnake_rest s) = true.
Proof.
  induction s as [|b s IH]; [done|]. cbn [asnake_rest flat_map].
  destruct (upper_byte b) eqn:E; cbn [app forallb].
  - rewrite to_lower_not_upper. exact IH.
  - rewrite E. exact IH.
Qed.

Lemma asnake_no_upper (s : gostring) :
  forallb (fun b => negb (upper_byte b)) (asnake s) = true.
Proof.
  destruct s as [|b s]; [done|]. cbn [asnake forallb].
  rewrite to_lower_not_upper. apply asnake_rest_no_upper.
Qed.

Lemma asnake_rest_fixed (s : gostring) :
  forallb (fun b => negb (upper_byte b)) s = true -> asnake_rest s = s.
Proof.
  induction s as [|b s IH]; [done|]. cbn [forallb].
  intros [Hb Hs]%andb_true_iff. apply negb_true_iff in Hb.
  cbn [asnake_rest flat_map]. rewrite Hb. cbn [app]. f_equal. now apply IH.
Qed.

Lemma asnake_fixed (s : gostring) :
  forallb (fun b => negb (upper_byte b)) s = true -> asnake s = s.
Proof.
  destruct s as [|b s]; [done|]. cbn [forallb].
  intros [Hb Hs]%andb_true_iff. apply negb_true_iff in Hb.
  cbn [asnake]. unfold to_lower. rewrite Hb. f_equal.
  now apply asnake_rest_fixed.
Qed.

Lemma asnake_rest_length (s : gostring) :
  length (asnake_rest s) = (length s + length (List.filter upper_byte s))%nat.
Proof.
  induction s as [|b s IH]; [done|]. cbn [asnake_rest flat_map List.filter].
  rewrite length_app. fold (asnake_rest s). rewrite IH.
  destruct (upper_byte b); cbn [length]; lia.
Qed.

Section AsciiSnake.
Context (U : unicode.Tables) (HU : unicode.Laws U).

Lemma snake_every_upper_ascii (s : gostring) :
  is_ascii s ->
  snake_every_upper U (map byte_val s) = map byte_val (asnake_rest s).
Proof.
  induction 1 as [|b s Hb _ IH]; [done|].
  cbn [map snake_every_upper flat_map asnake_rest].
  fold (snake_every_upper U (map byte_val s)). fold (asnake_rest s).
  rewrite map_app, IH, (ascii_upper_byte U HU), (ascii_to_lower U HU) by done.
  now destruct (upper_byte b).
Qed.

Lemma snake_runes_ascii (s : gostring) :
  is_ascii s -> snake_runes U (map byte_val s) = map byte_val (asnake s).
Proof.
  destruct 1 as [|b s Hb Hs]; [done|]. cbn [map snake_runes asnake].
  rewrite snake_every_upper_ascii, (ascii_upper_byte U HU),
    (ascii_to_lower U HU) by done.
  unfold to_lower. now destruct (upper_byte b).
Qed.

Lemma ToSnakeCase_ascii (s : gostring) :
  is_ascii s -> returns (ToSnakeCase U s) (asnake s).
Proof.
  intros Hs. pose proof (ToSnakeCase_returns U s) as H.
  rewrite runes_ascii, snake_runes_ascii in H by done.
  now rewrite string_of_runes_ascii in H by now apply asnake_ascii.
Qed.

End AsciiSnake.

(** X6.  On an ASCII argument the result of [ToSnakeCase] is ASCII and holds
    no upper-case letter, and [ToSnakeCase] leaves it as it is: a second
    pass changes nothing. *)
Theorem ToSnakeCase_ascii_idempotent (U : unicode.Tables) (s : gostring) :
  unicode.Laws U -> is_ascii s ->
  exists r, returns (ToSnakeCase U s) r
            /\ is_ascii r
            /\ forallb (fun b => negb (upper_byte b)) r = true
            /\ returns (ToSnakeCase U r) r.
Proof.
  intros HU Hs. exists (asnake s). split; [now apply ToSnakeCase_ascii|].
  split; [now apply asnake_ascii|]. split; [apply asnake_no_upper|].
  rewrite <- (asnake_fixed (asnake s) (asnake_no_upper s)) at 2.
  apply ToSnakeCase_ascii; [done|]. now apply asnake_ascii.
Qed.

Lemma ToSnakeCase_ascii_idempotent_witness :
  exists r, returns (ToSnakeCase unicode.Latin1 (str "MyVariableName")) r
            /\ is_ascii r
            /\ forallb (fun b => negb (upper_byte b)) r = true
            /\ returns (ToSnakeCase unicode.Latin1 r) r.
Proof.
  apply (ToSnakeCase_ascii_idempotent unicode.Latin1 (str "MyVariableName")
           Latin1_laws).
  repeat constructor.
Defined.

(** X7.  On an ASCII argument [ToSnakeCase] adds one byte, the ['_'], for
    each upper-case letter after the first byte, and nothing else. *)
Theorem ToSnakeCase_ascii_length (U : unicode.Tables) (s r : gostring) :
  unicode.Laws U -> is_ascii s -> returns (ToSnakeCase U s) r ->
  length r = (length s + length (List.filter upper_byte (drop 1 s)))%nat.
Proof.
  intros HU Hs Hr. apply returns_run in Hr.
  rewrite (returns_run _ _ (ToSnakeCase_ascii U HU s Hs)) in Hr.
  injection Hr as <-. destruct s as [|b s]; [done|].
  cbn [asnake length drop]. now rewrite asnake_rest_length.
Qed.

Lemma ToSnakeCase_ascii_length_witness :
  length (str "my_variable_name")
  = (length (str "MyVariableName")
     + length (List.filter upper_byte (drop 1 (str "MyVariableName"))))%nat.
Proof.
  apply (ToSnakeCase_ascii_length unicode.Latin1 (str "MyVariableName")
           (str "my_variable_name") Latin1_laws).
  - repeat constructor.
  - intros h. eexists. rewrite ToSnakeCase_run. vm_compute. reflexivity.
Defined.

(** ** Splitting and joining on ASCII strings *)

(** [strings.FieldsFunc] with the separator test of the source, byte by
    byte. *)
Fixpoint afields (cur : gostring) (s : gostring) : list gostring :=
  match s with
  | [] => match cur with [] => [] | _ :: _ => [cur] end
  | b :: s' =>
    if alnum_byte b then afields (cur ++ [b]) s'
    else match cur with
         | [] => afields [] s'
         | _ :: _ => cur :: afields [] s'
         end
  end.

(** A word with its first byte in upper case, in lower case. *)
Definition atitle (w : gostring) : gostring :=
  match w with [] => [] | b :: w' => to_upper b :: w' end.

Definition alower (w : gostring) : gostring :=
  match w with [] => [] | b :: w' => to_lower b :: w' end.

Definition apascal (s : gostring) : gostring :=
  concat (map atitle (afields [] s)).

Definition acamel (s : gostring) : gostring :=
  match afields [] s with
  | [] => []
  | w :: ws => alower w ++ concat (map atitle ws)
  end.

(** A non-empty word of ASCII letters and digits. *)
Definition alnum_word (w : gostring) : bool :=
  match w with [] => false | _ :: _ => forallb alnum_byte w end.

Lemma alnum_word_ascii (w : gostring) :
  forallb alnum_byte w = true -> is_ascii w.
Proof.
  intros Hw. apply Forall_forall. intros b Hb.
  rewrite forallb_forall in Hw. apply alnum_byte_ascii, Hw.
  now apply list_elem_of_In.
Qed.

Lemma afields_words (cur s : gostring) :
  forallb alnum_byte cur = true ->
  forallb alnum_word (afields cur s) = true.
Proof.
  revert cur. induction s as [|b s IH]; intros cur Hcur.
  - cbn [afields]. destruct cur; [done|]. cbn [forallb alnum_word] in *.
    now rewrite Hcur.
  - cbn [afields]. destruct (alnum_byte b) eqn:Hb.
    + apply IH. rewrite forallb_app, Hcur. cbn. now rewrite Hb.
    + destruct cur as [|c cur]; [now apply IH|].
      cbn [forallb alnum_word] in *. rewrite Hcur. now apply IH.
Qed.

Lemma afields_word (cur w : gostring) :
  forallb alnum_byte w = true ->
  afields cur w = match cur ++ w with [] => [] | _ :: _ => [cur ++ w] end.
Proof.
  revert cur. induction w as [|b w IH]; intros cur Hw.
  - cbn [afields]. rewrite app_nil_r. reflexivity.
  - cbn [forallb] in Hw. apply andb_true_iff in Hw as [Hb Hw].
    cbn [afields]. rewrite Hb, IH by done. now rewrite <- app_assoc.
Qed.

Lemma afields_length (cur s : gostring) :
  (length (concat (afields cur s)) <= length cur + length s)%nat.
Proof.
  revert cur. induction s as [|b s IH]; intros cur.
  - cbn [afields]. destruct cur; cbn; rewrite ?app_nil_r; lia.
  - cbn [afields]. destruct (alnum_byte b).
    + specialize (IH (cur ++ [b])). rewrite length_app in IH. cbn in *. lia.
    + destruct cur as [|c cur]; specialize (IH []); cbn in *;
        rewrite ?length_app; lia.
Qed.

Lemma atitle_length (w : gostring) : length (atitle w) = length w.
Proof. now destruct w. Qed.

Lemma atitle_alnum (w : gostring) :
  forallb alnum_byte (atitle w) = forallb alnum_byte w.
Proof. destruct w as [|b w]; [done|]. cbn. now rewrite alnum_to_upper. Qed.

Lemma alower_alnum (w : gostring) :
  forallb alnum_byte (alower w) = forallb alnum_byte w.
Proof. destruct w as [|b w]; [done|]. cbn. now rewrite alnum_to_lower. Qed.

Lemma alnum_word_bytes (w : gostring) :
  alnum_word w = true -> forallb alnum_byte w = true /\ w <> [].
Proof. destruct w; [discriminate|]. now split. Qed.

Lemma concat_titles_alnum (ws : list gostring) :
  forallb alnum_word ws = true ->
  forallb alnum_byte (concat (map atitle ws)) = true.
Proof.
  induction ws as [|w ws IH]; [done|]. cbn [forallb map concat].
  intros [Hw%alnum_word_bytes Hws]%andb_true_iff.
  rewrite forallb_app, atitle_alnum, IH by done. now rewrite (proj1 Hw).
Qed.

Lemma concat_titles_length (ws : list gostring) :
  length (concat (map atitle ws)) = length (concat ws).
Proof.
  induction ws as [|w ws IH]; [done|]. cbn [map concat].
  now rewrite !length_app, atitle_length, IH.
Qed.

Section AsciiWords.
Context (U : unicode.Tables) (HU : unicode.Laws U).

Lemma fields_loop_ascii (cur s : gostring) :
  is_ascii s ->
  strings.fields_loop (notLetterOrNumber U) cur (achunks s) = afields cur s.
Proof.
  intros Hs. revert cur. induction Hs as [|b s Hb _ IH]; intros cur; [done|].
  cbn [achunks map strings.fields_loop afields]. fold (achunks s).
  rewrite (ascii_sep U HU) by done. destruct (alnum_byte b); cbn [negb].
  - apply IH.
  - destruct cur; now rewrite IH.
Qed.

Lemma words_ascii (s : gostring) : is_ascii s -> words U s = afields [] s.
Proof.
  intros Hs. unfold words, strings.fields.
  rewrite chunks_ascii by done. now apply fields_loop_ascii.
Qed.

Lemma alnum_chunk_word (b : byte) :
  alnum_byte b = true -> word_chunk U (byte_val b, [b]).
Proof.
  intros Hb. pose proof (alnum_byte_ascii b Hb) as Ha.
  split; [now apply achunk_wf|]. cbn [fst].
  now rewrite (ascii_sep U HU), Hb.
Qed.

Lemma Title_alnum (w : gostring) :
  forallb alnum_byte w = true -> strings.Title U w = atitle w.
Proof.
  intros Hw. rewrite <- (bytes_of_achunks w) at 1.
  rewrite (Title_word U HU).
  - destruct w as [|b w]; [done|]. cbn [achunks map capitalize atitle].
    fold (achunks w). rewrite bytes_of_achunks.
    cbn [forallb] in Hw. apply andb_true_iff in Hw as [Hb%alnum_byte_ascii _].
    rewrite (ascii_to_title U HU) by done.
    now rewrite EncodeRune_ascii by now apply to_upper_ascii.
  - unfold achunks. apply Forall_map. apply Forall_forall. intros b Hb.
    apply alnum_chunk_word. rewrite forallb_forall in Hw. apply Hw.
    now apply list_elem_of_In.
Qed.

Lemma Titles_alnum (ws : list gostring) :
  forallb alnum_word ws = true -> map (strings.Title U) ws = map atitle ws.
Proof.
  induction ws as [|w ws IH]; [done|]. cbn [forallb map].
  intros [Hw%alnum_word_bytes Hws]%andb_true_iff.
  now rewrite IH, Title_alnum by tauto.
Qed.

Lemma camel_words_alnum (ws : list gostring) :
  forallb alnum_word ws = true ->
  strings.join (camel_words U ws) []
  = match ws with
    | [] => []
    | w :: ws' => alower w ++ concat (map atitle ws')
    end.
Proof.
  intros Hws. rewrite join_empty_sep.
  destruct ws as [|w ws]; [done|]. cbn [camel_words concat].
  cbn [forallb] in Hws. apply andb_true_iff in Hws as [Hw Hws].
  rewrite Titles_alnum by done. f_equal.
  destruct w as [|b w]; [done|].
  change (take 1 (b :: w)) with [b]. change (drop 1 (b :: w)) with w.
  rewrite (ToLower_first_byte U b HU).
  cbn [alnum_word forallb] in Hw. apply andb_true_iff in Hw as [Hb _].
  apply alnum_byte_ascii in Hb.
  destruct (Z.ltb_spec (byte_val b) 128); [reflexivity | lia].
Qed.

Lemma ToPascalCase_ascii (s : gostring) :
  is_ascii s -> returns (ToPascalCase U s) (apascal s).
Proof.
  intros Hs h. eexists. rewrite ToPascalCase_run, join_empty_sep.
  rewrite words_ascii, Titles_alnum by (done || now apply afields_words).
  reflexivity.
Qed.

Lemma ToCamelCase_ascii (s : gostring) :
  is_ascii s -> returns (ToCamelCase U s) (acamel s).
Proof.
  intros Hs h. eexists. rewrite ToCamelCase_run.
  rewrite words_ascii, camel_words_alnum by (done || now apply afields_words).
  reflexivity.
Qed.

End AsciiWords.

Lemma apascal_alnum (s : gostring) : forallb alnum_byte (apascal s) = true.
Proof. apply concat_titles_alnum, afields_words. reflexivity. Qed.

Lemma acamel_alnum (s : gostring) : forallb alnum_byte (acamel s) = true.
Proof.
  unfold acamel. pose proof (afields_words [] s eq_refl) as Hws.
  destruct (afields [] s) as [|w ws]; [done|].
  cbn [forallb] in Hws. apply andb_true_iff in Hws as [Hw%alnum_word_bytes Hws].
  rewrite forallb_app, alower_alnum, concat_titles_alnum by done.
  now rewrite (proj1 Hw).
Qed.

Lemma afields_alnum (w : gostring) :
  forallb alnum_byte w = true ->
  afields [] w = match w with [] => [] | _ :: _ => [w] end.
Proof. intros Hw. now rewrite afields_word. Qed.

(** The two results differ in the case of their first byte only. *)
Lemma acamel_apascal (s : gostring) : acamel s = alower (apascal s).
Proof.
  unfold acamel, apascal. pose proof (afields_words [] s eq_refl) as Hws.
  destruct (afields [] s) as [|w ws]; [done|].
  cbn [forallb] in Hws. apply andb_true_iff in Hws as [Hw _].
  destruct w as [|b w]; [discriminate|].
  cbn [map concat atitle alower app]. now rewrite to_lower_upper.
Qed.

Lemma apascal_acamel (s : gostring) : apascal s = atitle (acamel s).
Proof.
  unfold acamel, apascal. pose proof (afields_words [] s eq_refl) as Hws.
  destruct (afields [] s) as [|w ws]; [done|].
  cbn [forallb] in Hws. apply andb_true_iff in Hws as [Hw _].
  destruct w as [|b w]; [discriminate|].
  cbn [map concat atitle alower app]. now rewrite to_upper_lower.
Qed.

Lemma apascal_word (w : gostring) :
  forallb alnum_byte w = true -> apascal w = atitle w.
Proof.
  intros Hw. unfold apascal. rewrite afields_alnum by done.
  destruct w; [done|]. cbn [map concat]. apply app_nil_r.
Qed.

Lemma acamel_word (w : gostring) :
  forallb alnum_byte w = true -> acamel w = alower w.
Proof.
  intros Hw. unfold acamel. rewrite afields_alnum by done.
  destruct w; [done|]. cbn [map concat]. apply app_nil_r.
Qed.

Lemma atitle_idem (w : gostring) : atitle (atitle w) = atitle w.
Proof. destruct w; [done|]. cbn. now rewrite to_upper_idem. Qed.

Lemma alower_idem (w : gostring) : alower (alower w) = alower w.
Proof. destruct w; [done|]. cbn. now rewrite to_lower_idem. Qed.

Lemma alower_atitle (w : gostring) : alower (atitle w) = alower w.
Proof. destruct w; [done|]. cbn. now rewrite to_lower_upper. Qed.

Lemma atitle_alower (w : gostring) : atitle (alower w) = atitle w.
Proof. destruct w; [done|]. cbn. now rewrite to_upper_lower. Qed.

Lemma apascal_apascal (s : gostring) : apascal (apascal s) = apascal s.
Proof.
  rewrite apascal_word by apply apascal_alnum.
  now rewrite (apascal_acamel s), atitle_idem.
Qed.

Lemma acamel_acamel (s : gostring) : acamel (acamel s) = acamel s.
Proof.
  rewrite acamel_word by apply acamel_alnum.
  now rewrite (acamel_apascal s), alower_idem.
Qed.

Lemma acamel_of_apascal (s : gostring) : acamel (apascal s) = acamel s.
Proof.
  rewrite acamel_word by apply apascal_alnum. symmetry. apply acamel_apascal.
Qed.

Lemma apascal_of_acamel (s : gostring) : apascal (acamel s) = apascal s.
Proof.
  rewrite apascal_word by apply acamel_alnum. symmetry. apply apascal_acamel.
Qed.

Lemma apascal_length (s : gostring) : (length (apascal s) <= length s)%nat.
Proof.
  unfold apascal. rewrite concat_titles_length.
  apply (afields_length [] s).
Qed.

(** X8.  On an ASCII argument [ToPascalCase] and [ToCamelCase] are idempotent:
    applied to its own result, each returns it unchanged. *)
Theorem casing_ascii_idempotent (U : unicode.Tables) (s : gostring) :
  unicode.Laws U -> is_ascii s ->
  exists p c,
    returns (ToPascalCase U s) p /\ returns (ToPascalCase U p) p
    /\ returns (ToCamelCase U s) c /\ returns (ToCamelCase U c) c.
Proof.
  intros HU Hs. exists (apascal s), (acamel s).
  pose proof (alnum_word_ascii _ (apascal_alnum s)) as Hp.
  pose proof (alnum_word_ascii _ (acamel_alnum s)) as Hc.
  repeat split.
  - now apply ToPascalCase_ascii.
  - rewrite <- (apascal_apascal s) at 2. now apply ToPascalCase_ascii.
  - now apply ToCamelCase_ascii.
  - rewrite <- (acamel_acamel s) at 2. now apply ToCamelCase_ascii.
Qed.

Lemma casing_ascii_idempotent_witness :
  exists p c,
    returns (ToPascalCase unicode.Latin1 (str "my_variable name")) p
    /\ returns (ToPascalCase unicode.Latin1 p) p
    /\ returns (ToCamelCase unicode.Latin1 (str "my_variable name")) c
    /\ returns (ToCamelCase unicode.Latin1 c) c.
Proof.
  apply (casing_ascii_idempotent unicode.Latin1 (str "my_variable name")
           Latin1_laws).
  repeat constructor.
Defined.

(** X9.  On an ASCII argument the camel-case and the Pascal-case result
    determine each other: [ToCamelCase] of the Pascal-case result is the
    camel-case result, and [ToPascalCase] of the camel-case result is the
    Pascal-case result. *)
Theorem casing_ascii_absorb (U : unicode.Tables) (s : gostring) :
  unicode.Laws U -> is_ascii s ->
  exists p c,
    returns (ToPascalCase U s) p /\ returns (ToCamelCase U s) c
    /\ returns (ToCamelCase U p) c /\ returns (ToPascalCase U c) p.
Proof.
  intros HU Hs. exists (apascal s), (acamel s).
  pose proof (alnum_word_ascii _ (apascal_alnum s)) as Hp.
  pose proof (alnum_word_ascii _ (acamel_alnum s)) as Hc.
  repeat split.
  - now apply ToPascalCase_ascii.
  - now apply ToCamelCase_ascii.
  - rewrite <- (acamel_of_apascal s). now apply ToCamelCase_ascii.
  - rewrite <- (apascal_of_acamel s). now apply ToPascalCase_ascii.
Qed.

Lemma casing_ascii_absorb_witness :
  exists p c,
    returns (ToPascalCase unicode.Latin1 (str "my_variable name")) p
    /\ returns (ToCamelCase unicode.Latin1 (str "my_variable name")) c
    /\ returns (ToCamelCase unicode.Latin1 p) c
    /\ returns (ToPascalCase unicode.Latin1 c) p.
Proof.
  apply (casing_ascii_absorb unicode.Latin1 (str "my_variable name")
           Latin1_laws).
  repeat constructor.
Defined.

(** X10.  On an ASCII argument the results of [ToPascalCase] and
    [ToCamelCase] hold ASCII letters and digits only and are no longer
    than the argument, and the camel-case result is the Pascal-case
    result with its first byte in lower case. *)
Theorem casing_ascii_alnum (U : unicode.Tables) (s : gostring) :
  unicode.Laws U -> is_ascii s ->
  exists p c,
    returns (ToPascalCase U s) p /\ returns (ToCamelCase U s) c
    /\ forallb alnum_byte p = true /\ forallb alnum_byte c = true
    /\ c = alower p /\ (length p <= length s)%nat.
Proof.
  intros HU Hs. exists (apascal s), (acamel s). repeat split.
  - now apply ToPascalCase_ascii.
  - now apply ToCamelCase_ascii.
  - apply apascal_alnum.
  - apply acamel_alnum.
  - apply acamel_apascal.
  - apply apascal_length.
Qed.

Lemma casing_ascii_alnum_witness :
  exists p c,
    returns (ToPascalCase unicode.Latin1 (str "my_variable name")) p
    /\ returns (ToCamelCase unicode.Latin1 (str "my_variable name")) c
    /\ forallb alnum_byte p = true /\ forallb alnum_byte c = true
    /\ c = alower p
    /\ (length p <= length (str "my_variable name"))%nat.
Proof.
  apply (casing_ascii_alnum unicode.Latin1 (str "my_variable name")
           Latin1_laws).
  repeat constructor.
Defined.

(** ** Snake case first *)

(** [apascal] as one pass over the bytes: [start] tells whether the next
    letter or digit starts a word. *)
Fixpoint pascal_loop (start : bool) (s : gostring) : gostring :=
  match s with
  | [] => []
  | b :: s' =>
    if alnum_byte b then
      (if start then to_upper b else b) :: pascal_loop false s'
    else pascal_loop true s'
  end.

Lemma titles_loop (cur s : gostring) :
  concat (map atitle (afields cur s))
  = atitle cur ++ pascal_loop (match cur with [] => true | _ => false end) s.
Proof.
  revert cur. induction s as [|b s IH]; intros cur.
  - cbn [afields pascal_loop]. destruct cur; cbn; now rewrite ?app_nil_r.
  - cbn [afields pascal_loop]. destruct (alnum_byte b).
    + rewrite IH. destruct cur as [|c cur]; [reflexivity|].
      cbn [app atitle]. now rewrite <- app_assoc.
    + destruct cur as [|c cur]; [apply IH|].
      cbn [map concat]. now rewrite IH.
Qed.

Lemma apascal_loop (s : gostring) : apascal s = pascal_loop true s.
Proof. unfold apascal. now rewrite titles_loop. Qed.

Lemma upper_alnum (b : byte) : upper_byte b = true -> alnum_byte b = true.
Proof. unfold alnum_byte. now intros ->. Qed.

Lemma to_upper_upper (b : byte) : upper_byte b = true -> to_upper b = b.
Proof.
  intros Hb%upper_byte_range. unfold to_upper.
  destruct (lower_byte b) eqn:E; [|done]. apply lower_byte_range in E. lia.
Qed.

Lemma pascal_loop_snake (start : bool) (s : gostring) :
  pascal_loop start (asnake_rest s) = pascal_loop start s.
Proof.
  revert start. induction s as [|b s IH]; intros start; [done|].
  cbn [asnake_rest flat_map]. fold (asnake_rest s).
  destruct (upper_byte b) eqn:Hb.
  - cbn [app pascal_loop]. change (alnum_byte x5f) with false. cbn iota.
    rewrite alnum_to_lower, (upper_alnum b Hb), to_upper_lower, IH.
    rewrite (to_upper_upper b Hb). now destruct start.
  - cbn [app pascal_loop]. now rewrite !IH.
Qed.

Lemma apascal_asnake (s : gostring) : apascal (asnake s) = apascal s.
Proof.
  rewrite !apascal_loop. destruct s as [|b s]; [done|].
  cbn [asnake pascal_loop].
  rewrite alnum_to_lower, to_upper_lower, !pascal_loop_snake.
  destruct (alnum_byte b); reflexivity.
Qed.

Lemma acamel_asnake (s : gostring) : acamel (asnake s) = acamel s.
Proof. now rewrite !acamel_apascal, apascal_asnake. Qed.

(** X11.  On an ASCII argument, converting to snake case first does not change
    the result of [ToPascalCase] or of [ToCamelCase]. *)
Theorem casing_after_snake (U : unicode.Tables) (s : gostring) :
  unicode.Laws U -> is_ascii s ->
  exists r p c,
    returns (ToSnakeCase U s) r
    /\ returns (ToPascalCase U s) p /\ returns (ToPascalCase U r) p
    /\ returns (ToCamelCase U s) c /\ returns (ToCamelCase U r) c.
Proof.
  intros HU Hs. exists (asnake s), (apascal s), (acamel s).
  pose proof (asnake_ascii s Hs) as Hr. repeat split.
  - now apply ToSnakeCase_ascii.
  - now apply ToPascalCase_ascii.
  - rewrite <- (apascal_asnake s). now apply ToPascalCase_ascii.
  - now apply ToCamelCase_ascii.
  - rewrite <- (acamel_asnake s). now apply ToCamelCase_ascii.
Qed.

Lemma casing_after_snake_witness :
  exists r p c,
    returns (ToSnakeCase unicode.Latin1 (str "myVariable Name")) r
    /\ returns (ToPascalCase unicode.Latin1 (str "myVariable Name")) p
    /\ returns (ToPascalCase unicode.Latin1 r) p
    /\ returns (ToCamelCase unicode.Latin1 (str "myVariable Name")) c
    /\ returns (ToCamelCase unicode.Latin1 r) c.
Proof.
  apply (casing_after_snake unicode.Latin1 (str "myVariable Name")
           Latin1_laws).
  repeat constructor.
Defined.

(** ** The three forms of a name *)

(** The Pascal-case form of the name joined from [ws]. *)
Definition pascal_of (ws : list gostring) : gostring :=
  concat (map upper_first ws).

Lemma returns_unique {A} (m : M A) (a b : A) :
  returns m a -> returns m b -> a = b.
Proof.
  intros Ha%returns_run Hb%returns_run. rewrite Ha in Hb. now injection Hb.
Qed.

Lemma lower_not_upper_byte (b : byte) :
  lower_byte b = true -> upper_byte b = false.
Proof.
  intros Hb%lower_byte_range. unfold upper_byte, unicode.between.
  destruct (Z.leb_spec (byte_val b) 90); [lia|]. apply andb_false_r.
Qed.

Lemma lower_no_upper (w : gostring) :
  forallb lower_byte w = true ->
  forallb (fun b => negb (upper_byte b)) w = true.
Proof.
  intros Hw. apply forallb_forall. intros b Hb.
  rewrite forallb_forall in Hw. now rewrite (lower_not_upper_byte b (Hw b Hb)).
Qed.

Lemma asnake_rest_app (s t : gostring) :
  asnake_rest (s ++ t) = asnake_rest s ++ asnake_rest t.
Proof. unfold asnake_rest. now rewrite flat_map_app. Qed.

Lemma upper_first_upper (b : byte) :
  lower_byte b = true ->
  upper_byte (byte_of (byte_val b - 32)) = true
  /\ to_lower (byte_of (byte_val b - 32)) = b.
Proof.
  intros Hb%lower_byte_range.
  assert (Hu : upper_byte (byte_of (byte_val b - 32)) = true).
  { unfold upper_byte, unicode.between. rewrite byte_val_of by lia.
    destruct (Z.leb_spec 65 (byte_val b - 32)); [|lia].
    destruct (Z.leb_spec (byte_val b - 32) 90); [reflexivity | lia]. }
  split; [exact Hu|]. apply byte_val_inj.
  rewrite to_lower_val, Hu, byte_val_of by lia. lia.
Qed.

Lemma asnake_rest_upper_first (w : gostring) :
  lower_word w = true -> asnake_rest (upper_first w) = x5f :: w.
Proof.
  destruct w as [|b w]; [discriminate|]. cbn [lower_word forallb].
  intros [Hb Hw]%andb_true_iff.
  destruct (upper_first_upper b Hb) as [Hu Hl].
  cbn [upper_first asnake_rest flat_map]. rewrite Hu, Hl. cbn [app].
  do 2 f_equal. apply (asnake_rest_fixed w). now apply lower_no_upper.
Qed.

Lemma asnake_rest_tail (ws : list gostring) :
  forallb lower_word ws = true ->
  asnake_rest (concat (map upper_first ws))
  = concat (map (fun w => [x5f] ++ w) ws).
Proof.
  induction ws as [|w ws IH]; [done|]. cbn [forallb map concat].
  intros [Hw Hws]%andb_true_iff.
  now rewrite asnake_rest_app, asnake_rest_upper_first, IH.
Qed.

Lemma asnake_camel_of (ws : list gostring) :
  forallb lower_word ws = true -> asnake (camel_of ws) = strings.join ws [x5f].
Proof.
  destruct ws as [|w ws]; [done|]. cbn [forallb].
  intros [Hw Hws]%andb_true_iff. rewrite join_cons. cbn [camel_of].
  destruct w as [|b w]; [discriminate|]. cbn [lower_word forallb] in Hw.
  apply andb_true_iff in Hw as [Hb Hw]. cbn [app asnake].
  unfold to_lower. rewrite (lower_not_upper_byte b Hb). f_equal.
  rewrite asnake_rest_app, asnake_rest_tail by done. f_equal.
  apply asnake_rest_fixed. now apply lower_no_upper.
Qed.

Lemma asnake_pascal_of (ws : list gostring) :
  forallb lower_word ws = true -> asnake (pascal_of ws) = strings.join ws [x5f].
Proof.
  destruct ws as [|w ws]; [done|]. cbn [forallb].
  intros [Hw Hws]%andb_true_iff. rewrite join_cons.
  unfold pascal_of. cbn [map concat].
  destruct w as [|b w]; [discriminate|]. cbn [lower_word forallb] in Hw.
  apply andb_true_iff in Hw as [Hb Hw]. cbn [upper_first app asnake].
  rewrite (proj2 (upper_first_upper b Hb)). f_equal.
  rewrite asnake_rest_app, asnake_rest_tail by done. f_equal.
  apply asnake_rest_fixed. now apply lower_no_upper.
Qed.

Lemma pascal_of_ascii (ws : list gostring) :
  forallb lower_word ws = true -> is_ascii (pascal_of ws).
Proof.
  unfold pascal_of. induction ws as [|w ws IH]; [constructor|].
  cbn [forallb map concat]. intros [Hw Hws]%andb_true_iff.
  apply Forall_app. split; [now apply upper_first_ascii | now apply IH].
Qed.

Section Forms.
Context (U : unicode.Tables) (HU : unicode.Laws U).
Context (ws : list gostring) (Hws : forallb lower_word ws = true).

Lemma ToPascalCase_snake :
  returns (ToPascalCase U (strings.join ws [x5f])) (pascal_of ws).
Proof.
  intros h. eexists. rewrite ToPascalCase_run, join_empty_sep.
  rewrite (words_snake U HU) by done.
  replace (map (strings.Title U) ws) with (map upper_first ws); [reflexivity|].
  clear h. induction ws as [|w l IH]; [done|].
  cbn [forallb] in Hws. apply andb_true_iff in Hws as [Hw Hl].
  cbn [map]. rewrite IH by done. f_equal. symmetry.
  apply (Title_lower U HU). now destruct w.
Qed.

Lemma apascal_snake : apascal (strings.join ws [x5f]) = pascal_of ws.
Proof.
  eapply returns_unique; [|exact ToPascalCase_snake].
  apply (ToPascalCase_ascii U HU). now apply join_ascii.
Qed.

Lemma acamel_snake : acamel (strings.join ws [x5f]) = camel_of ws.
Proof.
  eapply returns_unique; [|now apply (ToCamelCase_snake U HU)].
  apply (ToCamelCase_ascii U HU). now apply join_ascii.
Qed.

Lemma snake_forms :
  returns (ToSnakeCase U (strings.join ws [x5f])) (strings.join ws [x5f])
  /\ returns (ToSnakeCase U (camel_of ws)) (strings.join ws [x5f])
  /\ returns (ToSnakeCase U (pascal_of ws)) (strings.join ws [x5f]).
Proof.
  repeat split.
  - rewrite <- (asnake_camel_of ws Hws) at 2.
    rewrite <- (asnake_fixed _ (asnake_no_upper (camel_of ws))).
    rewrite (asnake_camel_of ws Hws).
    apply (ToSnakeCase_ascii U HU). now apply join_ascii.
  - rewrite <- (asnake_camel_of ws Hws).
    apply (ToSnakeCase_ascii U HU). now apply camel_of_ascii.
  - rewrite <- (asnake_pascal_of ws Hws).
    apply (ToSnakeCase_ascii U HU). now apply pascal_of_ascii.
Qed.

Lemma pascal_forms :
  returns (ToPascalCase U (strings.join ws [x5f])) (pascal_of ws)
  /\ returns (ToPascalCase U (camel_of ws)) (pascal_of ws)
  /\ returns (ToPascalCase U (pascal_of ws)) (pascal_of ws).
Proof.
  repeat split.
  - exact ToPascalCase_snake.
  - rewrite <- apascal_snake, <- (asnake_camel_of ws Hws), apascal_asnake.
    apply (ToPascalCase_ascii U HU). now apply camel_of_ascii.
  - rewrite <- apascal_snake at 2.
    rewrite <- (asnake_pascal_of ws Hws), apascal_asnake.
    apply (ToPascalCase_ascii U HU). now apply pascal_of_ascii.
Qed.

Lemma camel_forms :
  returns (ToCamelCase U (strings.join ws [x5f])) (camel_of ws)
  /\ returns (ToCamelCase U (camel_of ws)) (camel_of ws)
  /\ returns (ToCamelCase U (pascal_of ws)) (camel_of ws).
Proof.
  repeat split.
  - now apply (ToCamelCase_snake U HU).
  - rewrite <- acamel_snake at 2.
    rewrite <- (asnake_camel_of ws Hws), acamel_asnake.
    apply (ToCamelCase_ascii U HU). now apply camel_of_ascii.
  - rewrite <- acamel_snake, <- (asnake_pascal_of ws Hws), acamel_asnake.
    apply (ToCamelCase_ascii U HU). now apply pascal_of_ascii.
Qed.

End Forms.

(** X12.  Whichever of its three forms a name is given in (snake case, camel
    case or Pascal case, the three inputs of [TestConvert]),
    [ToSnakeCase] returns its snake-case form. *)
Theorem ToSnakeCase_forms (U : unicode.Tables) (ws : list gostring) :
  unicode.Laws U -> forallb lower_word ws = true ->
  returns (ToSnakeCase U (strings.join ws [x5f])) (strings.join ws [x5f])
  /\ returns (ToSnakeCase U (camel_of ws)) (strings.join ws [x5f])
  /\ returns (ToSnakeCase U (pascal_of ws)) (strings.join ws [x5f]).
Proof. intros HU Hws. now apply snake_forms. Qed.

Lemma ToSnakeCase_forms_witness :
  returns (ToSnakeCase unicode.Latin1 (str "my_variable_name"))
          (str "my_variable_name")
  /\ returns (ToSnakeCase unicode.Latin1 (str "myVariableName"))
             (str "my_variable_name")
  /\ returns (ToSnakeCase unicode.Latin1 (str "MyVariableName"))
             (str "my_variable_name").
Proof.
  exact (ToSnakeCase_forms unicode.Latin1
           [str "my"; str "variable"; str "name"] Latin1_laws eq_refl).
Defined.

(** X13.  Whichever of its three forms a name is given in, [ToCamelCase]
    returns its camel-case form. *)
Theorem ToCamelCase_forms (U : unicode.Tables) (ws : list gostring) :
  unicode.Laws U -> forallb lower_word ws = true ->
  returns (ToCamelCase U (strings.join ws [x5f])) (camel_of ws)
  /\ returns (ToCamelCase U (camel_of ws)) (camel_of ws)
  /\ returns (ToCamelCase U (pascal_of ws)) (camel_of ws).
Proof. intros HU Hws. now apply camel_forms. Qed.

Lemma ToCamelCase_forms_witness :
  returns (ToCamelCase unicode.Latin1 (str "my_variable_name"))
          (str "myVariableName")
  /\ returns (ToCamelCase unicode.Latin1 (str "myVariableName"))
             (str "myVariableName")
  /\ returns (ToCamelCase unicode.Latin1 (str "MyVariableName"))
             (str "myVariableName").
Proof.
  exact (ToCamelCase_forms unicode.Latin1
           [str "my"; str "variable"; str "name"] Latin1_laws eq_refl).
Defined.

(** X14.  Whichever of its three forms a name is given in, [ToPascalCase]
    returns its Pascal-case form. *)
Theorem ToPascalCase_forms (U : unicode.Tables) (ws : list gostring) :
  unicode.Laws U -> forallb lower_word ws = true ->
  returns (ToPascalCase U (strings.join ws [x5f])) (pascal_of ws)
  /\ returns (ToPascalCase U (camel_of ws)) (pascal_of ws)
  /\ returns (ToPascalCase U (pascal_of ws)) (pascal_of ws).
Proof. intros HU Hws. now apply pascal_forms. Qed.

Lemma ToPascalCase_forms_witness :
  returns (ToPascalCase unicode.Latin1 (str "my_variable_name"))
          (str "MyVariableName")
  /\ returns (ToPascalCase unicode.Latin1 (str "myVariableName"))
             (str "MyVariableName")
  /\ returns (ToPascalCase unicode.Latin1 (str "MyVariableName"))
             (str "MyVariableName").
Proof.
  exact (ToPascalCase_forms unicode.Latin1
           [str "my"; str "variable"; str "name"] Latin1_laws eq_refl).
Defined.

(** ** Only the words count *)

Section Joined.
Context (f : rune -> bool) (sep : utf8.chunk) (Hsep : f sep.1 = true).

(** The chunks of the words [ws] with [sep] between them. *)
Definition joined (ws : list (list utf8.chunk)) : list utf8.chunk :=
  match ws with
  | [] => []
  | w :: ws' => w ++ concat (map (fun w' => sep :: w') ws')
  end.

Lemma groups_word (cur w rest : list utf8.chunk) :
  Forall (fun c : utf8.chunk => f c.1 = false) w ->
  groups f cur (w ++ rest) = groups f (cur ++ w) rest.
Proof.
  intros Hw. revert cur. induction Hw as [|c w Hc _ IH]; intros cur.
  - now rewrite app_nil_r.
  - cbn [app groups]. rewrite Hc, IH. now rewrite <- app_assoc.
Qed.

Lemma groups_tail (cur : list utf8.chunk) (ws : list (list utf8.chunk)) :
  cur <> [] ->
  Forall (fun w => w <> []
                   /\ Forall (fun c : utf8.chunk => f c.1 = false) w) ws ->
  groups f cur (concat (map (fun w' => sep :: w') ws)) = cur :: ws.
Proof.
  intros Hcur Hws. revert cur Hcur.
  induction Hws as [|w ws [Hne Hw] _ IH]; intros cur Hcur.
  - cbn. now destruct cur.
  - cbn [map concat app groups]. rewrite Hsep.
    destruct cur as [|c0 cur]; [done|]. f_equal.
    rewrite groups_word by done. cbn [app]. now apply IH.
Qed.

Lemma groups_joined (ws : list (list utf8.chunk)) :
  Forall (fun w => w <> []
                   /\ Forall (fun c : utf8.chunk => f c.1 = false) w) ws ->
  groups f [] (joined ws) = ws.
Proof.
  destruct 1 as [|w ws [Hne Hw] Hws]; [done|]. cbn [joined].
  rewrite groups_word by done. cbn [app]. now apply groups_tail.
Qed.

Lemma bytes_of_joined (ws : list (list utf8.chunk)) :
  bytes_of (joined ws) = strings.join (map bytes_of ws) sep.2.
Proof.
  destruct ws as [|w ws]; [done|]. cbn [joined map].
  rewrite join_cons, bytes_of_app. f_equal.
  induction ws as [|w' ws IH]; [done|]. cbn [map concat].
  rewrite bytes_of_app, IH. reflexivity.
Qed.

End Joined.

Section Separators.
Context (U : unicode.Tables) (HU : unicode.Laws U).

Lemma words_joined (s : gostring) (b : byte) :
  byte_val b < 128 -> alnum_byte b = false ->
  words U (strings.join (words U s) [b]) = words U s.
Proof.
  intros Hb Hsep. set (sep := (byte_val b, [b]) : utf8.chunk).
  assert (Hf : notLetterOrNumber U sep.1 = true).
  { cbn [sep fst]. now rewrite (ascii_sep U HU), Hsep. }
  pose proof (word_runs_chunks U HU s) as Hr.
  rewrite (words_word_runs U s).
  change [b] with sep.2. rewrite <- bytes_of_joined.
  assert (Hwf : Forall wf_chunk (joined sep (word_runs U s))).
  { destruct Hr as [|w ws [_ Hw] Hws]; [constructor|]. cbn [joined].
    apply Forall_app. split.
    - eapply Forall_impl; [exact Hw|]. now intros c [? _].
    - apply Forall_concat, Forall_map.
      eapply Forall_impl; [exact Hws|]. intros w' [_ Hw']. cbn beta.
      constructor; [now apply achunk_wf|].
      eapply Forall_impl; [exact Hw'|]. now intros c [? _]. }
  unfold words, strings.fields.
  pose proof (chunks_concat_wf _ [] Hwf) as Hc. rewrite !app_nil_r in Hc.
  fold (bytes_of (joined sep (word_runs U s))) in Hc. rewrite Hc.
  change ([] : gostring) with (bytes_of []).
  rewrite fields_loop_groups.
  - f_equal. apply (groups_joined _ sep Hf).
    eapply Forall_impl; [exact Hr|]. intros w [Hne Hw]. split; [done|].
    eapply Forall_impl; [exact Hw|]. now intros c [_ ?].
  - constructor.
  - eapply Forall_impl; [exact Hwf|]. now intros c (_ & ? & _).
Qed.

Lemma fields_loop_nil (f : rune -> bool) (cur : gostring)
    (cs : list utf8.chunk) :
  Forall (fun c : utf8.chunk => c.2 <> []) cs ->
  strings.fields_loop f cur cs = [] ->
  cur = [] /\ forallb f (map fst cs) = true.
Proof.
  intros Hcs. revert cur. induction Hcs as [|[c bs] cs Hc _ IH]; intros cur.
  - cbn. now destruct cur.
  - cbn [strings.fields_loop map forallb fst]. destruct (f c).
    + destruct cur; [|discriminate]. intros E. now apply IH in E as [_ ->].
    + intros E. apply IH in E as [E _]. apply app_eq_nil in E as [_ E].
      now destruct Hc.
Qed.

Lemma words_nil (s : gostring) :
  words U s = [] <-> forallb (notLetterOrNumber U) (runes s) = true.
Proof.
  unfold words, strings.fields, runes. split.
  - intros E. eapply fields_loop_nil; [apply chunks_nonempty | exact E].
  - apply fields_loop_all_sep.
Qed.

Lemma capitalize_nonempty (w : list utf8.chunk) :
  w <> [] -> capitalize U w <> [].
Proof.
  destruct w as [|[c bs] w]; [done|]. intros _. cbn [capitalize].
  destruct (EncodeRune_wf (unicode.ToTitle U c)) as (_ & Hne & _).
  cbn [snd] in Hne. now destruct (utf8.EncodeRune (unicode.ToTitle U c)).
Qed.

Lemma pascal_result_nil (s : gostring) :
  strings.join (map (strings.Title U) (words U s)) [] = [] -> words U s = [].
Proof.
  rewrite join_empty_sep, (Title_words U HU), words_word_runs.
  pose proof (word_runs_chunks U HU s) as Hr.
  destruct Hr as [|w ws [Hne _] _]; [done|].
  cbn [map concat]. intros [E _]%app_eq_nil.
  now apply capitalize_nonempty in E.
Qed.

Lemma fields_nonempty (f : rune -> bool) (s : gostring) :
  Forall (fun w => w <> []) (strings.fields s f).
Proof.
  unfold strings.fields. change ([] : gostring) with (bytes_of []).
  rewrite fields_loop_groups; [|constructor | apply chunks_nonempty].
  pose proof (runs_words f _ _ (groups_runs f (utf8.chunks s))) as Hr.
  apply Forall_map. eapply Forall_impl; [exact Hr|].
  intros w (Hne & _ & Hin) E. apply Hne.
  apply bytes_of_nil_inv; [|exact E].
  pose proof (chunks_nonempty s) as Hc. rewrite Forall_forall in Hc, Hin |- *.
  intros c Hcw. apply Hc, Hin, Hcw.
Qed.

Lemma camel_result_nil (s : gostring) :
  strings.join (camel_words U (words U s)) [] = [] -> words U s = [].
Proof.
  rewrite join_empty_sep. pose proof (fields_nonempty (notLetterOrNumber U) s)
    as Hne. fold (words U s) in Hne.
  destruct Hne as [|w ws Hw _]; [done|]. cbn [camel_words concat].
  intros [E _]%app_eq_nil. exfalso. destruct w as [|b w]; [done|].
  change (take 1 (b :: w)) with [b] in E.
  rewrite (ToLower_first_byte U b HU) in E.
  now destruct (byte_val b <? 128).
Qed.

End Separators.

(** X15.  [ToPascalCase] and [ToCamelCase] see the words of their argument
    only: with the words joined by one separator (any ASCII byte that is
    no letter and no digit) in place of the argument, each returns the
    same result.  Leading, trailing and repeated separators, and which
    separators they are, make no difference. *)
Theorem casing_separators (U : unicode.Tables) (s : gostring) (b : byte) :
  unicode.Laws U -> byte_val b < 128 -> alnum_byte b = false ->
  exists p c,
    returns (ToPascalCase U s) p
    /\ returns (ToPascalCase U
                  (strings.join (strings.fields s (notLetterOrNumber U)) [b]))
               p
    /\ returns (ToCamelCase U s) c
    /\ returns (ToCamelCase U
                  (strings.join (strings.fields s (notLetterOrNumber U)) [b]))
               c.
Proof.
  intros HU Hb Hsep. fold (words U s).
  exists (strings.join (map (strings.Title U) (words U s)) []),
         (strings.join (camel_words U (words U s)) []).
  repeat split; intros h; eexists.
  - apply ToPascalCase_run.
  - rewrite ToPascalCase_run, (words_joined U HU) by done. reflexivity.
  - apply ToCamelCase_run.
  - rewrite ToCamelCase_run, (words_joined U HU) by done. reflexivity.
Qed.

Lemma casing_separators_witness :
  exists p c,
    returns (ToPascalCase unicode.Latin1 (str "__my  variable-name.")) p
    /\ returns (ToPascalCase unicode.Latin1 (str "my_variable_name")) p
    /\ returns (ToCamelCase unicode.Latin1 (str "__my  variable-name.")) c
    /\ returns (ToCamelCase unicode.Latin1 (str "my_variable_name")) c.
Proof.
  exact (casing_separators unicode.Latin1 (str "__my  variable-name.") x5f
           Latin1_laws eq_refl eq_refl).
Defined.

(** X16.  [ToPascalCase] and [ToCamelCase] return the empty string only on an
    argument with no letter and no number: as soon as the argument holds
    one, the result is not empty. *)
Theorem casing_empty_iff (U : unicode.Tables) (s : gostring) :
  unicode.Laws U ->
  (returns (ToPascalCase U s) []
   <-> forallb (notLetterOrNumber U) (runes s) = true)
  /\ (returns (ToCamelCase U s) []
      <-> forallb (notLetterOrNumber U) (runes s) = true).
Proof.
  intros HU. rewrite <- (words_nil U s). split; split.
  - intros H. apply (pascal_result_nil U HU).
    eapply returns_unique; [|exact H].
    intros h. eexists. apply ToPascalCase_run.
  - intros E h. eexists. rewrite ToPascalCase_run, E. reflexivity.
  - intros H. apply (camel_result_nil U HU).
    eapply returns_unique; [|exact H].
    intros h. eexists. apply ToCamelCase_run.
  - intros E h. eexists. rewrite ToCamelCase_run, E. reflexivity.
Qed.

Lemma casing_empty_iff_witness :
  (returns (ToPascalCase unicode.Latin1 (str "a-")) []
   <-> forallb (notLetterOrNumber unicode.Latin1) (runes (str "a-")) = true)
  /\ (returns (ToCamelCase unicode.Latin1 (str "a-")) []
      <-> forallb (notLetterOrNumber unicode.Latin1) (runes (str "a-"))
          = true).
Proof. exact (casing_empty_iff unicode.Latin1 (str "a-") Latin1_laws). Defined.

(** ** [ToPascalCase] writes well-formed UTF-8 *)

Lemma well_formed_bytes_of (cs : list utf8.chunk) :
  Forall wf_chunk cs -> well_formed (bytes_of cs) = true.
Proof.
  intros Hcs. unfold well_formed, bytes_of.
  pose proof (chunks_concat_wf cs [] Hcs) as Hc. rewrite !app_nil_r in Hc.
  rewrite Hc. apply forallb_forall. intros c Hin%list_elem_of_In.
  rewrite Forall_forall in Hcs. now destruct (Hcs c Hin) as (_ & _ & ->).
Qed.

Section PascalWellFormed.
Context (U : unicode.Tables) (HU : unicode.Laws U).

(** The chunks of a capitalized word. *)
Definition capitalized (w : list utf8.chunk) : list utf8.chunk :=
  match w with
  | [] => []
  | (c, _) :: w' =>
    (written (unicode.ToTitle U c), utf8.EncodeRune (unicode.ToTitle U c)) :: w'
  end.

Lemma capitalize_capitalized (w : list utf8.chunk) :
  capitalize U w = bytes_of (capitalized w).
Proof. now destruct w as [|[c bs] w]. Qed.

Lemma capitalized_wf (w : list utf8.chunk) :
  Forall (word_chunk U) w -> Forall wf_chunk (capitalized w).
Proof.
  destruct 1 as [|[c bs] w _ Hw]; [constructor|]. cbn [capitalized].
  constructor; [apply EncodeRune_wf|].
  eapply Forall_impl; [exact Hw|]. now intros x [? _].
Qed.

Lemma pascal_result_chunks (s : gostring) :
  strings.join (map (strings.Title U) (words U s)) []
  = bytes_of (concat (map capitalized (word_runs U s))).
Proof.
  rewrite join_empty_sep, (Title_words U HU).
  induction (word_runs U s) as [|w ws IH]; [done|].
  cbn [map concat]. now rewrite bytes_of_app, IH, capitalize_capitalized.
Qed.

End PascalWellFormed.

(** X5.  The result of [ToPascalCase] is well-formed UTF-8 whatever the
    argument: an invalid byte of the argument is no letter and no number,
    so it separates words and is not copied. *)
Theorem ToPascalCase_well_formed (U : unicode.Tables) (s : gostring) :
  unicode.Laws U ->
  exists p, returns (ToPascalCase U s) p /\ well_formed p = true.
Proof.
  intros HU. eexists. split.
  - intros h. eexists. apply ToPascalCase_run.
  - rewrite (pascal_result_chunks U HU). apply well_formed_bytes_of.
    apply Forall_concat, Forall_map.
    eapply Forall_impl; [apply (word_runs_chunks U HU)|].
    intros w [_ Hw]. now apply capitalized_wf.
Qed.

Lemma ToPascalCase_well_formed_witness :
  exists p, returns (ToPascalCase unicode.Latin1 [x61; xc3; x62]) p
            /\ well_formed p = true.
Proof.
  exact (ToPascalCase_well_formed unicode.Latin1 [x61; xc3; x62] Latin1_laws).
Defined.

(** ** [IsValid] reads the bytes of its receiver only *)

(** What a call gives, the heap left aside: a value, a panic, or no
    answer within the fuel. *)
Definition outcome {A} (x : result A) : option (option A) :=
  match x with
  | Done a _ => Some (Some a)
  | Panic => Some None
  | OutOfFuel => None
  end.

Lemma reslice_outcome (h1 h2 : heap) (b1 b2 : slice) (bs : list byte) (n : Z) :
  shows h1 b1 bs -> shows h2 b2 bs ->
  (reslice b1 n h1 = Panic /\ reslice b2 n h2 = Panic)
  \/ (reslice b1 n h1 = Done (advance b1 n) h1
      /\ reslice b2 n h2 = Done (advance b2 n) h2
      /\ shows h1 (advance b1 n) (drop (Z.to_nat n) bs)
      /\ shows h2 (advance b2 n) (drop (Z.to_nat n) bs)).
Proof.
  intros H1 H2.
  destruct (Z.le_gt_cases 0 n) as [Hn0|Hn0];
    [destruct (Z.le_gt_cases n (Z.of_nat (length bs))) as [Hn|Hn]|].
  - right.
    destruct (shows_reslice h1 b1 bs n H1 ltac:(lia)) as [-> ?].
    destruct (shows_reslice h2 b2 bs n H2 ltac:(lia)) as [-> ?]. done.
  - left. unfold reslice.
    rewrite (shows_len _ _ _ H1), (shows_len _ _ _ H2).
    destruct (Z.leb_spec n (Z.of_nat (length bs))); [lia|].
    now rewrite andb_false_r.
  - left. unfold reslice. destruct (Z.leb_spec 0 n); [lia|]. done.
Qed.

(** X17.  Two receivers that show the same bytes get the same answer from
    [IsValid], wherever their arrays are in the heap, whatever the arrays
    hold before and after the bytes shown, and whatever else the heap
    holds. *)
Theorem IsValid_window (h1 h2 : heap) (b1 b2 : RawFields) (bs : list byte)
    (fuel : nat) :
  shows h1 b1 bs -> shows h2 b2 bs ->
  outcome (IsValid fuel b1 h1) = outcome (IsValid fuel b2 h2).
Proof.
  revert b1 b2 bs. induction fuel as [|fuel IH]; intros b1 b2 bs H1 H2;
    [reflexivity|].
  cbn [IsValid]. rewrite (shows_len _ _ _ H1), (shows_len _ _ _ H2).
  destruct (0 <? length bs)%nat; [|reflexivity].
  rewrite (bind_Done _ _ _ _ _ H1), (bind_Done _ _ _ _ _ H2).
  destruct (wire.ConsumeField bs) as [[num typ] n].
  destruct (n <? 0); [reflexivity|].
  destruct (reslice_outcome h1 h2 b1 b2 bs n H1 H2)
    as [[E1 E2]|(E1 & E2 & S1 & S2)].
  - rewrite !bind_unfold, E1, E2. reflexivity.
  - rewrite (bind_Done _ _ _ _ _ E1), (bind_Done _ _ _ _ _ E2).
    now apply (IH _ _ _ S1 S2).
Qed.

Lemma IsValid_window_witness :
  outcome (IsValid 20 {| array := 0%nat; low := 0%nat; high := 16%nat |} [Bytes sample])
  = outcome (IsValid 20 {| array := 1%nat; low := 2%nat; high := 18%nat |}
               [Strings []; Bytes ([xff; xff] ++ sample ++ [x00])]).
Proof.
  apply (IsValid_window [Bytes sample]
           [Strings []; Bytes ([xff; xff] ++ sample ++ [x00])]
           {| array := 0%nat; low := 0%nat; high := 16%nat |}
           {| array := 1%nat; low := 2%nat; high := 18%nat |} sample 20);
    reflexivity.
Defined.

(** ** The first character of a camel-case result *)

Section CamelFirst.
Context (U : unicode.Tables) (HU : unicode.Laws U).

Lemma runes_ascii_head (b : byte) (t : gostring) :
  byte_val b < 128 -> runes (b :: t) = byte_val b :: runes t.
Proof.
  intros Hb. unfold runes.
  pose proof (chunks_app_wf (byte_val b, [b]) t (achunk_wf b Hb)) as H.
  cbn [snd app] in H. now rewrite H.
Qed.

Lemma runes_error_head (t : gostring) :
  runes ([xef; xbf; xbd] ++ t) = utf8.RuneError :: runes t.
Proof.
  unfold runes.
  pose proof (chunks_app_wf (utf8.RuneError, [xef; xbf; xbd]) t
                (EncodeRune_wf utf8.RuneError)) as H.
  cbn [snd] in H. now rewrite H.
Qed.

Lemma camel_result_first (s : gostring) (c : rune) :
  head (runes (strings.join (camel_words U (words U s)) [])) = Some c ->
  unicode.IsUpper U c = false.
Proof.
  rewrite join_empty_sep.
  pose proof (fields_nonempty (notLetterOrNumber U) s) as Hne.
  fold (words U s) in Hne.
  destruct Hne as [|w ws Hw _]; [discriminate|].
  destruct w as [|b w]; [done|]. cbn [camel_words concat].
  change (take 1 (b :: w)) with [b]. change (drop 1 (b :: w)) with w.
  rewrite (ToLower_first_byte U b HU), <- !app_assoc.
  destruct (Z.ltb_spec (byte_val b) 128) as [Hb|Hb].
  - fold (to_lower b). cbn [app].
    rewrite runes_ascii_head by now apply to_lower_ascii.
    intros [= <-].
    rewrite (ascii_upper_byte U HU) by now apply to_lower_ascii.
    apply to_lower_not_upper.
  - rewrite runes_error_head. intros [= <-].
    apply (unicode.error_IsUpper U HU).
Qed.

End CamelFirst.

(** X2.  The first character of the result of [ToCamelCase] is never an
    upper-case letter, whatever the argument: it is the lower-case form
    of an ASCII byte, or U+FFFD. *)
Theorem ToCamelCase_first_not_upper (U : unicode.Tables) (s : gostring) :
  unicode.Laws U ->
  exists r, returns (ToCamelCase U s) r
            /\ forall c, head (runes r) = Some c -> unicode.IsUpper U c = false.
Proof.
  intros HU. eexists. split.
  - intros h. eexists. apply ToCamelCase_run.
  - apply (camel_result_first U HU).
Qed.

Lemma ToCamelCase_first_not_upper_witness :
  exists r, returns (ToCamelCase unicode.Latin1 (str "MyVariableName")) r
            /\ forall c, head (runes r) = Some c ->
                         unicode.IsUpper unicode.Latin1 c = false.
Proof.
  exact (ToCamelCase_first_not_upper unicode.Latin1 (str "MyVariableName")
           Latin1_laws).
Defined.
